(** * Roborock vacuum map parser: a shallow embedding and its properties

    The development follows the two source files of the package:
    [image_parser.py] (class [RoborockImageParser]) and
    [map_data_parser.py] (class [RoborockMapDataParser]).  Python values are
    modelled as follows:

    - [bytes] is [list byte]; an element read from it is the integer
      [byte_val b] in [0, 255];
    - Python integers are [Z] (unbounded, as in Python);
    - an exception is the [Raise] outcome of the [result] monad;
    - [dict] and [set] are stdpp's [gmap] and [gset];
    - the few floating point quantities of the configuration (trim
      percentages, scale) are exact rationals [Q]; [int(...)] truncates
      towards zero. *)

From Stdlib Require Import ZArith Lia List QArith Qround.
From Stdlib.Strings Require Import Byte.
From stdpp Require Import gmap list strings.

Local Open Scope Z_scope.

(** ** Python primitives used by the parser *)

Module Py.

Inductive exn : Set :=
  | IndexError
  | ValueError
  | UnicodeDecodeError.

Inductive result (A : Type) : Type :=
  | Ok (a : A)
  | Raise (e : exn).

Arguments Ok {A} a.
Arguments Raise {A} e.

#[global] Instance result_ret : MRet result := @Ok.

#[global] Instance result_bind : MBind result := λ A B f m,
  match m with
  | Ok a => f a
  | Raise e => Raise e
  end.

Definition byte_val (b : byte) : Z := Z.of_N (Byte.to_N b).

(** [len(l)] *)
Definition len {A : Type} (l : list A) : Z := Z.of_nat (length l).

(** [data[i]] on a [bytes] object: a negative index counts from the end,
    an index outside [-len, len) raises [IndexError]. *)
Definition getitem (data : list byte) (i : Z) : result Z :=
  let j := if i <? 0 then i + len data else i in
  if (j <? 0) || (len data <=? j) then Raise IndexError
  else match data !! Z.to_nat j with
       | Some b => Ok (byte_val b)
       | None => Raise IndexError
       end.

(** One bound of a slice: negative bounds count from the end, and every
    bound is clamped into [0, len]. *)
Definition slice_bound (n i : Z) : Z :=
  if i <? 0 then Z.max (i + n) 0 else Z.min i n.

(** [data[start:stop]]: never raises. *)
Definition slice {A : Type} (data : list A) (start stop : Z) : list A :=
  let a := slice_bound (len data) start in
  let b := slice_bound (len data) stop in
  take (Z.to_nat (b - a)) (drop (Z.to_nat a) data).

(** [int(q)]: truncation towards zero. *)
Definition int_trunc (q : Q) : Z := Z.quot (Qnum q) (Zpos (Qden q)).

(** [range(start, stop, step)]; a zero step raises [ValueError]. *)
Definition range3 (start stop step : Z) : result (list Z) :=
  if step =? 0 then Raise ValueError
  else if 0 <? step
       then Ok ((λ k, start + k * step) <$> seqZ 0 ((stop - start + step - 1) / step))
       else Ok ((λ k, start + k * step) <$> seqZ 0 ((start - stop - step - 1) / (- step))).

(** [range(n)] *)
Definition range (n : Z) : list Z := seqZ 0 n.

(** A [for] loop whose body may raise: the state is threaded through the
    elements in order and the first exception ends the loop. *)
Fixpoint for_each {A S : Type} (body : A → S → result S) (l : list A) (s : S)
  : result S :=
  match l with
  | [] => Ok s
  | a :: l' =>
      match body a s with
      | Ok s' => for_each body l' s'
      | Raise e => Raise e
      end
  end.

(** [enumerate(l)] *)
Definition enumerate {A : Type} (l : list A) : list (Z * A) :=
  zip (seqZ 0 (len l)) l.

(** Builds a [bytes] literal from integers (each taken modulo 256). *)
Definition bytes_of (l : list Z) : list byte :=
  (λ z, match Byte.of_N (Z.to_N (z mod 256)) with
        | Some b => b
        | None => x00
        end) <$> l.

End Py.

Import Py.

(** ** Collaborators from [vacuum_map_parser_base] and PIL

    Only their interface is visible from this package: the configuration
    records, and an image as its size together with the pixels written to
    it ([pixels[x, y] = c]). *)

Module Config.

(** The members of [SupportedColor] that the image parser looks up. *)
Module SupportedColor.

Inductive t : Set :=
  | CARPETS
  | MAP_OUTSIDE
  | MAP_WALL
  | MAP_INSIDE
  | SCAN
  | GREY_WALL
  | MAP_WALL_V2
  | UNKNOWN.

End SupportedColor.

Record Trim : Set := { left : Q; right : Q; top : Q; bottom : Q }.

Record ImageConfig : Set := { scale : Q; trim : Trim }.

Record Image (Color : Type) : Type :=
  { size : Z * Z; pixels : gmap (Z * Z) Color }.

Arguments size {Color} _.
Arguments pixels {Color} _.

(** [Image.new("RGBA", size)]; PIL rejects a negative dimension. *)
Definition Image_new {Color : Type} (sz : Z * Z) : result (Image Color) :=
  if (sz.1 <? 0) || (sz.2 <? 0) then Raise ValueError
  else Ok {| size := sz; pixels := ∅ |}.

End Config.

Import Config.

(** ** image_parser.py *)

Module RoborockImageParser.

Definition MAP_OUTSIDE : Z := 0x00.
Definition MAP_WALL : Z := 0x01.
Definition MAP_INSIDE : Z := 0xFF.
Definition MAP_SCAN : Z := 0x07.

(** The branch of the [if]/[elif] chain of [parse] (lines 53-88) taken by a
    pixel code. *)
Inductive pixel_class : Set :=
  | Outside
  | Wall
  | Inside
  | Scan
  | GreyWall
  | WallV2
  | RoomFloor (room_number : Z)
  | Unknown.

Definition _get_room_number (pixel_type : Z) : Z :=
  Z.shiftr (Z.land pixel_type 0xFF) 3.

Definition pixel_category (pixel_type : Z) : pixel_class :=
  if pixel_type =? MAP_OUTSIDE then Outside
  else if pixel_type =? MAP_WALL then Wall
  else if pixel_type =? MAP_INSIDE then Inside
  else if pixel_type =? MAP_SCAN then Scan
  else
    let obstacle := Z.land pixel_type 0x07 in
    if obstacle =? 0 then GreyWall
    else if obstacle =? 1 then WallV2
    else if obstacle =? 7 then RoomFloor (_get_room_number pixel_type)
    else Unknown.

(** [get_room_at_pixel] (lines 93-100). *)
Definition get_room_at_pixel (raw_data : list byte) (width x y : Z)
  : result (option Z) :=
  pixel_type ← getitem raw_data (x + width * y);
  if negb ((pixel_type =? MAP_INSIDE) || (pixel_type =? MAP_SCAN))
  then if Z.land pixel_type 0x07 =? 7
       then mret (Some (_get_room_number pixel_type))
       else mret None
  else mret None.

(** *** [parse] (lines 26-91) *)

Definition trimmed_left_width (trim_left width : Z) : Z := trim_left + width.

Definition img_x_offset (trim_left trim_bottom width img_y : Z) : Z :=
  trimmed_left_width trim_left width * (img_y + trim_bottom).

(** [idx], the index at which [raw_data] is read and which is looked up in
    [carpet_map] (lines 45-51). *)
Definition idx (trim_left trim_bottom width img_x img_y : Z) : Z :=
  img_x + img_x_offset trim_left trim_bottom width img_y.

(** The [rooms] update of lines 71-79. *)
Definition update_room (rooms : gmap Z (Z * Z * Z * Z))
    (room_number room_x room_y : Z) : gmap Z (Z * Z * Z * Z) :=
  match rooms !! room_number with
  | None => <[room_number := (room_x, room_y, room_x, room_y)]> rooms
  | Some (r0, r1, r2, r3) =>
      <[room_number := (Z.min r0 room_x, Z.min r1 room_y,
                        Z.max r2 room_x, Z.max r3 room_y)]> rooms
  end.

(** [carpet_map is not None and idx in carpet_map] *)
Definition in_carpet_map (carpet_map : option (gset Z)) (i : Z) : bool :=
  match carpet_map with
  | Some m => bool_decide (i ∈ m)
  | None => false
  end.

Section Parse.

Context {Color : Type}.

(** [self._colors_palette.cached_colors], total on the members used here. *)
Variable cached_colors : SupportedColor.t → Color.
(** [self._colors_palette.get_room_color] *)
Variable get_room_color : Z → Color.
(** [Image.resize(size, resample=Resampling.NEAREST)] *)
Variable resize : Z * Z → Image Color → Image Color.
(** [self._image_config] *)
Variable image_config : ImageConfig.

(** What the two loops of [parse] mutate.  [cached_room_colors] is the
    dictionary held by the palette: the local name of line 32 is an alias of
    it, so a write through the local name is a write to the palette (the
    comment at lines 83-84 says so: "our local version of the cache and the
    real cache"). *)
Record parse_state : Type :=
  { rooms : gmap Z (Z * Z * Z * Z);
    image_pixels : gmap (Z * Z) Color;
    cached_room_colors : gmap Z Color }.

Definition set_pixel (s : parse_state) (x y : Z) (c : Color) : parse_state :=
  {| rooms := rooms s;
     image_pixels := <[(x, y) := c]> (image_pixels s);
     cached_room_colors := cached_room_colors s |}.

(** Lines 80-86: the [try]/[except KeyError] around the room colour. *)
Definition room_pixel (s : parse_state) (room_number x y : Z) : parse_state :=
  match cached_room_colors s !! room_number with
  | Some c => set_pixel s x y c
  | None =>
      let cache' := <[room_number := get_room_color room_number]> (cached_room_colors s) in
      {| rooms := rooms s;
         image_pixels := <[(x, y) := get_room_color room_number]> (image_pixels s);
         cached_room_colors := cache' |}
  end.

(** The body of the inner loop (lines 47-88). *)
Definition pixel_body (raw_data : list byte) (carpet_map : option (gset Z))
    (width trim_left trim_bottom trimmed_height img_y img_x : Z)
    (s : parse_state) : result parse_state :=
  let i := idx trim_left trim_bottom width img_x img_y in
  pixel_type ← getitem raw_data i;
  let x := img_x in
  let y := trimmed_height - img_y - 1 in
  if in_carpet_map carpet_map i && negb ((x + y) mod 2 =? 0)
  then mret (set_pixel s x y (cached_colors SupportedColor.CARPETS))
  else
    match pixel_category pixel_type with
    | Outside => mret (set_pixel s x y (cached_colors SupportedColor.MAP_OUTSIDE))
    | Wall => mret (set_pixel s x y (cached_colors SupportedColor.MAP_WALL))
    | Inside => mret (set_pixel s x y (cached_colors SupportedColor.MAP_INSIDE))
    | Scan => mret (set_pixel s x y (cached_colors SupportedColor.SCAN))
    | GreyWall => mret (set_pixel s x y (cached_colors SupportedColor.GREY_WALL))
    | WallV2 => mret (set_pixel s x y (cached_colors SupportedColor.MAP_WALL_V2))
    | RoomFloor room_number =>
        let room_x := img_x + trim_left in
        let room_y := img_y + trim_bottom in
        let s' := {| rooms := update_room (rooms s) room_number room_x room_y;
                     image_pixels := image_pixels s;
                     cached_room_colors := cached_room_colors s |} in
        mret (room_pixel s' room_number x y)
    | Unknown => mret (set_pixel s x y (cached_colors SupportedColor.UNKNOWN))
    end.

(** The body of the outer loop (lines 45-88). *)
Definition row_body (raw_data : list byte) (carpet_map : option (gset Z))
    (width trim_left trim_bottom trimmed_width trimmed_height img_y : Z)
    (s : parse_state) : result parse_state :=
  for_each
    (pixel_body raw_data carpet_map width trim_left trim_bottom trimmed_height img_y)
    (range trimmed_width) s.

(** [int(trim * n / 100)] (lines 33-36).  The code forms the product and the
    quotient in binary floating point; here they are exact, so the value is
    that of the code wherever the rounding of the two operations does not
    carry the quotient across an integer (a trim of 0, or 25 percent of 4,
    are such cases; 32.3 percent of 1000 is not).  The properties of the
    loops that depend on the value of an offset are therefore stated over
    lines 37-91 with the offsets as inputs ([Aux.parse_with_trims]). *)
Definition percent_of (p : Q) (n : Z) : Z :=
  int_trunc (p * inject_Z n / inject_Z 100)%Q.

(** [parse]: the palette's room colour cache is passed in and handed back,
    next to the returned pair [(image, rooms)]. *)
Definition parse (cache : gmap Z Color) (raw_data : list byte)
    (width height : Z) (carpet_map : option (gset Z))
  : result (option (Image Color) * gmap Z (Z * Z * Z * Z) * gmap Z Color) :=
  let trim_left := percent_of (left (trim image_config)) width in
  let trim_right := percent_of (right (trim image_config)) width in
  let trim_top := percent_of (top (trim image_config)) height in
  let trim_bottom := percent_of (bottom (trim image_config)) height in
  let trimmed_height := height - trim_top - trim_bottom in
  let trimmed_width := width - trim_left - trim_right in
  image ← Image_new (trimmed_width, trimmed_height);
  if (width =? 0) || (height =? 0) then mret (None, ∅, cache)
  else
    s ← for_each
          (row_body raw_data carpet_map width trim_left trim_bottom
             trimmed_width trimmed_height)
          (range trimmed_height)
          {| rooms := ∅; image_pixels := pixels image; cached_room_colors := cache |};
    let image := {| size := size image; pixels := image_pixels s |} in
    let image :=
      if negb (Qeq_bool (scale image_config) 1) && negb (width =? 0) && negb (height =? 0)
      then resize (int_trunc (inject_Z trimmed_width * scale image_config)%Q,
                   int_trunc (inject_Z trimmed_height * scale image_config)%Q) image
      else image in
    mret (Some image, rooms s, cached_room_colors s).

End Parse.

End RoborockImageParser.

(** ** The result schema of [vacuum_map_parser_base.map_data] *)

Module MapDataModel.

Record Point : Set := { x : Z; y : Z; a : option Z }.

Record Wall : Set := { wall_x0 : Z; wall_y0 : Z; wall_x1 : Z; wall_y1 : Z }.

Record Zone : Set := { zone_x0 : Z; zone_y0 : Z; zone_x1 : Z; zone_y1 : Z }.

Record Area : Set :=
  { area_x0 : Z; area_y0 : Z; area_x1 : Z; area_y1 : Z;
    area_x2 : Z; area_y2 : Z; area_x3 : Z; area_y3 : Z }.

Record ObstacleDetails : Set :=
  { type : option Z;
    description : option string;
    confidence_level : option Q;
    photo_name : option string }.

Record Obstacle : Set :=
  { obstacle_x : Z; obstacle_y : Z; details : ObstacleDetails }.

Record Path : Set :=
  { point_length : Z; point_size : Z; angle : Z; path : list (list Point) }.

Record Room : Set :=
  { room_x0 : Z; room_y0 : Z; room_x1 : Z; room_y1 : Z; number : Z }.

Record ImageData (Color : Type) : Type :=
  { image_size : Z;
    image_top : Z;
    image_left : Z;
    image_height : Z;
    image_width : Z;
    image_data : Image Color }.

Arguments image_size {Color} _.
Arguments image_top {Color} _.
Arguments image_left {Color} _.
Arguments image_height {Color} _.
Arguments image_width {Color} _.
Arguments image_data {Color} _.

(** The value of an attribute of a [MapData] object. *)
Inductive attribute (Color : Type) : Type :=
  | APoint (p : Point)
  | APath (p : Path)
  | AZones (l : list Zone)
  | AWalls (l : list Wall)
  | AAreas (l : list Area)
  | AObstacles (l : list Obstacle)
  | ABytes (b : list byte)
  | ACarpetMap (s : gset Z)
  | AImage (i : ImageData Color)
  | ARooms (r : gmap Z Room)
  | AVacuumRoom (r : option Z).

Arguments APoint {Color} p.
Arguments APath {Color} p.
Arguments AZones {Color} l.
Arguments AWalls {Color} l.
Arguments AAreas {Color} l.
Arguments AObstacles {Color} l.
Arguments ABytes {Color} b.
Arguments ACarpetMap {Color} s.
Arguments AImage {Color} i.
Arguments ARooms {Color} r.
Arguments AVacuumRoom {Color} r.

(** A [MapData] object: the attributes assigned so far (an attribute that
    is absent is [None] in Python) and the [additional_parameters]
    dictionary ([True] is stored as [1]). *)
Record MapData (Color : Type) : Type :=
  { attributes : gmap string (attribute Color);
    additional_parameters : gmap string Z }.

Arguments attributes {Color} _.
Arguments additional_parameters {Color} _.

(** [MapData(25500, 1000)] *)
Definition MapData_new {Color : Type} : MapData Color :=
  {| attributes := ∅; additional_parameters := ∅ |}.

(** [map_data.name = v] *)
Definition set_attribute {Color : Type} (name : string) (v : attribute Color)
    (m : MapData Color) : MapData Color :=
  {| attributes := <[name := v]> (attributes m);
     additional_parameters := additional_parameters m |}.

(** [map_data.additional_parameters[key] = v] *)
Definition set_parameter {Color : Type} (key : string) (v : Z)
    (m : MapData Color) : MapData Color :=
  {| attributes := attributes m;
     additional_parameters := <[key := v]> (additional_parameters m) |}.

End MapDataModel.

Import MapDataModel.

(** ** map_data_parser.py *)

Module RoborockMapDataParser.

Inductive RoborockBlockType : Set :=
  | CHARGER
  | IMAGE
  | PATH
  | GOTO_PATH
  | GOTO_PREDICTED_PATH
  | CURRENTLY_CLEANED_ZONES
  | GOTO_TARGET
  | ROBOT_POSITION
  | NO_GO_AREAS
  | VIRTUAL_WALLS
  | BLOCKS
  | NO_MOPPING_AREAS
  | OBSTACLES
  | IGNORED_OBSTACLES
  | OBSTACLES_WITH_PHOTO
  | IGNORED_OBSTACLES_WITH_PHOTO
  | CARPET_MAP
  | MOP_PATH
  | NO_CARPET_AREAS
  | DIGEST.

Definition value (t : RoborockBlockType) : Z :=
  match t with
  | CHARGER => 1
  | IMAGE => 2
  | PATH => 3
  | GOTO_PATH => 4
  | GOTO_PREDICTED_PATH => 5
  | CURRENTLY_CLEANED_ZONES => 6
  | GOTO_TARGET => 7
  | ROBOT_POSITION => 8
  | NO_GO_AREAS => 9
  | VIRTUAL_WALLS => 10
  | BLOCKS => 11
  | NO_MOPPING_AREAS => 12
  | OBSTACLES => 13
  | IGNORED_OBSTACLES => 14
  | OBSTACLES_WITH_PHOTO => 15
  | IGNORED_OBSTACLES_WITH_PHOTO => 16
  | CARPET_MAP => 17
  | MOP_PATH => 18
  | NO_CARPET_AREAS => 19
  | DIGEST => 1024
  end.

Definition all_block_types : list RoborockBlockType :=
  [CHARGER; IMAGE; PATH; GOTO_PATH; GOTO_PREDICTED_PATH;
   CURRENTLY_CLEANED_ZONES; GOTO_TARGET; ROBOT_POSITION; NO_GO_AREAS;
   VIRTUAL_WALLS; BLOCKS; NO_MOPPING_AREAS; OBSTACLES; IGNORED_OBSTACLES;
   OBSTACLES_WITH_PHOTO; IGNORED_OBSTACLES_WITH_PHOTO; CARPET_MAP; MOP_PATH;
   NO_CARPET_AREAS; DIGEST].

(** The [case] of the [match] statement selected by a block type code;
    [None] is the wildcard case. *)
Definition matching_case (block_type : Z) : option RoborockBlockType :=
  List.find (λ t, value t =? block_type) all_block_types.

Definition KNOWN_OBSTACLE_TYPES : gmap Z string :=
  list_to_map
    [(0, "cable"); (1, "pet waste"); (2, "shoes"); (3, "poop");
     (4, "pedestal"); (5, "extension cord"); (9, "weighting scale");
     (10, "clothes"); (25, "dustpan"); (26, "furniture with a crossbar");
     (27, "furniture with a crossbar"); (34, "clothes"); (48, "cable");
     (49, "pet"); (50, "pet"); (51, "fabric/paper balls")]%string.

(** *** The readers (lines 390-409) *)

Definition _get_bytes (data : list byte) (start_index size : Z) : list byte :=
  slice data start_index (start_index + size).

Definition _get_int8 (data : list byte) (address : Z) : result Z :=
  b ← getitem data address;
  mret (Z.land b 0xFF).

Definition _get_int16 (data : list byte) (address : Z) : result Z :=
  b0 ← getitem data (address + 0);
  b1 ← getitem data (address + 1);
  mret (Z.lor (Z.land (Z.shiftl b0 0) 0xFF) (Z.land (Z.shiftl b1 8) 0xFFFF)).

Definition _get_int32 (data : list byte) (address : Z) : result Z :=
  b0 ← getitem data (address + 0);
  b1 ← getitem data (address + 1);
  b2 ← getitem data (address + 2);
  b3 ← getitem data (address + 3);
  mret (Z.lor (Z.lor (Z.lor (Z.land (Z.shiftl b0 0) 0xFF)
                            (Z.land (Z.shiftl b1 8) 0xFFFF))
                     (Z.land (Z.shiftl b2 16) 0xFFFFFF))
              (Z.land (Z.shiftl b3 24) 0xFFFFFFFF)).

(** *** The block decoders *)

(** [_map_to_image]: the two coordinates of the resulting point. *)
Definition _map_to_image (p : Point) : Q * Q :=
  ((inject_Z (x p) / inject_Z 50)%Q, (inject_Z (y p) / inject_Z 50)%Q).

Definition _image_to_map (x : Z) : Z := x * 50.

(** [round(q)]: to the nearest integer, a tie goes to the even one. *)
Definition round (q : Q) : Z :=
  let f := Qfloor q in
  match (q - inject_Z f ?= 1 # 2)%Q with
  | Lt => f
  | Gt => f + 1
  | Eq => if Z.even f then f else f + 1
  end.

(** The normalisation of lines 289-290. *)
Definition normalize_angle (a : Z) : Z :=
  if 0xFF <? a then Z.land a 0xFF - 256 else a.

Definition _parse_object_position (block_data_length : Z) (data : list byte)
  : result Point :=
  x ← _get_int32 data 0x00;
  y ← _get_int32 data 0x04;
  a ← (if 8 <? block_data_length
       then a ← _get_int32 data 0x08; mret (Some (normalize_angle a))
       else mret None);
  mret {| x := x; y := y; a := a |}.

Definition _parse_goto_target (data : list byte) : result Point :=
  x ← _get_int16 data 0x00;
  y ← _get_int16 data 0x02;
  mret {| x := x; y := y; a := None |}.

Definition _parse_carpet_map (data : list byte) : gset Z :=
  foldl (λ (carpet_map : gset Z) '(i, v),
           if byte_val v =? 0 then carpet_map else carpet_map ∪ {[ i ]})
        ∅ (enumerate data).

Definition _parse_walls (data header : list byte) : result (list Wall) :=
  wall_pairs ← _get_int16 header 0x08;
  starts ← range3 0 (wall_pairs * 8) 8;
  for_each (λ wall_start walls,
      x0 ← _get_int16 data (wall_start + 0);
      y0 ← _get_int16 data (wall_start + 2);
      x1 ← _get_int16 data (wall_start + 4);
      y1 ← _get_int16 data (wall_start + 6);
      mret (walls ++ [ {| wall_x0 := x0; wall_y0 := y0; wall_x1 := x1; wall_y1 := y1 |} ]))
    starts [].

Definition _parse_zones (data header : list byte) : result (list Zone) :=
  zone_pairs ← _get_int16 header 0x08;
  starts ← range3 0 (zone_pairs * 8) 8;
  for_each (λ zone_start zones,
      x0 ← _get_int16 data (zone_start + 0);
      y0 ← _get_int16 data (zone_start + 2);
      x1 ← _get_int16 data (zone_start + 4);
      y1 ← _get_int16 data (zone_start + 6);
      mret (zones ++ [ {| zone_x0 := x0; zone_y0 := y0; zone_x1 := x1; zone_y1 := y1 |} ]))
    starts [].

Definition _parse_area (header data : list byte) : result (list Area) :=
  area_pairs ← _get_int16 header 0x08;
  starts ← range3 0 (area_pairs * 16) 16;
  for_each (λ area_start areas,
      x0 ← _get_int16 data (area_start + 0);
      y0 ← _get_int16 data (area_start + 2);
      x1 ← _get_int16 data (area_start + 4);
      y1 ← _get_int16 data (area_start + 6);
      x2 ← _get_int16 data (area_start + 8);
      y2 ← _get_int16 data (area_start + 10);
      x3 ← _get_int16 data (area_start + 12);
      y3 ← _get_int16 data (area_start + 14);
      mret (areas ++ [ {| area_x0 := x0; area_y0 := y0; area_x1 := x1; area_y1 := y1;
                          area_x2 := x2; area_y2 := y2; area_x3 := x3; area_y3 := y3 |} ]))
    starts [].

Definition _parse_path (block_start_position : Z) (header raw : list byte)
  : result Path :=
  end_pos ← _get_int32 header 0x04;
  point_length ← _get_int32 header 0x08;
  point_size ← _get_int32 header 0x0C;
  angle ← _get_int32 header 0x10;
  let start_pos := block_start_position + 0x14 in
  positions ← range3 start_pos (start_pos + end_pos) 4;
  path_points ← for_each (λ pos path_points,
      x ← _get_int16 raw pos;
      y ← _get_int16 raw (pos + 2);
      mret (path_points ++ [ {| x := x; y := y; a := None |} ]))
    positions [];
  mret {| point_length := point_length; point_size := point_size;
          angle := angle; path := [path_points] |}.

(** [txt.decode("ascii")] *)
Definition decode_ascii (txt : list byte) : result string :=
  if forallb (λ b, byte_val b <? 128) txt
  then Ok (String.string_of_list_byte txt)
  else Raise UnicodeDecodeError.

Definition ObstacleDetails_new : ObstacleDetails :=
  {| type := None; description := None; confidence_level := None; photo_name := None |}.

(** The body of the loop of [_parse_obstacles] (lines 313-327). *)
Definition obstacle_at (data : list byte) (obstacle_size obstacle_start : Z)
  : result Obstacle :=
  x ← _get_int16 data (obstacle_start + 0);
  y ← _get_int16 data (obstacle_start + 2);
  details ←
    (if 6 <=? obstacle_size then
       t ← _get_int16 data (obstacle_start + 4);
       let d := {| type := Some t; description := KNOWN_OBSTACLE_TYPES !! t;
                   confidence_level := None; photo_name := None |} in
       if 10 <=? obstacle_size then
         u1 ← _get_int16 data (obstacle_start + 6);
         u2 ← _get_int16 data (obstacle_start + 8);
         let c := if u2 =? 0 then 0%Q else (inject_Z u1 * inject_Z 10 / inject_Z u2)%Q in
         let d := {| type := type d; description := description d;
                     confidence_level := Some c; photo_name := None |} in
         if obstacle_size =? 28 then
           b ← getitem data (obstacle_start + 12);
           if 0 <? Z.land b 0xFF then
             txt ← decode_ascii (_get_bytes data (obstacle_start + 12) 16);
             mret {| type := type d; description := description d;
                     confidence_level := confidence_level d; photo_name := Some txt |}
           else mret d
         else mret d
       else mret d
     else mret ObstacleDetails_new);
  mret {| obstacle_x := x; obstacle_y := y; details := details |}.

(** [obstacle_size] (line 311): [int(len(data) / obstacle_pairs)]. *)
Definition obstacle_size (data : list byte) (obstacle_pairs : Z) : Z :=
  Z.quot (len data) obstacle_pairs.

Definition _parse_obstacles (data header : list byte) : result (list Obstacle) :=
  obstacle_pairs ← _get_int16 header 0x08;
  if obstacle_pairs =? 0 then mret []
  else
    let obstacle_size := obstacle_size data obstacle_pairs in
    starts ← range3 0 (obstacle_pairs * obstacle_size) obstacle_size;
    for_each (λ obstacle_start obstacles,
        o ← obstacle_at data obstacle_size obstacle_start;
        mret (obstacles ++ [o]))
      starts [].

(** The loop state of [_parse_mop_path]. *)
Record mop_state : Set :=
  { points_num : Z;
    mop_paths : list (list Point);
    mop_path_points : list Point }.

(** The body of the inner loop of [_parse_mop_path] (lines 363-368). *)
Definition mop_point (mask : list byte) (ip : Z * Point) (s : mop_state)
  : result mop_state :=
  let '(i, point) := ip in
  m ← getitem mask i;
  if negb (m =? 0) then
    let points := mop_path_points s ++ [point] in
    next_is_clear ←
      (if i + 1 <? len mask
       then m' ← getitem mask (i + 1); mret (m' =? 0)
       else mret false);
    if (next_is_clear : bool)
    then mret {| points_num := points_num s + len points;
                 mop_paths := mop_paths s ++ [points];
                 mop_path_points := [] |}
    else mret {| points_num := points_num s;
                 mop_paths := mop_paths s;
                 mop_path_points := points |}
  else mret s.

(** The body of the outer loop of [_parse_mop_path] (lines 361-371). *)
Definition mop_each_path (mask : list byte) (each_path : list Point)
    (s : mop_state) : result mop_state :=
  s' ← for_each (mop_point mask) (enumerate each_path)
         {| points_num := points_num s; mop_paths := mop_paths s;
            mop_path_points := [] |};
  mret {| points_num := points_num s' + len (mop_path_points s');
          mop_paths := mop_paths s' ++ [mop_path_points s'];
          mop_path_points := mop_path_points s' |}.

Definition _parse_mop_path (p : Path) (mask : list byte) : result Path :=
  s ← for_each (mop_each_path mask) (path p)
        {| points_num := 0; mop_paths := []; mop_path_points := [] |};
  mret {| point_length := points_num s; point_size := point_size p;
          angle := angle p; path := mop_paths s |}.

(** [_get_current_vacuum_room] (lines 253-265). *)
Definition _get_current_vacuum_room (block_start_position : Z)
    (raw : list byte) (vacuum_position : Point) : result (option Z) :=
  block_header_length ← _get_int16 raw (block_start_position + 0x02);
  let header := _get_bytes raw block_start_position block_header_length in
  block_data_length ← _get_int32 header 0x04;
  let block_data_start := block_start_position + block_header_length in
  let data := _get_bytes raw block_data_start block_data_length in
  image_top ← _get_int32 header (block_header_length - 16);
  image_left ← _get_int32 header (block_header_length - 12);
  image_width ← _get_int32 header (block_header_length - 4);
  let p := _map_to_image vacuum_position in
  RoborockImageParser.get_room_at_pixel data image_width
    (round (p.1 - inject_Z image_left)%Q)
    (round (p.2 - inject_Z image_top)%Q).

(** *** The stream walker: [parse] (lines 93-204) *)

Section Walker.

Context {Color : Type}.

Variable cached_colors : SupportedColor.t → Color.
Variable get_room_color : Z → Color.
Variable resize : Z * Z → Image Color → Image Color.
Variable image_config : ImageConfig.
(** [self._image_generator.create_empty_map_image()] *)
Variable create_empty_map_image : Image Color.
(** [self._image_generator.draw_map(map_data)] *)
Variable draw_map : MapData Color → MapData Color.
(** [ImageData.is_empty] *)
Variable is_empty : ImageData Color → bool.

(** [_parse_image] (lines 214-251); the palette's room colour cache is
    threaded through the call of the image parser. *)
Definition _parse_image (cache : gmap Z Color)
    (block_data_length block_header_length : Z) (data header : list byte)
    (carpet_map : option (gset Z))
  : result (ImageData Color * gmap Z Room * gmap Z Color) :=
  let image_size := block_data_length in
  image_top ← _get_int32 header (block_header_length - 16);
  image_left ← _get_int32 header (block_header_length - 12);
  image_height ← _get_int32 header (block_header_length - 8);
  image_width ← _get_int32 header (block_header_length - 4);
  '(image, rooms_raw, cache') ←
    RoborockImageParser.parse cached_colors get_room_color resize image_config
      cache data image_width image_height carpet_map;
  let image := match image with
               | Some i => i
               | None => create_empty_map_image
               end in
  let rooms : gmap Z Room :=
    map_imap (λ number (room : Z * Z * Z * Z),
        let '(r0, r1, r2, r3) := room in
        Some {| room_x0 := _image_to_map (r0 + image_left);
                room_y0 := _image_to_map (r1 + image_top);
                room_x1 := _image_to_map (r2 + image_left);
                room_y1 := _image_to_map (r3 + image_top);
                number := number |}) rooms_raw in
  mret ({| image_size := image_size; image_top := image_top;
           image_left := image_left; image_height := image_height;
           image_width := image_width; image_data := image |},
        rooms, cache').

(** The local variables of [parse] that the [while] loop updates.  The five
    [img_*] variables are assigned together (lines 119-123): [img] holds
    [(img_start, img_data_length, img_header_length, img_data, img_header)]. *)
Record walk_state : Type :=
  { map_data : MapData Color;
    block_start_position : Z;
    img : option (Z * Z * Z * list byte * list byte) }.

Definition assign (name : string) (v : attribute Color) (s : walk_state)
  : walk_state :=
  {| map_data := set_attribute name v (map_data s);
     block_start_position := block_start_position s;
     img := img s |}.

Definition attribute_path (m : MapData Color) (name : string) : option Path :=
  match attributes m !! name with
  | Some (APath p) => Some p
  | _ => None
  end.

Definition attribute_point (m : MapData Color) (name : string) : option Point :=
  match attributes m !! name with
  | Some (APoint p) => Some p
  | _ => None
  end.

Definition attribute_carpet_map (m : MapData Color) : option (gset Z) :=
  match attributes m !! "carpet_map"%string with
  | Some (ACarpetMap c) => Some c
  | _ => None
  end.

Definition attribute_image (m : MapData Color) : option (ImageData Color) :=
  match attributes m !! "image"%string with
  | Some (AImage i) => Some i
  | _ => None
  end.

Definition attribute_rooms (m : MapData Color) : option (gmap Z Room) :=
  match attributes m !! "rooms"%string with
  | Some (ARooms r) => Some r
  | _ => None
  end.

(** The [match block_type] statement (lines 115-172). *)
Definition dispatch (raw header data : list byte)
    (block_header_length block_data_length block_data_start block_type : Z)
    (s : walk_state) : result walk_state :=
  match matching_case block_type with
  | Some CHARGER =>
      p ← _parse_object_position block_data_length data;
      mret (assign "charger" (APoint p) s)
  | Some IMAGE =>
      mret {| map_data := map_data s;
              block_start_position := block_start_position s;
              img := Some (block_start_position s, block_data_length,
                           block_header_length, data, header) |}
  | Some ROBOT_POSITION =>
      p ← _parse_object_position block_data_length data;
      mret (assign "vacuum_position" (APoint p) s)
  | Some PATH =>
      p ← _parse_path (block_start_position s) header raw;
      mret (assign "path" (APath p) s)
  | Some GOTO_PATH =>
      p ← _parse_path (block_start_position s) header raw;
      mret (assign "goto_path" (APath p) s)
  | Some GOTO_PREDICTED_PATH =>
      p ← _parse_path (block_start_position s) header raw;
      mret (assign "predicted_path" (APath p) s)
  | Some CURRENTLY_CLEANED_ZONES =>
      z ← _parse_zones data header;
      mret (assign "zones" (AZones z) s)
  | Some GOTO_TARGET =>
      p ← _parse_goto_target data;
      mret (assign "goto" (APoint p) s)
  | Some DIGEST =>
      mret {| map_data := set_parameter "is_valid" 1 (map_data s);
              block_start_position := block_start_position s;
              img := img s |}
  | Some VIRTUAL_WALLS =>
      w ← _parse_walls data header;
      mret (assign "walls" (AWalls w) s)
  | Some NO_GO_AREAS =>
      ar ← _parse_area header data;
      mret (assign "no_go_areas" (AAreas ar) s)
  | Some NO_MOPPING_AREAS =>
      ar ← _parse_area header data;
      mret (assign "no_mopping_areas" (AAreas ar) s)
  | Some OBSTACLES =>
      o ← _parse_obstacles data header;
      mret (assign "obstacles" (AObstacles o) s)
  | Some IGNORED_OBSTACLES =>
      o ← _parse_obstacles data header;
      mret (assign "ignored_obstacles" (AObstacles o) s)
  | Some OBSTACLES_WITH_PHOTO =>
      o ← _parse_obstacles data header;
      mret (assign "obstacles_with_photo" (AObstacles o) s)
  | Some IGNORED_OBSTACLES_WITH_PHOTO =>
      o ← _parse_obstacles data header;
      mret (assign "ignored_obstacles_with_photo" (AObstacles o) s)
  | Some BLOCKS =>
      block_pairs ← _get_int16 header 0x08;
      mret (assign "blocks" (ABytes (_get_bytes data 0 block_pairs)) s)
  | Some MOP_PATH =>
      let points_mask := _get_bytes raw block_data_start block_data_length in
      match attribute_path (map_data s) "path" with
      | Some p =>
          mp ← _parse_mop_path p points_mask;
          mret (assign "mop_path" (APath mp) s)
      | None => mret s
      end
  | Some CARPET_MAP =>
      let data := _get_bytes raw block_data_start block_data_length in
      mret (assign "carpet_map" (ACarpetMap (_parse_carpet_map data)) s)
  | Some NO_CARPET_AREAS =>
      ar ← _parse_area header data;
      mret (assign "no_carpet_areas" (AAreas ar) s)
  | None => mret s
  end.

(** The amount added to [block_start_position] at line 174. *)
Definition block_advance (raw : list byte) (block_start_position : Z)
  : result Z :=
  block_header_length ← _get_int16 raw (block_start_position + 0x02);
  let header := _get_bytes raw block_start_position block_header_length in
  block_data_length ← _get_int32 header 0x04;
  pad ← _get_int8 header 2;
  mret (block_data_length + pad).

(** One iteration of the [while] loop (lines 108-174). *)
Definition block_step (raw : list byte) (s : walk_state) : result walk_state :=
  block_header_length ← _get_int16 raw (block_start_position s + 0x02);
  let header := _get_bytes raw (block_start_position s) block_header_length in
  block_type ← _get_int16 header 0x00;
  block_data_length ← _get_int32 header 0x04;
  let block_data_start := block_start_position s + block_header_length in
  let data := _get_bytes raw block_data_start block_data_length in
  s' ← dispatch raw header data block_header_length block_data_length
         block_data_start block_type s;
  pad ← _get_int8 header 2;
  mret {| map_data := map_data s';
          block_start_position := block_start_position s + block_data_length + pad;
          img := img s' |}.

(** The [while block_start_position < len(raw)] loop, run for at most
    [fuel] iterations; [None] means that the loop is still running after
    [fuel] iterations. *)
Fixpoint scan (fuel : nat) (raw : list byte) (s : walk_state)
  : option (result walk_state) :=
  if block_start_position s <? len raw then
    match fuel with
    | O => None
    | S fuel' =>
        match block_step raw s with
        | Ok s' => scan fuel' raw s'
        | Raise e => Some (Raise e)
        end
    end
  else Some (Ok s).

(** Lines 176-204: what [parse] does once the loop has ended. *)
Definition finish (cache : gmap Z Color) (raw : list byte) (s : walk_state)
  : result (MapData Color * gmap Z Color) :=
  '(m, cache') ←
    match img s with
    | Some (_, img_data_length, img_header_length, img_data, img_header) =>
        '(image, rooms, cache') ←
          _parse_image cache img_data_length img_header_length img_data
            img_header (attribute_carpet_map (map_data s));
        mret (set_attribute "rooms" (ARooms rooms)
                (set_attribute "image" (AImage image) (map_data s)), cache')
    | None => mret (map_data s, cache)
    end;
  match attribute_image m with
  | Some image =>
      if negb (is_empty image) then
        let m := draw_map m in
        match attribute_rooms m, attribute_point m "vacuum_position", img s with
        | Some rooms, Some vacuum_position, Some (img_start, _, _, _, _) =>
            if 0 <? Z.of_nat (base.size rooms) then
              room ← _get_current_vacuum_room img_start raw vacuum_position;
              mret (set_attribute "vacuum_room" (AVacuumRoom room) m, cache')
            else mret (m, cache')
        | _, _, _ => mret (m, cache')
        end
      else mret (m, cache')
  | None => mret (m, cache')
  end.

(** The state in which the loop is entered (lines 94-105). *)
Definition start (raw : list byte) : result walk_state :=
  map_header_length ← _get_int16 raw 0x02;
  major_version ← _get_int16 raw 0x08;
  minor_version ← _get_int16 raw 0x0A;
  map_index ← _get_int32 raw 0x0C;
  map_sequence ← _get_int32 raw 0x10;
  mret {| map_data :=
            set_parameter "map_sequence" map_sequence
              (set_parameter "map_index" map_index
                 (set_parameter "minor_version" minor_version
                    (set_parameter "major_version" major_version MapData_new)));
          block_start_position := map_header_length;
          img := None |}.

Definition parse (fuel : nat) (cache : gmap Z Color) (raw : list byte)
  : option (result (MapData Color * gmap Z Color)) :=
  match start raw with
  | Raise e => Some (Raise e)
  | Ok s0 =>
      match scan fuel raw s0 with
      | None => None
      | Some (Raise e) => Some (Raise e)
      | Some (Ok s) => Some (finish cache raw s)
      end
  end.

End Walker.

End RoborockMapDataParser.

(** ** The decision rule of the pixel classifier, as the specification
    words it *)

Module Spec.

Import RoborockImageParser.

(** "0x00 yields Outside; else 0x01 yields Wall; else 0xFF yields Inside;
    else 0x07 yields Scan; otherwise with obstacle = pixel_code & 0x07:
    0 yields GreyWall, 1 yields WallV2, 7 yields RoomFloor with
    room_id = (pixel_code & 0xFF) >> 3, any other value yields Unknown". *)
Inductive decision_rule (pixel_code : Z) : pixel_class → Prop :=
  | rule_outside :
      pixel_code = 0x00 → decision_rule pixel_code Outside
  | rule_wall :
      pixel_code = 0x01 → decision_rule pixel_code Wall
  | rule_inside :
      pixel_code = 0xFF → decision_rule pixel_code Inside
  | rule_scan :
      pixel_code = 0x07 → decision_rule pixel_code Scan
  | rule_grey_wall :
      pixel_code ∉ [0x00; 0x01; 0xFF; 0x07] →
      Z.land pixel_code 0x07 = 0 → decision_rule pixel_code GreyWall
  | rule_wall_v2 :
      pixel_code ∉ [0x00; 0x01; 0xFF; 0x07] →
      Z.land pixel_code 0x07 = 1 → decision_rule pixel_code WallV2
  | rule_room_floor :
      pixel_code ∉ [0x00; 0x01; 0xFF; 0x07] →
      Z.land pixel_code 0x07 = 7 →
      decision_rule pixel_code (RoomFloor (Z.shiftr (Z.land pixel_code 0xFF) 3))
  | rule_unknown :
      pixel_code ∉ [0x00; 0x01; 0xFF; 0x07] →
      Z.land pixel_code 0x07 ∉ [0; 1; 7] → decision_rule pixel_code Unknown.

(** The index the specification asks for: over the untrimmed layout, with
    the untrimmed width and the trim offsets. *)
Definition source_index (trim_left trim_bottom width img_x img_y : Z) : Z :=
  (img_x + trim_left) + width * (img_y + trim_bottom).

(** The box of a room after one more of its pixels. *)
Definition extend (box : option (Z * Z * Z * Z)) (p : Z * Z) : Z * Z * Z * Z :=
  match box with
  | None => (p.1, p.2, p.1, p.2)
  | Some (r0, r1, r2, r3) => (Z.min r0 p.1, Z.min r1 p.2, Z.max r2 p.1, Z.max r3 p.2)
  end.

(** The effect of the decoder on [rooms] when the room pixels it meets are,
    in order, the triples [(room_number, room_x, room_y)] of [seen]. *)
Definition accumulate (rooms : gmap Z (Z * Z * Z * Z)) (seen : list (Z * Z * Z))
  : gmap Z (Z * Z * Z * Z) :=
  foldl (λ rooms '(room_number, room_x, room_y),
           update_room rooms room_number room_x room_y) rooms seen.

(** The room pixel, if any, that the inner loop of [parse] meets at the
    output position [(img_x, img_y)]: the pixel read at [idx] when it is not
    painted as carpet and classifies as RoomFloor, with the coordinates
    [room_x], [room_y] of lines 69-70. *)
Definition room_pixel_at (raw_data : list byte) (carpet_map : option (gset Z))
    (width trim_left trim_bottom trimmed_height img_y img_x : Z)
  : list (Z * Z * Z) :=
  let i := idx trim_left trim_bottom width img_x img_y in
  match getitem raw_data i with
  | Ok pixel_type =>
      if in_carpet_map carpet_map i
         && negb ((img_x + (trimmed_height - img_y - 1)) mod 2 =? 0)
      then []
      else match pixel_category pixel_type with
           | RoomFloor room_number =>
               [(room_number, img_x + trim_left, img_y + trim_bottom)]
           | _ => []
           end
  | Raise _ => []
  end.

(** The room pixels met by the inner loop on one row, and by the two loops
    on the whole image, in the order of the traversal. *)
Definition room_pixels_of_row (raw_data : list byte) (carpet_map : option (gset Z))
    (width trim_left trim_bottom trimmed_width trimmed_height img_y : Z)
  : list (Z * Z * Z) :=
  range trimmed_width
    ≫= room_pixel_at raw_data carpet_map width trim_left trim_bottom
         trimmed_height img_y.

Definition room_pixels (raw_data : list byte) (carpet_map : option (gset Z))
    (width trim_left trim_bottom trimmed_width trimmed_height : Z)
  : list (Z * Z * Z) :=
  range trimmed_height
    ≫= room_pixels_of_row raw_data carpet_map width trim_left trim_bottom
         trimmed_width trimmed_height.

(** The room pixels met by one call of [parse]. *)
Definition seen_by_parse (image_config : ImageConfig) (raw_data : list byte)
    (width height : Z) (carpet_map : option (gset Z)) : list (Z * Z * Z) :=
  let trim_left := percent_of (left (trim image_config)) width in
  let trim_right := percent_of (right (trim image_config)) width in
  let trim_top := percent_of (top (trim image_config)) height in
  let trim_bottom := percent_of (bottom (trim image_config)) height in
  let trimmed_height := height - trim_top - trim_bottom in
  let trimmed_width := width - trim_left - trim_right in
  if (width =? 0) || (height =? 0) then []
  else room_pixels raw_data carpet_map width trim_left trim_bottom
         trimmed_width trimmed_height.

(** The effect of lines 80-86 on the room colour cache for the room pixels
    [seen]: a room that has no entry gets one. *)
Definition fill_cache {Color : Type} (get_room_color : Z → Color)
    (cache : gmap Z Color) (seen : list (Z * Z * Z)) : gmap Z Color :=
  foldl (λ cache '(room_number, _, _),
           match cache !! room_number with
           | Some _ => cache
           | None => <[room_number := get_room_color room_number]> cache
           end) cache seen.

(** The coordinates of the pixels of one room among those seen. *)
Definition pixels_of (room_number : Z) (seen : list (Z * Z * Z)) : list (Z * Z) :=
  omap (λ '(n, room_x, room_y),
          if decide (n = room_number) then Some (room_x, room_y) else None) seen.

(** "component-wise min of x and y, max of x and y over all seen pixels" *)
Definition bounding_box (pts : list (Z * Z)) : option (Z * Z * Z * Z) :=
  match pts with
  | [] => None
  | p :: rest =>
      Some (foldr Z.min p.1 rest.*1, foldr Z.min p.2 rest.*2,
            foldr Z.max p.1 rest.*1, foldr Z.max p.2 rest.*2)
  end.

(** "min_x/min_y never increase and max_x/max_y never decrease" *)
Definition encloses (new old : Z * Z * Z * Z) : Prop :=
  let '(n0, n1, n2, n3) := new in
  let '(o0, o1, o2, o3) := old in
  n0 ≤ o0 ∧ n1 ≤ o1 ∧ o2 ≤ n2 ∧ o3 ≤ n3.

(** The polyline made of a run of points, if the run has any point. *)
Definition run_if_any (run : list Point) : list (list Point) :=
  match run with
  | [] => []
  | _ :: _ => [run]
  end.

(** "the maximal contiguous runs of consecutive points whose mask byte is
    non-zero", in source order; [run] is the run that the points read so far
    have opened. *)
Fixpoint runs_from (run : list Point) (points : list Point) (mask : list byte)
  : list (list Point) :=
  match points, mask with
  | p :: points', m :: mask' =>
      if byte_val m =? 0
      then run_if_any run ++ runs_from [] points' mask'
      else runs_from (run ++ [p]) points' mask'
  | _, _ => run_if_any run
  end.

Definition maximal_runs (points : list Point) (mask : list byte)
  : list (list Point) :=
  runs_from [] points mask.

(** "the sum of the run lengths" *)
Definition total_points (runs : list (list Point)) : Z :=
  foldr (λ run n, len run + n) 0 runs.

(** The mask has a last byte and it is non-zero. *)
Definition ends_marked (mask : list byte) : bool :=
  match last mask with
  | Some m => negb (byte_val m =? 0)
  | None => false
  end.

(** The states in which the [while] loop of the walker tests its condition
    when it is entered in the state [s]: [s] itself and, as long as the
    condition holds and the iteration completes (no read and no decoder
    raises), the state that the iteration leaves.  A block after one whose
    iteration raises is not reached. *)
Inductive visits {Color : Type} (raw : list byte)
  : RoborockMapDataParser.walk_state (Color := Color)
    → RoborockMapDataParser.walk_state (Color := Color) → Prop :=
  | visits_here s : visits raw s s
  | visits_next s s1 t :
      RoborockMapDataParser.block_start_position s < len raw →
      RoborockMapDataParser.block_step raw s = Ok s1 →
      visits raw s1 t →
      visits raw s t.

End Spec.

(** ** Concrete inputs used in the examples below *)

Module Fixtures.

Import RoborockImageParser.

(** A configuration that trims 25% on the left only. *)
Definition left_trim_config : ImageConfig :=
  {| scale := 1; trim := {| left := 25; right := 0; top := 0; bottom := 0 |} |}.

(** A configuration without trimming and scaling. *)
Definition no_trim_config : ImageConfig :=
  {| scale := 1; trim := {| left := 0; right := 0; top := 0; bottom := 0 |} |}.

Definition plain_palette (c : SupportedColor.t) : Z :=
  match c with
  | SupportedColor.CARPETS => 0
  | SupportedColor.MAP_OUTSIDE => 1
  | SupportedColor.MAP_WALL => 2
  | SupportedColor.MAP_INSIDE => 3
  | SupportedColor.SCAN => 4
  | SupportedColor.GREY_WALL => 5
  | SupportedColor.MAP_WALL_V2 => 6
  | SupportedColor.UNKNOWN => 7
  end.

Definition plain_room_color (room_number : Z) : Z := 100 + room_number.

Definition no_resize (sz : Z * Z) (image : Image Z) : Image Z := image.

(** The collaborators of the walker, kept trivial. *)
Definition empty_map_image : Image Z := {| size := (0, 0); pixels := ∅ |}.

Definition draw_nothing (m : MapData Z) : MapData Z := m.

Definition is_empty_image (i : ImageData Z) : bool :=
  (image_height i =? 0) || (image_width i =? 0).

(** A 20-byte map header followed by one block of an unknown type 0 whose
    header length is 0x0100 and whose body length is 0. *)
Definition stuck_map : list byte :=
  bytes_of ([0; 0; 20; 0; 0; 0; 0; 0; 1; 0; 2; 0; 0; 0; 0; 0; 0; 0; 0; 0]
            ++ [0; 0; 0; 1; 0; 0; 0; 0]).

(** A 20-byte map header followed by one charger block: header length 8,
    body length 12, position (1, 2) and raw angle 300. *)
Definition charger_map : list byte :=
  bytes_of ([0; 0; 20; 0; 0; 0; 0; 0; 1; 0; 2; 0; 0; 0; 0; 0; 0; 0; 0; 0]
            ++ [1; 0; 8; 0; 12; 0; 0; 0]
            ++ [1; 0; 0; 0; 2; 0; 0; 0; 44; 1; 0; 0]).

(** A path of one polyline, and the point [(n, n)]. *)
Definition point (n : Z) : Point := {| x := n; y := n; a := None |}.

Definition plain_path (points : list Point) : Path :=
  {| point_length := len points; point_size := 0; angle := 0; path := [points] |}.

End Fixtures.

(** ** Auxiliary definitions for the further properties *)

Module Aux.

Import RoborockImageParser RoborockMapDataParser.

(** The pixel [(px, py)] lies in the box [(x0, y0, x1, y1)]. *)
Definition box_contains (box : Z * Z * Z * Z) (px py : Z) : Prop :=
  let '(x0, y0, x1, y1) := box in
  x0 ≤ px ≤ x1 ∧ y0 ≤ py ≤ y1.

(** The colour that the body of the inner loop of [parse] (lines 47-88)
    gives to the output pixel [(x, y)], that is to [img_x = x] and
    [img_y = trimmed_height - 1 - y], when the room colours are looked up in
    [cache]. *)
Definition pixel_color {Color : Type} (cached_colors : SupportedColor.t → Color)
    (cache : gmap Z Color) (raw_data : list byte) (carpet_map : option (gset Z))
    (width trim_left trim_bottom trimmed_height x y : Z) : option Color :=
  let i := idx trim_left trim_bottom width x (trimmed_height - 1 - y) in
  match getitem raw_data i with
  | Ok pixel_type =>
      if in_carpet_map carpet_map i && negb ((x + y) mod 2 =? 0)
      then Some (cached_colors SupportedColor.CARPETS)
      else
        match pixel_category pixel_type with
        | Outside => Some (cached_colors SupportedColor.MAP_OUTSIDE)
        | Wall => Some (cached_colors SupportedColor.MAP_WALL)
        | Inside => Some (cached_colors SupportedColor.MAP_INSIDE)
        | Scan => Some (cached_colors SupportedColor.SCAN)
        | GreyWall => Some (cached_colors SupportedColor.GREY_WALL)
        | WallV2 => Some (cached_colors SupportedColor.MAP_WALL_V2)
        | RoomFloor room_number => cache !! room_number
        | Unknown => Some (cached_colors SupportedColor.UNKNOWN)
        end
  | Raise _ => None
  end.

(** Lines 37-91 of [parse]: what the function does once the four trim
    offsets of lines 33-36 are computed.  The offsets are inputs here, so
    that a property of this part holds for the offsets as the code computes
    them, whatever their values; [scale] is the local of line 30. *)
Definition parse_with_trims {Color : Type}
    (cached_colors : SupportedColor.t → Color) (get_room_color : Z → Color)
    (resize : Z * Z → Image Color → Image Color) (scale : Q)
    (cache : gmap Z Color) (raw_data : list byte)
    (width height trim_left trim_right trim_top trim_bottom : Z)
    (carpet_map : option (gset Z))
  : result (option (Image Color) * gmap Z (Z * Z * Z * Z) * gmap Z Color) :=
  let trimmed_height := height - trim_top - trim_bottom in
  let trimmed_width := width - trim_left - trim_right in
  image ← Image_new (trimmed_width, trimmed_height);
  if (width =? 0) || (height =? 0) then mret (None, ∅, cache)
  else
    s ← for_each
          (row_body cached_colors get_room_color raw_data carpet_map width
             trim_left trim_bottom trimmed_width trimmed_height)
          (range trimmed_height)
          {| rooms := ∅; image_pixels := pixels image; cached_room_colors := cache |};
    let image := {| size := size image; pixels := image_pixels s |} in
    let image :=
      if negb (Qeq_bool scale 1) && negb (width =? 0) && negb (height =? 0)
      then resize (int_trunc (inject_Z trimmed_width * scale)%Q,
                   int_trunc (inject_Z trimmed_height * scale)%Q) image
      else image in
    mret (Some image, rooms s, cached_room_colors s).

(** The loops of [parse] reach the room update of lines 68-79 for the room
    [n] with the coordinates [(room_x, room_y)]: at some position
    [(img_x, img_y)] of the trimmed window the byte read at [idx] is a floor
    code of room [n], the pixel is not painted as carpet (the test of line
    51 comes first and fails), and [room_x], [room_y] are the values of
    lines 69-70. *)
Definition registered (raw_data : list byte) (carpet_map : option (gset Z))
    (width trim_left trim_bottom trimmed_width trimmed_height : Z)
    (n room_x room_y : Z) : Prop :=
  ∃ img_x img_y pixel_type,
    0 ≤ img_x < trimmed_width ∧ 0 ≤ img_y < trimmed_height
    ∧ getitem raw_data (idx trim_left trim_bottom width img_x img_y) = Ok pixel_type
    ∧ in_carpet_map carpet_map (idx trim_left trim_bottom width img_x img_y)
      && negb ((img_x + (trimmed_height - img_y - 1)) mod 2 =? 0) = false
    ∧ pixel_category pixel_type = RoomFloor n
    ∧ room_x = img_x + trim_left ∧ room_y = img_y + trim_bottom.

(** The values produced by a loop that appends one decoded record per
    element, or the first exception. *)
Fixpoint collect {A B : Type} (g : A → result B) (l : list A) : result (list B) :=
  match l with
  | [] => Ok []
  | a :: l' =>
      match g a with
      | Ok b =>
          match collect g l' with
          | Ok bs => Ok (b :: bs)
          | Raise e => Raise e
          end
      | Raise e => Raise e
      end
  end.

(** Every pixel written so far by the loops of [parse] has the colour
    expected with the current cache. *)
Definition painted_as_expected {Color : Type}
    (cached_colors : SupportedColor.t → Color) (raw_data : list byte)
    (carpet_map : option (gset Z))
    (width trim_left trim_bottom trimmed_height : Z)
    (s : parse_state (Color := Color)) : Prop :=
  ∀ x y c, image_pixels s !! (x, y) = Some c →
           pixel_color cached_colors (cached_room_colors s) raw_data carpet_map
             width trim_left trim_bottom trimmed_height x y = Some c.

(** The record decoded by one iteration of [_parse_walls] (lines 298-302),
    of [_parse_zones] (lines 335-339), of [_parse_area] (lines 379-387) and
    of [_parse_path] (lines 351-353). *)
Definition wall_at (data : list byte) (wall_start : Z)
  : result MapDataModel.Wall :=
  x0 ← _get_int16 data (wall_start + 0);
  y0 ← _get_int16 data (wall_start + 2);
  x1 ← _get_int16 data (wall_start + 4);
  y1 ← _get_int16 data (wall_start + 6);
  mret {| wall_x0 := x0; wall_y0 := y0; wall_x1 := x1; wall_y1 := y1 |}.

Definition zone_at (data : list byte) (zone_start : Z) : result Zone :=
  x0 ← _get_int16 data (zone_start + 0);
  y0 ← _get_int16 data (zone_start + 2);
  x1 ← _get_int16 data (zone_start + 4);
  y1 ← _get_int16 data (zone_start + 6);
  mret {| zone_x0 := x0; zone_y0 := y0; zone_x1 := x1; zone_y1 := y1 |}.

Definition area_at (data : list byte) (area_start : Z) : result Area :=
  x0 ← _get_int16 data (area_start + 0);
  y0 ← _get_int16 data (area_start + 2);
  x1 ← _get_int16 data (area_start + 4);
  y1 ← _get_int16 data (area_start + 6);
  x2 ← _get_int16 data (area_start + 8);
  y2 ← _get_int16 data (area_start + 10);
  x3 ← _get_int16 data (area_start + 12);
  y3 ← _get_int16 data (area_start + 14);
  mret {| area_x0 := x0; area_y0 := y0; area_x1 := x1; area_y1 := y1;
          area_x2 := x2; area_y2 := y2; area_x3 := x3; area_y3 := y3 |}.

Definition path_point_at (raw : list byte) (pos : Z) : result Point :=
  x ← _get_int16 raw pos;
  y ← _get_int16 raw (pos + 2);
  mret {| x := x; y := y; a := None |}.

(** The points of a polyline whose mask byte is non-zero. *)
Definition marked_points (points : list Point) (mask : list byte) : list Point :=
  (filter (λ pm : Point * byte, byte_val pm.2 ≠ 0) (zip points mask)).*1.

End Aux.

(** * Properties *)

Import RoborockImageParser RoborockMapDataParser Fixtures.

(** ** The Python primitives *)

Lemma byte_val_range (b : byte) : 0 ≤ byte_val b < 256.
Proof.
  unfold byte_val. pose proof (Byte.to_N_bounded b) as H. lia.
Qed.

Lemma len_nonneg {A : Type} (l : list A) : 0 ≤ len l.
Proof. unfold len. lia. Qed.

Lemma getitem_inside (data : list byte) (i : Z) :
  0 ≤ i < len data →
  ∃ b, data !! Z.to_nat i = Some b ∧ getitem data i = Ok (byte_val b).
Proof.
  intros Hi. unfold getitem, len in *.
  destruct (Z.ltb_spec i 0) as [?|_]; [lia|].
  destruct (Z.ltb_spec i 0) as [?|_]; [lia|].
  destruct (Z.leb_spec (Z.of_nat (length data)) i) as [?|_]; [lia|].
  simpl. destruct (lookup_lt_is_Some_2 data (Z.to_nat i)) as [b Hb]; [lia|].
  exists b. by rewrite Hb.
Qed.

Lemma getitem_wraps (data : list byte) (i : Z) :
  - len data ≤ i < 0 → getitem data i = getitem data (i + len data).
Proof.
  intros Hi. unfold getitem.
  assert ((i <? 0) = true) as E1 by lia.
  assert ((i + len data <? 0) = false) as E2 by lia.
  rewrite E1, E2. cbv beta iota zeta. by rewrite E2.
Qed.

Lemma getitem_outside (data : list byte) (i : Z) :
  i < - len data ∨ len data ≤ i → getitem data i = Raise IndexError.
Proof.
  intros Hi. unfold getitem. pose proof (len_nonneg data).
  destruct (Z.ltb_spec i 0).
  - destruct (Z.ltb_spec (i + len data) 0); [done|].
    destruct (Z.leb_spec (len data) (i + len data)); [done|lia].
  - destruct (Z.ltb_spec i 0); [lia|].
    destruct (Z.leb_spec (len data) i); [done|lia].
Qed.

Lemma getitem_Ok_inside (data : list byte) (i v : Z) :
  getitem data i = Ok v → - len data ≤ i < len data.
Proof.
  intros H.
  destruct (decide (i < - len data ∨ len data ≤ i)) as [Hout|Hin]; [|lia].
  by rewrite getitem_outside in H.
Qed.

Lemma slice_nonneg {A : Type} (data : list A) (start size : Z) :
  0 ≤ start → 0 ≤ size →
  slice data start (start + size)
  = take (Z.to_nat size) (drop (Z.to_nat start) data).
Proof.
  intros Hs Hz. unfold slice, slice_bound.
  destruct (Z.ltb_spec start 0); [lia|].
  destruct (Z.ltb_spec (start + size) 0); [lia|].
  unfold len. set (n := length data).
  destruct (Z.le_gt_cases (Z.of_nat n) start) as [Hge|Hlt].
  - rewrite !drop_ge by (fold n; lia). by rewrite !take_nil.
  - rewrite (Z.min_l start) by lia.
    destruct (Z.le_gt_cases (start + size) (Z.of_nat n)).
    + rewrite Z.min_l by lia. f_equal. lia.
    + rewrite Z.min_r by lia.
      rewrite !take_ge; [done| |]; rewrite length_drop; fold n; lia.
Qed.

Lemma get_bytes_nonneg (data : list byte) (start_index size : Z) :
  0 ≤ start_index → 0 ≤ size →
  _get_bytes data start_index size
  = take (Z.to_nat size) (drop (Z.to_nat start_index) data).
Proof. apply slice_nonneg. Qed.

Lemma len_get_bytes (data : list byte) (start_index size : Z) :
  0 ≤ start_index → 0 ≤ size →
  len (_get_bytes data start_index size)
  = Z.min size (Z.max 0 (len data - start_index)).
Proof.
  intros Hs Hz. rewrite get_bytes_nonneg by done.
  unfold len. rewrite length_take, length_drop. lia.
Qed.

Lemma bind_Ok {A B : Type} (v : A) (f : A → result B) : (Ok v ≫= f) = f v.
Proof. reflexivity. Qed.

Lemma bind_Raise {A B : Type} (e : exn) (f : A → result B) :
  (Raise e ≫= f) = Raise e.
Proof. reflexivity. Qed.

Lemma bind_Ok_inv {A B : Type} (m : result A) (f : A → result B) (w : B) :
  (m ≫= f) = Ok w → ∃ v, m = Ok v ∧ f v = Ok w.
Proof. destruct m as [v|e]; [eauto | discriminate]. Qed.

(** ** C3: the slicing primitive *)

Lemma getitem_Raise (data : list byte) (i : Z) (e : exn) :
  getitem data i = Raise e → e = IndexError.
Proof.
  unfold getitem. destruct (_ || _); [by intros [= <-]|].
  destruct (data !! _); [discriminate | by intros [= <-]].
Qed.

Lemma get_int8_outside (data : list byte) (address : Z) :
  len data ≤ address → _get_int8 data address = Raise IndexError.
Proof.
  intros H. unfold _get_int8. rewrite getitem_outside by lia. reflexivity.
Qed.

Lemma get_int16_outside (data : list byte) (address : Z) :
  0 ≤ address → len data ≤ address + 1 →
  _get_int16 data address = Raise IndexError.
Proof.
  intros Ha H. unfold _get_int16.
  destruct (getitem data (address + 0)) as [b0|e] eqn:H0;
    [|by apply getitem_Raise in H0 as ->].
  rewrite bind_Ok. rewrite getitem_outside by lia. reflexivity.
Qed.

Lemma get_int32_outside (data : list byte) (address : Z) :
  0 ≤ address → len data ≤ address + 3 →
  _get_int32 data address = Raise IndexError.
Proof.
  intros Ha H. unfold _get_int32.
  destruct (getitem data (address + 0)) as [b0|e] eqn:H0;
    [|by apply getitem_Raise in H0 as ->].
  destruct (getitem data (address + 1)) as [b1|e] eqn:H1;
    [|by apply getitem_Raise in H1 as ->].
  destruct (getitem data (address + 2)) as [b2|e] eqn:H2;
    [|by apply getitem_Raise in H2 as ->].
  rewrite !bind_Ok. rewrite getitem_outside by lia. reflexivity.
Qed.

(** C3 (as the code has it).  For a non-negative offset and length,
    [_get_bytes] never fails: it returns the [size] bytes that start at
    [start_index] when they all exist, and otherwise only those of them that
    exist; so the result has exactly [size] bytes when
    [start_index + size <= len(data)] and
    [max 0 (len(data) - start_index)] bytes when it exceeds the buffer.  The
    failure comes later and from the integer readers: a read that reaches
    past the end of the slice raises [IndexError]. *)
Theorem get_bytes_exact_or_truncated (data : list byte) (start_index size : Z) :
  0 ≤ start_index → 0 ≤ size →
  _get_bytes data start_index size
    = take (Z.to_nat size) (drop (Z.to_nat start_index) data)
  ∧ (start_index + size ≤ len data →
       len (_get_bytes data start_index size) = size)
  ∧ (len data < start_index + size →
       len (_get_bytes data start_index size) = Z.max 0 (len data - start_index))
  ∧ (∀ address,
       0 ≤ address →
       (len (_get_bytes data start_index size) ≤ address →
        _get_int8 (_get_bytes data start_index size) address = Raise IndexError)
       ∧ (len (_get_bytes data start_index size) ≤ address + 1 →
          _get_int16 (_get_bytes data start_index size) address = Raise IndexError)
       ∧ (len (_get_bytes data start_index size) ≤ address + 3 →
          _get_int32 (_get_bytes data start_index size) address = Raise IndexError)).
Proof.
  intros Hs Hz. split; [by apply get_bytes_nonneg|].
  split; [rewrite len_get_bytes by done; lia|].
  split; [rewrite len_get_bytes by done; lia|].
  intros address Ha. repeat split; intros H.
  - by apply get_int8_outside.
  - by apply get_int16_outside.
  - by apply get_int32_outside.
Qed.

Lemma get_bytes_exact_or_truncated_witness :
  _get_bytes (bytes_of [1; 2; 3; 4; 5]) 1 3 = bytes_of [2; 3; 4]
  ∧ len (_get_bytes (bytes_of [1; 2; 3; 4; 5]) 1 3) = 3.
Proof.
  destruct (get_bytes_exact_or_truncated (bytes_of [1; 2; 3; 4; 5]) 1 3)
    as (Heq & Hfit & _ & _); [lia | lia |].
  split; [exact Heq | apply Hfit; vm_compute; discriminate].
Defined.

(** C3 (as stated) fails: a slice that reaches past the end of the buffer
    is not an error, the call returns the single byte that exists instead of
    the four asked for, and a decoder applied to the short slice goes on
    with it. *)
Lemma get_bytes_silently_truncates :
  let data := bytes_of [1; 2; 3] in
  len data < 2 + 4
  ∧ _get_bytes data 2 4 = bytes_of [3]
  ∧ len (_get_bytes data 2 4) ≠ 4
  ∧ _parse_carpet_map (_get_bytes data 2 4) = {[ 0 ]}.
Proof. vm_compute. repeat split; discriminate. Qed.

(** ** C2: the pixel classifier *)

Lemma not_special_code (c : Z) :
  c ≠ 0x00 → c ≠ 0x01 → c ≠ 0xFF → c ≠ 0x07 → c ∉ [0x00; 0x01; 0xFF; 0x07].
Proof.
  intros. rewrite !not_elem_of_cons. repeat split; try done. apply not_elem_of_nil.
Qed.

Lemma special_code_inv (c : Z) :
  c ∉ [0x00; 0x01; 0xFF; 0x07] → c ≠ 0x00 ∧ c ≠ 0x01 ∧ c ≠ 0xFF ∧ c ≠ 0x07.
Proof. rewrite !not_elem_of_cons. tauto. Qed.

Lemma pixel_category_follows_rule (c : Z) :
  Spec.decision_rule c (pixel_category c).
Proof.
  unfold pixel_category, MAP_OUTSIDE, MAP_WALL, MAP_INSIDE, MAP_SCAN.
  destruct (Z.eqb_spec c 0); [by constructor|].
  destruct (Z.eqb_spec c 1); [by constructor|].
  destruct (Z.eqb_spec c 255); [by constructor|].
  destruct (Z.eqb_spec c 7); [by constructor|].
  pose proof (not_special_code c) as Hc. cbv zeta.
  destruct (Z.eqb_spec (Z.land c 7) 0); [constructor; auto|].
  destruct (Z.eqb_spec (Z.land c 7) 1); [constructor; auto|].
  destruct (Z.eqb_spec (Z.land c 7) 7); [constructor; auto|].
  apply Spec.rule_unknown; [auto|].
  rewrite !not_elem_of_cons. repeat split; try done. apply not_elem_of_nil.
Qed.

Lemma decision_rule_functional (c : Z) (k : pixel_class) :
  Spec.decision_rule c k → k = pixel_category c.
Proof.
  unfold pixel_category, MAP_OUTSIDE, MAP_WALL, MAP_INSIDE, MAP_SCAN.
  destruct 1 as [->| ->| ->| ->|Hc Ho|Hc Ho|Hc Ho|Hc Ho]; try reflexivity;
    apply special_code_inv in Hc as (? & ? & ? & ?);
    (destruct (Z.eqb_spec c 0); [done|]);
    (destruct (Z.eqb_spec c 1); [done|]);
    (destruct (Z.eqb_spec c 255); [done|]);
    (destruct (Z.eqb_spec c 7); [done|]); cbv zeta.
  1-3: by rewrite Ho.
  rewrite !not_elem_of_cons in Ho. destruct Ho as (? & ? & ? & _).
  destruct (Z.eqb_spec (Z.land c 7) 0); [done|].
  destruct (Z.eqb_spec (Z.land c 7) 1); [done|].
  destruct (Z.eqb_spec (Z.land c 7) 7); [done|]. done.
Qed.

(** C2.  For every byte, the branch taken by the [if]/[elif] chain of the
    classifier is the one the ordered decision rule names, with the room id
    [(pixel_code & 0xFF) >> 3], and no other: the rule and the code agree on
    the category and the room id of every code. *)
Theorem pixel_category_decision_rule (b : byte) (k : pixel_class) :
  pixel_category (byte_val b) = k ↔ Spec.decision_rule (byte_val b) k.
Proof.
  split.
  - intros <-. apply pixel_category_follows_rule.
  - intros H. symmetry. by apply decision_rule_functional.
Qed.

Example pixel_category_0x3F : pixel_category 0x3F = RoomFloor 7.
Proof. reflexivity. Qed.

(** ** C6: the angle of a position block *)

Lemma get_int32_Ok_len (data : list byte) (address v : Z) :
  0 ≤ address → _get_int32 data address = Ok v → address + 3 < len data.
Proof.
  intros Ha H. unfold _get_int32 in H.
  apply bind_Ok_inv in H as (b0 & _ & H).
  apply bind_Ok_inv in H as (b1 & _ & H).
  apply bind_Ok_inv in H as (b2 & _ & H).
  apply bind_Ok_inv in H as (b3 & H3 & _).
  apply getitem_Ok_inside in H3. lia.
Qed.

Lemma get_int32_inside (data : list byte) (address : Z) :
  0 ≤ address → address + 3 < len data → ∃ v, _get_int32 data address = Ok v.
Proof.
  intros Ha Hl. unfold _get_int32.
  destruct (getitem_inside data (address + 0)) as (b0 & _ & ->); [lia|].
  destruct (getitem_inside data (address + 1)) as (b1 & _ & ->); [lia|].
  destruct (getitem_inside data (address + 2)) as (b2 & _ & ->); [lia|].
  destruct (getitem_inside data (address + 3)) as (b3 & _ & ->); [lia|].
  rewrite !bind_Ok. eauto.
Qed.




(** ** C8: the room under a pixel *)

Lemma room_test_is_category (pixel_type : Z) :
  (if negb ((pixel_type =? MAP_INSIDE) || (pixel_type =? MAP_SCAN))
   then if Z.land pixel_type 0x07 =? 7
        then Some (_get_room_number pixel_type)
        else None
   else None)
  = match pixel_category pixel_type with
    | RoomFloor room_number => Some room_number
    | _ => None
    end.
Proof.
  unfold pixel_category, MAP_OUTSIDE, MAP_WALL, MAP_INSIDE, MAP_SCAN.
  destruct (Z.eqb_spec pixel_type 0) as [->|]; [reflexivity|].
  destruct (Z.eqb_spec pixel_type 1) as [->|]; [reflexivity|].
  destruct (Z.eqb_spec pixel_type 255) as [->|]; [reflexivity|].
  destruct (Z.eqb_spec pixel_type 7) as [->|]; [reflexivity|].
  cbv zeta. simpl negb. cbv iota.
  destruct (Z.eqb_spec (Z.land pixel_type 7) 7) as [->|]; [reflexivity|].
  destruct (Z.eqb_spec (Z.land pixel_type 7) 0); [reflexivity|].
  destruct (Z.eqb_spec (Z.land pixel_type 7) 1); reflexivity.
Qed.

Lemma get_room_at_pixel_category (raw_data : list byte) (width x y pixel_type : Z) :
  getitem raw_data (x + width * y) = Ok pixel_type →
  get_room_at_pixel raw_data width x y
  = Ok (match pixel_category pixel_type with
        | RoomFloor room_number => Some room_number
        | _ => None
        end).
Proof.
  intros H. unfold get_room_at_pixel. rewrite H, bind_Ok.
  rewrite <- room_test_is_category.
  destruct (negb _); [destruct (_ =? 7)|]; reflexivity.
Qed.

(** C8 (as the code has it).  [get_room_at_pixel] reads the byte at the
    linear index [x + width * y] and returns a room id exactly when that byte
    classifies as RoomFloor (then its room id), and nothing for every other
    category.  It fails only when the linear index lies outside
    [-len, len): an index in [-len, 0) is read from the end of the buffer,
    and coordinates outside the image whose linear index is inside the
    buffer read another pixel. *)
Theorem get_room_at_pixel_by_linear_index (raw_data : list byte) (width x y : Z) :
  (- len raw_data ≤ x + width * y < len raw_data →
     ∃ pixel_type,
       getitem raw_data (x + width * y) = Ok pixel_type
       ∧ (0 ≤ x + width * y →
            byte_val <$> raw_data !! Z.to_nat (x + width * y) = Some pixel_type)
       ∧ (x + width * y < 0 →
            byte_val <$> raw_data !! Z.to_nat (x + width * y + len raw_data)
            = Some pixel_type)
       ∧ get_room_at_pixel raw_data width x y
         = Ok (match pixel_category pixel_type with
               | RoomFloor room_number => Some room_number
               | _ => None
               end))
  ∧ (x + width * y < - len raw_data ∨ len raw_data ≤ x + width * y →
       get_room_at_pixel raw_data width x y = Raise IndexError).
Proof.
  split.
  - intros Hi. set (i := x + width * y) in *.
    destruct (Z.lt_ge_cases i 0) as [Hneg|Hpos].
    + destruct (getitem_inside raw_data (i + len raw_data)) as (b & Hb & Hg); [lia|].
      rewrite <- getitem_wraps in Hg by lia.
      exists (byte_val b). repeat split; [done | lia | by rewrite Hb |].
      by apply get_room_at_pixel_category.
    + destruct (getitem_inside raw_data i) as (b & Hb & Hg); [lia|].
      exists (byte_val b). repeat split; [done | by rewrite Hb | lia |].
      by apply get_room_at_pixel_category.
  - intros Ho. unfold get_room_at_pixel. by rewrite getitem_outside.
Qed.

Lemma get_room_at_pixel_by_linear_index_witness :
  get_room_at_pixel (bytes_of [255; 255; 255; 31]) 2 1 1 = Ok (Some 3)
  ∧ get_room_at_pixel (bytes_of [255; 255; 255; 31]) 2 0 2 = Raise IndexError.
Proof.
  destruct (get_room_at_pixel_by_linear_index (bytes_of [255; 255; 255; 31]) 2 1 1)
    as [Hin _].
  destruct (get_room_at_pixel_by_linear_index (bytes_of [255; 255; 255; 31]) 2 0 2)
    as [_ Hout].
  split.
  - destruct Hin as (p & Hp & _ & _ & Hr);
      [vm_compute; split; [discriminate | reflexivity]|].
    vm_compute in Hp. injection Hp as <-. exact Hr.
  - apply Hout. right. vm_compute. discriminate.
Defined.

(** C8 (as stated) fails: on a 2x2 image whose only room pixel is the last
    one, the out-of-range coordinates (-1, 0) and (3, 0) do not fail; each
    returns the room of the pixel stored at (1, 1). *)
Lemma get_room_at_pixel_wraps :
  let raw_data := bytes_of [255; 255; 255; 31] in
  get_room_at_pixel raw_data 2 (-1) 0 = Ok (Some 3)
  ∧ get_room_at_pixel raw_data 2 3 0 = Ok (Some 3)
  ∧ get_room_at_pixel raw_data 2 1 1 = Ok (Some 3).
Proof. vm_compute. repeat split. Qed.

(** ** C1: the source index of an output pixel *)

Lemma idx_unfold (trim_left trim_bottom width img_x img_y : Z) :
  idx trim_left trim_bottom width img_x img_y
  = img_x + (trim_left + width) * (img_y + trim_bottom).
Proof. reflexivity. Qed.

(** The index of the code and the index of the specification differ by
    [trim_left * (img_y + trim_bottom - 1)]. *)
Lemma idx_source_index (trim_left trim_bottom width img_x img_y : Z) :
  idx trim_left trim_bottom width img_x img_y
  = Spec.source_index trim_left trim_bottom width img_x img_y
    + trim_left * (img_y + trim_bottom - 1).
Proof. rewrite idx_unfold. unfold Spec.source_index. lia. Qed.

Lemma idx_without_left_trim (trim_bottom width img_x img_y : Z) :
  idx 0 trim_bottom width img_x img_y
  = Spec.source_index 0 trim_bottom width img_x img_y.
Proof. rewrite idx_source_index. lia. Qed.

Lemma idx_differs (trim_left trim_bottom width img_x img_y : Z) :
  trim_left ≠ 0 → img_y + trim_bottom ≠ 1 →
  idx trim_left trim_bottom width img_x img_y
  ≠ Spec.source_index trim_left trim_bottom width img_x img_y.
Proof. intros Ht Hy. rewrite idx_source_index. nia. Qed.

(** C1 (the code at the failing input).  With a left trim of one pixel the
    code reads the first output pixel at source index 0, where the index over
    the untrimmed layout is 1, and it reads the last row past the end of the
    4x4 buffer, so [parse] raises [IndexError] on this well-formed image. *)
Theorem parse_index_with_left_trim :
  percent_of 25 4 = 1
  ∧ idx 1 0 4 0 0 = 0
  ∧ Spec.source_index 1 0 4 0 0 = 1
  ∧ idx 1 0 4 1 3 = 16
  ∧ Spec.source_index 1 0 4 1 3 = 14
  ∧ RoborockImageParser.parse plain_palette plain_room_color no_resize
      left_trim_config ∅ (bytes_of (replicate 16 255)) 4 4 None
    = Raise IndexError.
Proof. vm_compute. repeat split. Qed.

(** ** C10: the bounding boxes of the rooms *)

Section BoundingBoxes.

Implicit Types (rooms : gmap Z (Z * Z * Z * Z)) (seen : list (Z * Z * Z)).

Lemma update_room_insert rooms n px py :
  update_room rooms n px py = <[n := Spec.extend (rooms !! n) (px, py)]> rooms.
Proof.
  unfold update_room, Spec.extend. destruct (rooms !! n) as [[[[r0 r1] r2] r3]|]; reflexivity.
Qed.

Lemma lookup_update_room rooms n m px py :
  update_room rooms n px py !! m
  = if decide (n = m) then Some (Spec.extend (rooms !! m) (px, py)) else rooms !! m.
Proof.
  rewrite update_room_insert, lookup_insert.
  destruct (decide (n = m)) as [->|]; reflexivity.
Qed.

Lemma update_room_comm rooms n1 x1 y1 n2 x2 y2 :
  update_room (update_room rooms n1 x1 y1) n2 x2 y2
  = update_room (update_room rooms n2 x2 y2) n1 x1 y1.
Proof.
  apply map_eq. intros m. rewrite !lookup_update_room.
  destruct (decide (n1 = m)), (decide (n2 = m)); try reflexivity.
  f_equal. unfold Spec.extend. simpl.
  destruct (rooms !! m) as [[[[r0 r1] r2] r3]|]; simpl;
    repeat match goal with |- (_, _) = (_, _) => f_equal end; lia.
Qed.

Lemma accumulate_cons rooms n px py seen :
  Spec.accumulate rooms ((n, px, py) :: seen)
  = Spec.accumulate (update_room rooms n px py) seen.
Proof. reflexivity. Qed.

Lemma accumulate_app rooms seen1 seen2 :
  Spec.accumulate rooms (seen1 ++ seen2)
  = Spec.accumulate (Spec.accumulate rooms seen1) seen2.
Proof. unfold Spec.accumulate. apply foldl_app. Qed.

Lemma accumulate_permutation rooms seen seen' :
  seen ≡ₚ seen' → Spec.accumulate rooms seen = Spec.accumulate rooms seen'.
Proof.
  intros Hp. revert rooms.
  induction Hp as [|[[n px] py] l l' _ IH|[[n1 x1] y1] [[n2 x2] y2] l|l1 l2 l3 _ IH1 _ IH2];
    intros rooms.
  - reflexivity.
  - rewrite !accumulate_cons. apply IH.
  - rewrite !accumulate_cons. by rewrite update_room_comm.
  - by rewrite IH1.
Qed.

Lemma foldr_min_init (r p : Z) (l : list Z) :
  foldr Z.min (Z.min r p) l = Z.min p (foldr Z.min r l).
Proof. induction l as [|q l IH]; simpl; [lia | rewrite IH; lia]. Qed.

Lemma foldr_max_init (r p : Z) (l : list Z) :
  foldr Z.max (Z.max r p) l = Z.max p (foldr Z.max r l).
Proof. induction l as [|q l IH]; simpl; [lia | rewrite IH; lia]. Qed.

Lemma extend_fold (r0 r1 r2 r3 : Z) (pts : list (Z * Z)) :
  foldl (λ box p, Some (Spec.extend box p)) (Some (r0, r1, r2, r3)) pts
  = Some (foldr Z.min r0 pts.*1, foldr Z.min r1 pts.*2,
          foldr Z.max r2 pts.*1, foldr Z.max r3 pts.*2).
Proof.
  revert r0 r1 r2 r3. induction pts as [|[px py] pts IH]; intros; [reflexivity|].
  simpl. rewrite IH. simpl.
  by rewrite !foldr_min_init, !foldr_max_init.
Qed.

Lemma accumulate_lookup rooms seen n :
  Spec.accumulate rooms seen !! n
  = foldl (λ box p, Some (Spec.extend box p)) (rooms !! n) (Spec.pixels_of n seen).
Proof.
  revert rooms. induction seen as [|[[m px] py] seen IH]; intros rooms; [reflexivity|].
  rewrite accumulate_cons, IH, lookup_update_room. simpl.
  destruct (decide (m = n)) as [->|]; reflexivity.
Qed.

Lemma accumulate_bounding_box seen n :
  Spec.accumulate ∅ seen !! n = Spec.bounding_box (Spec.pixels_of n seen).
Proof.
  rewrite accumulate_lookup, lookup_empty.
  destruct (Spec.pixels_of n seen) as [|[px py] pts]; [reflexivity|].
  simpl. apply extend_fold.
Qed.

Lemma update_room_encloses rooms n m px py box :
  rooms !! n = Some box →
  ∃ box', update_room rooms m px py !! n = Some box' ∧ Spec.encloses box' box.
Proof.
  intros Hbox. rewrite lookup_update_room, Hbox.
  destruct box as [[[r0 r1] r2] r3].
  destruct (decide (m = n)); eexists; (split; [reflexivity|]); simpl; lia.
Qed.

End BoundingBoxes.

(** C10.  The accumulation of the room boxes does not depend on the order in
    which the room pixels are met: two orders of the same pixels give the
    same boxes, the box of a room is the component-wise minimum and maximum
    of the coordinates of its pixels, and one more pixel leaves the minima of
    every room no larger and the maxima no smaller. *)
Theorem rooms_accumulation_order_independent
    (rooms : gmap Z (Z * Z * Z * Z)) (seen seen' : list (Z * Z * Z)) :
  seen ≡ₚ seen' →
  Spec.accumulate rooms seen = Spec.accumulate rooms seen'
  ∧ (∀ n, Spec.accumulate ∅ seen !! n = Spec.bounding_box (Spec.pixels_of n seen)
          ∧ Spec.accumulate ∅ seen' !! n = Spec.bounding_box (Spec.pixels_of n seen))
  ∧ (∀ n box m px py,
       Spec.accumulate rooms seen !! n = Some box →
       ∃ box', Spec.accumulate rooms (seen ++ [(m, px, py)]) !! n = Some box'
               ∧ Spec.encloses box' box).
Proof.
  intros Hp. split; [by apply accumulate_permutation|]. split.
  - intros n. rewrite <- (accumulate_permutation ∅ seen seen' Hp).
    split; apply accumulate_bounding_box.
  - intros n box m px py Hbox. rewrite accumulate_app. simpl.
    by apply update_room_encloses.
Qed.

Lemma rooms_accumulation_order_independent_witness :
  Spec.accumulate ∅ [(3, 5, 9); (3, 2, 11); (4, 0, 0)]
  = Spec.accumulate ∅ [(4, 0, 0); (3, 2, 11); (3, 5, 9)]
  ∧ Spec.accumulate ∅ [(4, 0, 0); (3, 2, 11); (3, 5, 9)] !! 3 = Some (2, 9, 5, 11).
Proof.
  destruct (rooms_accumulation_order_independent ∅
              [(3, 5, 9); (3, 2, 11); (4, 0, 0)] [(4, 0, 0); (3, 2, 11); (3, 5, 9)])
    as (Heq & Hbox & _).
  - etransitivity; [apply Permutation_swap|].
    etransitivity; [apply perm_skip, Permutation_swap|].
    apply Permutation_swap.
  - split; [exact Heq|]. destruct (Hbox 3) as [_ H3]. exact H3.
Defined.

(** ** Loops *)

Lemma for_each_cons {A S : Type} (body : A → S → result S) (a : A) (l : list A)
    (s s' : S) :
  for_each body (a :: l) s = Ok s' ↔
  ∃ s1, body a s = Ok s1 ∧ for_each body l s1 = Ok s'.
Proof.
  simpl. destruct (body a s) as [s1|e].
  - split; [eauto|]. by intros (? & [= <-] & ?).
  - split; [discriminate|]. by intros (? & ? & _).
Qed.

Lemma for_each_step {A S : Type} (body : A → S → result S) (a : A) (l : list A)
    (s s1 : S) :
  body a s = Ok s1 → for_each body (a :: l) s = for_each body l s1.
Proof. intros H. simpl. by rewrite H. Qed.

Lemma for_each_invariant {A S : Type} (I : S → list A → Prop)
    (body : A → S → result S) (done l : list A) (s s' : S) :
  (∀ a done s s', I s done → body a s = Ok s' → I s' (done ++ [a])) →
  I s done → for_each body l s = Ok s' → I s' (done ++ l).
Proof.
  intros Hstep. revert done s.
  induction l as [|a l IH]; intros done s HI H.
  - injection H as <-. by rewrite app_nil_r.
  - apply for_each_cons in H as (s1 & H1 & H).
    replace (done ++ a :: l) with ((done ++ [a]) ++ l) by by rewrite <- app_assoc.
    eapply IH; [|exact H]. eauto.
Qed.

Lemma for_each_succeeds {A S : Type} (body : A → S → result S) (l : list A)
    (s s' t : S) :
  (∀ a s s' t, body a s = Ok s' → ∃ t', body a t = Ok t') →
  for_each body l s = Ok s' → ∃ t', for_each body l t = Ok t'.
Proof.
  intros Hbody. revert s t.
  induction l as [|a l IH]; intros s t H; [by eexists|].
  apply for_each_cons in H as (s1 & H1 & H).
  destruct (Hbody a s s1 t H1) as (t1 & Ht1).
  destruct (IH s1 t1 H) as (t' & Ht').
  exists t'. apply for_each_cons. eauto.
Qed.

(** ** The image decoder: what [parse] does to [rooms] and to the cache *)

Section Decoder.

Context {Color : Type}.
Variable cached_colors : SupportedColor.t → Color.
Variable get_room_color : Z → Color.
Variable resize : Z * Z → Image Color → Image Color.
Variable image_config : ImageConfig.

Abbreviation pixel_body := (pixel_body cached_colors get_room_color).
Abbreviation row_body := (row_body cached_colors get_room_color).
Abbreviation parse := (RoborockImageParser.parse cached_colors get_room_color resize image_config).
Abbreviation fill_cache := (Spec.fill_cache get_room_color).

Lemma fill_cache_app (cache : gmap Z Color) (seen1 seen2 : list (Z * Z * Z)) :
  fill_cache cache (seen1 ++ seen2) = fill_cache (fill_cache cache seen1) seen2.
Proof. unfold Spec.fill_cache. apply foldl_app. Qed.

Lemma pixel_body_effect raw_data carpet_map width trim_left trim_bottom
    trimmed_height img_y img_x (s s' : parse_state) :
  pixel_body raw_data carpet_map width trim_left trim_bottom trimmed_height
    img_y img_x s = Ok s' →
  let seen := Spec.room_pixel_at raw_data carpet_map width trim_left trim_bottom
                trimmed_height img_y img_x in
  rooms s' = Spec.accumulate (rooms s) seen
  ∧ cached_room_colors s' = fill_cache (cached_room_colors s) seen.
Proof.
  unfold RoborockImageParser.pixel_body, Spec.room_pixel_at.
  destruct (getitem raw_data _) as [pixel_type|e]; [|discriminate].
  rewrite bind_Ok. cbv zeta.
  destruct (in_carpet_map _ _ && _).
  { intros [= <-]. by split. }
  destruct (pixel_category pixel_type) as [| | | | | |room_number|];
    intros [= <-]; try by split.
  unfold room_pixel, set_pixel. simpl.
  destruct (cached_room_colors s !! room_number); by split.
Qed.

Lemma pixel_body_succeeds raw_data carpet_map width trim_left trim_bottom
    trimmed_height img_y img_x (s s' t : parse_state) :
  pixel_body raw_data carpet_map width trim_left trim_bottom trimmed_height
    img_y img_x s = Ok s' →
  ∃ t', pixel_body raw_data carpet_map width trim_left trim_bottom
          trimmed_height img_y img_x t = Ok t'.
Proof.
  unfold RoborockImageParser.pixel_body.
  destruct (getitem raw_data _) as [pixel_type|e]; [|discriminate].
  rewrite !bind_Ok. cbv zeta. intros _.
  destruct (in_carpet_map _ _ && _); [by eexists|].
  destruct (pixel_category pixel_type); by eexists.
Qed.

Lemma loop_effect {A : Type} (body : A → parse_state → result parse_state)
    (f : A → list (Z * Z * Z)) (l : list A) (s s' : parse_state) :
  (∀ a s s', body a s = Ok s' →
     rooms s' = Spec.accumulate (rooms s) (f a)
     ∧ cached_room_colors s' = fill_cache (cached_room_colors s) (f a)) →
  for_each body l s = Ok s' →
  rooms s' = Spec.accumulate (rooms s) (l ≫= f)
  ∧ cached_room_colors s' = fill_cache (cached_room_colors s) (l ≫= f).
Proof.
  intros Hbody. revert s.
  induction l as [|a l IH]; intros s H.
  - injection H as <-. by split.
  - apply for_each_cons in H as (s1 & H1 & H).
    destruct (Hbody a s s1 H1) as [Hr Hc], (IH s1 H) as [Hr' Hc'].
    rewrite bind_cons, accumulate_app, fill_cache_app.
    by rewrite <- Hr, <- Hc.
Qed.

Lemma row_body_effect raw_data carpet_map width trim_left trim_bottom
    trimmed_width trimmed_height img_y (s s' : parse_state) :
  row_body raw_data carpet_map width trim_left trim_bottom trimmed_width
    trimmed_height img_y s = Ok s' →
  let seen := Spec.room_pixels_of_row raw_data carpet_map width trim_left
                trim_bottom trimmed_width trimmed_height img_y in
  rooms s' = Spec.accumulate (rooms s) seen
  ∧ cached_room_colors s' = fill_cache (cached_room_colors s) seen.
Proof.
  unfold RoborockImageParser.row_body. apply loop_effect.
  intros img_x t t'. apply pixel_body_effect.
Qed.

Lemma row_body_succeeds raw_data carpet_map width trim_left trim_bottom
    trimmed_width trimmed_height img_y (s s' t : parse_state) :
  row_body raw_data carpet_map width trim_left trim_bottom trimmed_width
    trimmed_height img_y s = Ok s' →
  ∃ t', row_body raw_data carpet_map width trim_left trim_bottom trimmed_width
          trimmed_height img_y t = Ok t'.
Proof.
  unfold RoborockImageParser.row_body. apply for_each_succeeds.
  intros img_x u u' v. apply pixel_body_succeeds.
Qed.

(** [parse] returns the boxes accumulated from the empty mapping over the
    room pixels it met, and leaves the cache filled for the same pixels. *)
Lemma parse_effect (cache : gmap Z Color) raw_data width height carpet_map
    image rooms' cache' :
  parse cache raw_data width height carpet_map = Ok (image, rooms', cache') →
  let seen := Spec.seen_by_parse image_config raw_data width height carpet_map in
  rooms' = Spec.accumulate ∅ seen ∧ cache' = fill_cache cache seen.
Proof.
  unfold RoborockImageParser.parse, Spec.seen_by_parse. cbv zeta.
  destruct (Image_new _) as [img|e]; [|discriminate]. rewrite bind_Ok.
  destruct ((width =? 0) || (height =? 0)).
  { intros [= <- <- <-]. by split. }
  intros H. apply bind_Ok_inv in H as (s & Hloop & [= <- <- <-]).
  eapply loop_effect in Hloop; [exact Hloop|].
  intros img_y t t'. apply row_body_effect.
Qed.

(** Whether [parse] returns does not depend on the cache it starts from. *)
Lemma parse_succeeds (cache cache2 : gmap Z Color) raw_data width height
    carpet_map r :
  parse cache raw_data width height carpet_map = Ok r →
  ∃ r2, parse cache2 raw_data width height carpet_map = Ok r2.
Proof.
  unfold RoborockImageParser.parse. cbv zeta.
  destruct (Image_new _) as [img|e]; [|discriminate]. rewrite !bind_Ok.
  destruct ((width =? 0) || (height =? 0)); [by eexists|].
  intros H. apply bind_Ok_inv in H as (s & Hloop & _).
  eapply for_each_succeeds in Hloop as (t' & ->).
  - rewrite bind_Ok. by eexists.
  - intros img_y u u' v. apply row_body_succeeds.
Qed.

Lemma fill_cache_cons (cache : gmap Z Color) (m px py : Z)
    (seen : list (Z * Z * Z)) :
  fill_cache cache ((m, px, py) :: seen)
  = fill_cache (match cache !! m with
                | Some _ => cache
                | None => <[m := get_room_color m]> cache
                end) seen.
Proof. reflexivity. Qed.

Lemma fill_cache_lookup (cache : gmap Z Color) (seen : list (Z * Z * Z)) (n : Z) :
  fill_cache cache seen !! n
  = match cache !! n with
    | Some c => Some c
    | None => match Spec.pixels_of n seen with
              | [] => None
              | _ :: _ => Some (get_room_color n)
              end
    end.
Proof.
  revert cache. induction seen as [|[[m px] py] seen IH]; intros cache.
  - simpl. by destruct (cache !! n).
  - rewrite fill_cache_cons, IH. simpl.
    destruct (decide (m = n)) as [->|Hne].
    + destruct (cache !! n) as [c|] eqn:Hc; [by rewrite Hc|].
      by rewrite lookup_insert_eq.
    + destruct (cache !! m) eqn:Hm; [done|]. by rewrite lookup_insert_ne.
Qed.

Lemma accumulate_lookup_fmap (seen : list (Z * Z * Z)) (n : Z) :
  (λ _, get_room_color n) <$> Spec.accumulate ∅ seen !! n
  = match Spec.pixels_of n seen with
    | [] => None
    | _ :: _ => Some (get_room_color n)
    end.
Proof.
  rewrite accumulate_bounding_box. by destruct (Spec.pixels_of n seen).
Qed.

(** C7 (as the code has it).  The bounding-box accumulator is scoped to the
    call: the room mapping that [parse] returns is built from the empty
    mapping and is the same whatever cache the call starts from.  The room
    colour cache is not: it is the cache of the palette, which every call on
    the parser shares; a call keeps each entry it finds and adds the colour
    of each room it returns that had none, and the next call starts from the
    cache so extended. *)
Theorem parse_rooms_scoped_cache_shared (cache : gmap Z Color) raw_data width
    height carpet_map image rooms' cache' :
  parse cache raw_data width height carpet_map = Ok (image, rooms', cache') →
  (∀ n, cache' !! n = match cache !! n with
                      | Some c => Some c
                      | None => (λ _, get_room_color n) <$> rooms' !! n
                      end)
  ∧ (∀ cache2, ∃ image2 cache2',
       parse cache2 raw_data width height carpet_map
       = Ok (image2, rooms', cache2')).
Proof.
  intros H. pose proof (parse_effect _ _ _ _ _ _ _ _ H) as [Hr Hc]. split.
  - intros n. rewrite Hc, Hr, fill_cache_lookup, accumulate_lookup_fmap. done.
  - intros cache2.
    destruct (parse_succeeds cache cache2 _ _ _ _ _ H) as ([[image2 rooms2] cache2'] & H2).
    exists image2, cache2'. rewrite H2.
    pose proof (parse_effect _ _ _ _ _ _ _ _ H2) as [Hr2 _]. by rewrite Hr, Hr2.
Qed.

End Decoder.

Lemma parse_rooms_scoped_cache_shared_witness :
  ∃ image rooms' cache',
    RoborockImageParser.parse plain_palette plain_room_color no_resize
      no_trim_config ∅ (bytes_of [0xA7]) 1 1 None = Ok (image, rooms', cache')
    ∧ cache' !! 20 = Some (plain_room_color 20).
Proof.
  edestruct (parse_rooms_scoped_cache_shared plain_palette plain_room_color
               no_resize no_trim_config ∅ (bytes_of [0xA7]) 1 1 None)
    as [Hcache _]; [vm_compute; reflexivity|].
  eexists _, _, _. split; [vm_compute; reflexivity|]. exact (Hcache 20).
Defined.

(** C7 (as stated) fails: a call that paints room 20 with an empty cache
    leaves the colour of room 20 in the cache, and the next call on the same
    parser starts from that cache and finds the entry. *)
Lemma parse_cache_write_outlives_the_call :
  ∃ image rooms' cache',
    RoborockImageParser.parse plain_palette plain_room_color no_resize
      no_trim_config ∅ (bytes_of [0xA7]) 1 1 None = Ok (image, rooms', cache')
    ∧ (∅ : gmap Z Z) !! 20 = None
    ∧ cache' !! 20 = Some 120
    ∧ cache' ≠ ∅
    ∧ RoborockImageParser.parse plain_palette plain_room_color no_resize
        no_trim_config cache' (bytes_of [0xA7]) 1 1 None
      = Ok (image, rooms', cache').
Proof.
  eexists _, _, _. split; [vm_compute; reflexivity|].
  split; [reflexivity|]. split; [vm_compute; reflexivity|].
  split; [|vm_compute; reflexivity].
  intros H. apply (f_equal (λ m : gmap Z Z, m !! 20)) in H.
  vm_compute in H. discriminate.
Qed.

(** ** C9: the scanning loop of the walker *)

Lemma get_int8_nonneg (data : list byte) (address v : Z) :
  _get_int8 data address = Ok v → 0 ≤ v.
Proof.
  unfold _get_int8. intros H. apply bind_Ok_inv in H as (b & _ & [= <-]).
  apply Z.land_nonneg. lia.
Qed.

Lemma get_int16_nonneg (data : list byte) (address v : Z) :
  _get_int16 data address = Ok v → 0 ≤ v.
Proof.
  unfold _get_int16. intros H.
  apply bind_Ok_inv in H as (b0 & _ & H).
  apply bind_Ok_inv in H as (b1 & _ & [= <-]).
  rewrite Z.lor_nonneg, !Z.land_nonneg. lia.
Qed.

Lemma get_int32_nonneg (data : list byte) (address v : Z) :
  _get_int32 data address = Ok v → 0 ≤ v.
Proof.
  unfold _get_int32. intros H.
  apply bind_Ok_inv in H as (b0 & _ & H).
  apply bind_Ok_inv in H as (b1 & _ & H).
  apply bind_Ok_inv in H as (b2 & _ & H).
  apply bind_Ok_inv in H as (b3 & _ & [= <-]).
  rewrite !Z.lor_nonneg, !Z.land_nonneg. lia.
Qed.

Ltac bind_inv H :=
  repeat match type of H with
         | (_ ≫= _) = Ok _ =>
             let v := fresh "v" in
             let Hv := fresh "Hv" in
             apply bind_Ok_inv in H as (v & Hv & H)
         end.

Section WalkerFacts.

Context {Color : Type}.

Lemma dispatch_position (raw header data : list byte)
    (block_header_length block_data_length block_data_start block_type : Z)
    (s s' : walk_state (Color := Color)) :
  dispatch raw header data block_header_length block_data_length
    block_data_start block_type s = Ok s' →
  block_start_position s' = block_start_position s.
Proof.
  unfold dispatch. intros H.
  destruct (matching_case block_type) as [[]|];
    try (bind_inv H; injection H as <-; reflexivity).
  destruct (attribute_path _ _);
    bind_inv H; injection H as <-; reflexivity.
Qed.

Lemma block_step_advance (raw : list byte) (s s' : walk_state (Color := Color)) :
  block_step raw s = Ok s' →
  ∃ adv, block_advance raw (block_start_position s) = Ok adv
         ∧ 0 ≤ adv
         ∧ block_start_position s' = block_start_position s + adv.
Proof.
  unfold block_step, block_advance. intros H.
  apply bind_Ok_inv in H as (hl & -> & H). rewrite bind_Ok.
  apply bind_Ok_inv in H as (bt & _ & H).
  apply bind_Ok_inv in H as (dl & Hdl & H). rewrite Hdl, bind_Ok.
  apply bind_Ok_inv in H as (s1 & _ & H).
  apply bind_Ok_inv in H as (pad & Hpad & [= <-]). rewrite Hpad, bind_Ok.
  exists (dl + pad). split; [done|]. simpl.
  apply get_int32_nonneg in Hdl. apply get_int8_nonneg in Hpad. lia.
Qed.

Lemma scan_ends_within (raw : list byte) (n : nat) (s : walk_state (Color := Color)) :
  len raw - block_start_position s ≤ Z.of_nat n →
  (∀ t adv, Spec.visits raw s t → block_start_position t < len raw →
            block_advance raw (block_start_position t) = Ok adv → 0 < adv) →
  ∃ r, scan n raw s = Some r
       ∧ ∀ s', r = Ok s' → len raw ≤ block_start_position s'.
Proof.
  revert s. induction n as [|n IH]; intros s Hn Hadv.
  - simpl. destruct (Z.ltb_spec (block_start_position s) (len raw)) as [|Hge];
      [lia|].
    eexists. split; [done|]. by intros s' [= <-].
  - simpl. destruct (Z.ltb_spec (block_start_position s) (len raw)) as [Hlt|Hge];
      [|eexists; split; [done|]; by intros s' [= <-]].
    destruct (block_step raw s) as [s'|e] eqn:Hstep;
      [|eexists; split; [done|]; by intros s' [=]].
    destruct (block_step_advance raw s s' Hstep) as (adv & Ha & _ & Hpos).
    pose proof (Hadv _ _ (Spec.visits_here raw _) Hlt Ha) as Hgt.
    apply IH; [lia|].
    intros t adv' Hv. apply Hadv. by eapply Spec.visits_next.
Qed.

Lemma scan_stuck (raw : list byte) (s : walk_state (Color := Color)) (fuel : nat) :
  block_start_position s < len raw →
  block_step raw s = Ok s →
  scan fuel raw s = None.
Proof.
  intros Hlt Hstep. induction fuel as [|fuel IH]; simpl;
    assert ((block_start_position s <? len raw) = true) as -> by lia; [done|].
  by rewrite Hstep.
Qed.

(** C9 (as the code has it).  An iteration of the scanning loop that
    completes moves the position forward by the body length plus the byte at
    offset 2 of the header, which is never negative.  When that amount is
    positive for every block the loop reaches (the blocks at which an
    iteration starts, every earlier iteration having completed), the loop
    ends within [len(raw) - position] iterations, with the exception of a
    read or of a decoder or at [position >= len(raw)], and every iteration
    that completes strictly advances the position.  Whatever the buffer, an
    iteration never moves the position backwards. *)
Theorem scan_terminates_when_blocks_advance (raw : list byte)
    (s : walk_state (Color := Color)) :
  (∀ t adv, Spec.visits raw s t → block_start_position t < len raw →
            block_advance raw (block_start_position t) = Ok adv → 0 < adv) →
  (∃ r, scan (Z.to_nat (len raw - block_start_position s)) raw s = Some r
        ∧ ∀ s', r = Ok s' → len raw ≤ block_start_position s')
  ∧ (∀ t t' : walk_state (Color := Color),
       Spec.visits raw s t → block_start_position t < len raw →
       block_step raw t = Ok t' →
       block_start_position t < block_start_position t')
  ∧ (∀ t t' : walk_state (Color := Color),
       block_step raw t = Ok t' →
       block_start_position t ≤ block_start_position t').
Proof.
  intros Hadv. split; [|split].
  - apply scan_ends_within; [lia | exact Hadv].
  - intros t t' Hv Hlt Hstep.
    destruct (block_step_advance raw t t' Hstep) as (adv & Ha & _ & ->).
    pose proof (Hadv t adv Hv Hlt Ha). lia.
  - intros t t' Hstep.
    destruct (block_step_advance raw t t' Hstep) as (adv & _ & ? & ->). lia.
Qed.

End WalkerFacts.

Lemma scan_terminates_when_blocks_advance_witness :
  (∃ (s0 : walk_state (Color := Z)) r,
     start charger_map = Ok s0
     ∧ scan (Z.to_nat (len charger_map - block_start_position s0)) charger_map s0
       = Some r)
  ∧ (let raw := bytes_of ([0; 0; 20; 0; 0; 0; 0; 0; 1; 0; 2; 0;
                           0; 0; 0; 0; 0; 0; 0; 0]
                          ++ [1; 0; 8; 0; 4; 0; 0; 0] ++ [1; 0; 0; 0]
                          ++ [0; 0; 0; 1; 0; 0; 0; 0]) in
     ∃ (s0 : walk_state (Color := Z)) r,
       start raw = Ok s0
       ∧ block_step raw s0 = Raise IndexError
       ∧ scan (Z.to_nat (len raw - block_start_position s0)) raw s0 = Some r).
Proof.
  split.
  - assert (∃ s0 s1 : walk_state (Color := Z),
              start charger_map = Ok s0 ∧ block_start_position s0 = 20
              ∧ block_step charger_map s0 = Ok s1
              ∧ block_start_position s1 = 40)
      as (s0 & s1 & Hs & Hpos & Hstep & Hpos1)
      by (eexists _, _; repeat split; vm_compute; reflexivity).
    destruct (scan_terminates_when_blocks_advance charger_map s0)
      as [(r & Hr & _) _].
    + intros t adv Hv Hlt Ha.
      inversion Hv as [|? s1' ? _ Hstep' Hv1]; subst.
      * rewrite Hpos in Ha. vm_compute in Ha. injection Ha as <-. lia.
      * rewrite Hstep in Hstep'. injection Hstep' as <-.
        inversion Hv1 as [|? ? ? Hlt1]; subst.
        -- rewrite Hpos1 in Hlt. vm_compute in Hlt. discriminate.
        -- rewrite Hpos1 in Hlt1. vm_compute in Hlt1. discriminate.
    + exists s0, r. by split.
  - cbv zeta.
    set (raw := bytes_of ([0; 0; 20; 0; 0; 0; 0; 0; 1; 0; 2; 0;
                           0; 0; 0; 0; 0; 0; 0; 0]
                          ++ [1; 0; 8; 0; 4; 0; 0; 0] ++ [1; 0; 0; 0]
                          ++ [0; 0; 0; 1; 0; 0; 0; 0])).
    assert (∃ s0 : walk_state (Color := Z),
              start raw = Ok s0 ∧ block_start_position s0 = 20
              ∧ block_step raw s0 = Raise IndexError)
      as (s0 & Hs & Hpos & Hstep)
      by (eexists; repeat split; vm_compute; reflexivity).
    destruct (scan_terminates_when_blocks_advance raw s0) as [(r & Hr & _) _].
    + intros t adv Hv Hlt Ha.
      inversion Hv as [|? s1' ? _ Hstep' _]; subst.
      * rewrite Hpos in Ha. vm_compute in Ha. injection Ha as <-. lia.
      * rewrite Hstep in Hstep'. discriminate.
    + by exists s0, r.
Defined.

(** C9 (as stated) fails: on a map whose only block has the header length
    0x0100 and the body length 0, an iteration completes and leaves the
    position where it was, so no number of iterations ends the loop and
    [parse] does not return. *)
Lemma scan_of_stuck_map_never_ends :
  ∃ s0 : walk_state (Color := Z),
    start stuck_map = Ok s0
    ∧ block_start_position s0 < len stuck_map
    ∧ block_step stuck_map s0 = Ok s0
    ∧ ¬ (∃ fuel r, scan fuel stuck_map s0 = Some r)
    ∧ ¬ (∃ fuel r,
           RoborockMapDataParser.parse plain_palette plain_room_color no_resize
             no_trim_config empty_map_image draw_nothing is_empty_image
             fuel ∅ stuck_map = Some r).
Proof.
  assert (∃ s0 : walk_state (Color := Z),
            start stuck_map = Ok s0
            ∧ block_start_position s0 < len stuck_map
            ∧ block_step stuck_map s0 = Ok s0)
    as (s0 & Hs & Hlt & Hstep) by (eexists; repeat split; vm_compute; reflexivity).
  exists s0. repeat split; try done.
  - intros (fuel & r & H). by rewrite scan_stuck in H.
  - intros (fuel & r & H). unfold RoborockMapDataParser.parse in H.
    rewrite Hs, scan_stuck in H; done.
Qed.

(** ** C5: the record size of the obstacles *)

Lemma get_int16_inside (data : list byte) (address : Z) :
  0 ≤ address → address + 1 < len data → ∃ v, _get_int16 data address = Ok v.
Proof.
  intros Ha Hl. unfold _get_int16.
  destruct (getitem_inside data (address + 0)) as (b0 & _ & ->); [lia|].
  destruct (getitem_inside data (address + 1)) as (b1 & _ & ->); [lia|].
  rewrite !bind_Ok. eauto.
Qed.

Lemma range3_records (n step : Z) :
  0 ≤ n → 0 < step →
  range3 0 (n * step) step = Ok ((λ k, k * step) <$> seqZ 0 n).
Proof.
  intros Hn Hs. unfold range3.
  assert ((step =? 0) = false) as -> by lia.
  assert ((0 <? step) = true) as -> by lia.
  replace ((n * step - 0 + step - 1) / step) with n; [reflexivity|].
  replace (n * step - 0 + step - 1) with (n * step + (step - 1)) by lia.
  rewrite Z.div_add_l, Z.div_small; lia.
Qed.

Lemma for_each_collect {A B : Type} (g : A → result B) (l : list A) (acc : list B) :
  (∀ a, a ∈ l → ∃ b, g a = Ok b) →
  ∃ r, for_each (λ a acc, b ← g a; mret (acc ++ [b])) l acc = Ok r
       ∧ len r = len acc + len l.
Proof.
  revert acc. induction l as [|a l IH]; intros acc Hg.
  - exists acc. split; [reflexivity|]. unfold len. simpl. lia.
  - destruct (Hg a) as (b & Hb); [by left|].
    destruct (IH (acc ++ [b])) as (r & Hr & Hlen).
    { intros a' Ha'. apply Hg. by right. }
    exists r. split.
    + simpl. rewrite Hb, bind_Ok. exact Hr.
    + rewrite Hlen. unfold len. rewrite length_app. simpl. lia.
Qed.

Lemma obstacle_at_succeeds (data : list byte) (size start : Z) :
  0 ≤ start → start + size ≤ len data → 4 ≤ size → size ≠ 28 →
  ∃ o, obstacle_at data size start = Ok o.
Proof.
  intros Hs Hl H4 H28. unfold obstacle_at.
  destruct (get_int16_inside data (start + 0)) as (vx & ->); [lia | lia |].
  destruct (get_int16_inside data (start + 2)) as (vy & ->); [lia | lia |].
  rewrite !bind_Ok.
  destruct (Z.leb_spec 6 size); [|by eexists].
  destruct (get_int16_inside data (start + 4)) as (vt & ->); [lia | lia |].
  rewrite !bind_Ok. cbv zeta.
  destruct (Z.leb_spec 10 size); [|by eexists].
  destruct (get_int16_inside data (start + 6)) as (u1 & ->); [lia | lia |].
  destruct (get_int16_inside data (start + 8)) as (u2 & ->); [lia | lia |].
  rewrite !bind_Ok.
  assert ((size =? 28) = false) as -> by lia.
  by eexists.
Qed.

(** C5 (as the code has it).  When the record count read from the header is
    zero the result is the empty list.  Otherwise the record size is
    [len(data) / count] rounded down, and the code goes on with it without
    testing that the division is exact: a size of 0 raises [ValueError] (the
    step of the [range]), any other size decodes [count] records at the
    multiples of the size, and for a size of at least 4 other than 28 all of
    them decode, whether or not [len(data)] is a multiple of the count. *)
Theorem parse_obstacles_truncated_record_size (data header : list byte)
    (obstacle_pairs : Z) :
  _get_int16 header 0x08 = Ok obstacle_pairs →
  (obstacle_pairs = 0 → _parse_obstacles data header = Ok [])
  ∧ (obstacle_pairs ≠ 0 → Z.quot (len data) obstacle_pairs = 0 →
       _parse_obstacles data header = Raise ValueError)
  ∧ (obstacle_pairs ≠ 0 → 0 < Z.quot (len data) obstacle_pairs →
       _parse_obstacles data header
       = for_each (λ obstacle_start obstacles,
                     o ← obstacle_at data (Z.quot (len data) obstacle_pairs)
                           obstacle_start;
                     mret (obstacles ++ [o]))
           ((λ k, k * Z.quot (len data) obstacle_pairs) <$> seqZ 0 obstacle_pairs)
           [])
  ∧ (obstacle_pairs ≠ 0 → 4 ≤ Z.quot (len data) obstacle_pairs →
       Z.quot (len data) obstacle_pairs ≠ 28 →
       ∃ obstacles, _parse_obstacles data header = Ok obstacles
                    ∧ len obstacles = obstacle_pairs).
Proof.
  intros Hpairs. pose proof (get_int16_nonneg _ _ _ Hpairs) as Hnn.
  pose proof (len_nonneg data) as Hlen.
  unfold _parse_obstacles, obstacle_size. rewrite Hpairs, bind_Ok.
  set (size := Z.quot (len data) obstacle_pairs).
  repeat split.
  - by intros ->.
  - intros Hne Hz. assert ((obstacle_pairs =? 0) = false) as -> by lia.
    by rewrite Hz.
  - intros Hne Hz. assert ((obstacle_pairs =? 0) = false) as -> by lia.
    by rewrite range3_records by lia.
  - intros Hne H4 H28. assert ((obstacle_pairs =? 0) = false) as -> by lia.
    rewrite range3_records, bind_Ok by lia.
    destruct (for_each_collect (obstacle_at data size)
                ((λ k, k * size) <$> seqZ 0 obstacle_pairs) []) as (r & Hr & Hl).
    + intros start (k & -> & Hk)%list_elem_of_fmap. apply elem_of_seqZ in Hk.
      assert (size * obstacle_pairs ≤ len data).
      { unfold size. rewrite Z.quot_div_nonneg, Z.mul_comm by lia.
        apply Z.mul_div_le. lia. }
      apply obstacle_at_succeeds; fold size; nia.
    + exists r. split; [exact Hr|]. rewrite Hl. unfold len.
      rewrite length_fmap, length_seqZ. simpl. lia.
Qed.

Lemma parse_obstacles_truncated_record_size_witness :
  ∃ obstacles,
    _parse_obstacles (bytes_of [1; 0; 2; 0; 3; 0; 4; 0; 5])
      (bytes_of [13; 0; 10; 0; 9; 0; 0; 0; 2; 0]) = Ok obstacles
    ∧ len obstacles = 2.
Proof.
  destruct (parse_obstacles_truncated_record_size
              (bytes_of [1; 0; 2; 0; 3; 0; 4; 0; 5])
              (bytes_of [13; 0; 10; 0; 9; 0; 0; 0; 2; 0]) 2)
    as (_ & _ & _ & H); [reflexivity|].
  apply H; vm_compute; discriminate.
Defined.

(** C5 (as stated) fails: a body of 9 bytes with a record count of 2 is not
    rejected; the two records are decoded with the truncated size 4. *)
Lemma parse_obstacles_accepts_inexact_division :
  let data := bytes_of [1; 0; 2; 0; 3; 0; 4; 0; 5] in
  let header := bytes_of [13; 0; 10; 0; 9; 0; 0; 0; 2; 0] in
  _get_int16 header 0x08 = Ok 2
  ∧ len data mod 2 ≠ 0
  ∧ obstacle_size data 2 = 4
  ∧ _parse_obstacles data header
    = Ok [ {| obstacle_x := 1; obstacle_y := 2; details := ObstacleDetails_new |};
           {| obstacle_x := 3; obstacle_y := 4; details := ObstacleDetails_new |} ].
Proof. vm_compute. repeat split. discriminate. Qed.

(** ** C4: the mop path *)

Lemma getitem_middle (pre rest : list byte) (m : byte) :
  getitem (pre ++ m :: rest) (len pre) = Ok (byte_val m).
Proof.
  destruct (getitem_inside (pre ++ m :: rest) (len pre)) as (b & Hb & ->).
  - unfold len. rewrite length_app. simpl. lia.
  - unfold len in Hb. rewrite Nat2Z.id, list_lookup_middle in Hb by done.
    by injection Hb as <-.
Qed.

Lemma ends_marked_cons_cons (m m' : byte) (mask : list byte) :
  Spec.ends_marked (m :: m' :: mask) = Spec.ends_marked (m' :: mask).
Proof. reflexivity. Qed.

Lemma total_points_app (l1 l2 : list (list Point)) :
  Spec.total_points (l1 ++ l2) = Spec.total_points l1 + Spec.total_points l2.
Proof.
  unfold Spec.total_points. induction l1 as [|r l1 IH]; simpl; [done|].
  rewrite IH. lia.
Qed.

Lemma total_points_run_if_any (run : list Point) :
  Spec.total_points (Spec.run_if_any run) = len run.
Proof. destruct run; unfold Spec.total_points, len; simpl; lia. Qed.

(** The inner loop of [_parse_mop_path] on the points that remain, when the
    mask bytes already passed are [mask_pre].  The run kept in
    [mop_path_points] is non-empty only in front of a non-zero byte. *)
Lemma mop_points_suffix (pts : list Point) :
  ∀ (mask_pre mask_rest : list byte) (s : mop_state),
    length pts = length mask_rest →
    (mop_path_points s = []
     ∨ match mask_rest with [] => True | m :: _ => byte_val m ≠ 0 end) →
    ∃ s',
      for_each (mop_point (mask_pre ++ mask_rest))
        (zip (seqZ (len mask_pre) (len pts)) pts) s = Ok s'
      ∧ mop_paths s' ++ Spec.run_if_any (mop_path_points s')
        = mop_paths s ++ Spec.runs_from (mop_path_points s) pts mask_rest
      ∧ points_num s' + len (mop_path_points s')
        = points_num s + Spec.total_points (Spec.runs_from (mop_path_points s) pts mask_rest)
      ∧ (mop_path_points s' = [] ↔
         match mask_rest with
         | [] => mop_path_points s = []
         | _ :: _ => Spec.ends_marked mask_rest = false
         end).
Proof.
  induction pts as [|p pts IH]; intros mask_pre mask_rest s Hlen Hrun.
  { destruct mask_rest; [|discriminate]. exists s. simpl.
    rewrite total_points_run_if_any. repeat split; try done; lia. }
  destruct mask_rest as [|m mask_rest]; [discriminate|].
  injection Hlen as Hlen.
  assert (len (p :: pts) = Z.succ (len pts)) as Hsucc
    by (unfold len; simpl; lia).
  rewrite Hsucc, seqZ_cons, Z.pred_succ by (pose proof (len_nonneg pts); lia).
  assert (Z.succ (len mask_pre) = len (mask_pre ++ [m])) as ->
    by (unfold len; rewrite length_app; simpl; lia).
  replace (mask_pre ++ m :: mask_rest) with ((mask_pre ++ [m]) ++ mask_rest)
    by by rewrite <- app_assoc.
  assert (getitem ((mask_pre ++ [m]) ++ mask_rest) (len mask_pre) = Ok (byte_val m))
    as Hm by (rewrite <- app_assoc; apply getitem_middle).
  simpl zip. set (mask := (mask_pre ++ [m]) ++ mask_rest) in *.
  destruct (Z.eqb_spec (byte_val m) 0) as [Hz|Hnz].
  - (* a clear byte: nothing changes *)
    assert (mop_point mask (len mask_pre, p) s = Ok s) as Hstep.
    { unfold mop_point. rewrite Hm, bind_Ok, Hz. reflexivity. }
    rewrite (for_each_step _ _ _ _ _ Hstep). subst mask.
    destruct Hrun as [Hrun|Hrun]; [|done].
    destruct (IH (mask_pre ++ [m]) mask_rest s Hlen (or_introl Hrun))
      as (s' & -> & Hpaths & Hnum & Hlast).
    exists s'. split; [done|]. simpl. rewrite Hz. simpl.
    rewrite Hrun in *. simpl. repeat split; try done.
    + intros H. destruct mask_rest; [|by apply Hlast].
      unfold Spec.ends_marked. simpl. by rewrite Hz.
    + intros H. apply Hlast. by destruct mask_rest.
  - (* a marked byte: the point joins the run *)
    set (run := mop_path_points s ++ [p]).
    assert (run ≠ []) as Hne by (unfold run; by destruct (mop_path_points s)).
    assert (Spec.run_if_any run = [run]) as Hany by by destruct run.
    assert ((byte_val m =? 0) = false) as Hmb by lia.
    destruct mask_rest as [|m' mask_rest'].
    + (* the last byte *)
      assert (mop_point mask (len mask_pre, p) s
              = Ok {| points_num := points_num s; mop_paths := mop_paths s;
                      mop_path_points := run |}) as Hstep.
      { unfold mop_point. rewrite Hm, bind_Ok, Hmb. simpl negb. cbv iota zeta.
        assert ((len mask_pre + 1 <? len mask) = false) as ->.
        { apply Z.ltb_ge. unfold mask, len. rewrite !length_app. cbn [length]. lia. }
        reflexivity. }
      rewrite (for_each_step _ _ _ _ _ Hstep). subst mask.
      destruct pts; [|discriminate]. simpl.
      eexists. split; [reflexivity|]. simpl. rewrite Hmb.
      fold run. rewrite Hany. repeat split; try done.
      * unfold Spec.total_points. simpl. lia.
      * unfold Spec.ends_marked. simpl. by rewrite Hmb.
    + assert (getitem mask (len mask_pre + 1) = Ok (byte_val m')) as Hm'.
      { replace (len mask_pre + 1) with (len (mask_pre ++ [m]))
          by (unfold len; rewrite length_app; simpl; lia).
        apply getitem_middle. }
      assert ((len mask_pre + 1 <? len mask) = true) as Hnext.
      { apply Z.ltb_lt. unfold mask, len. rewrite !length_app. cbn [length]. lia. }
      destruct pts as [|p' pts']; [discriminate|].
      destruct (Z.eqb_spec (byte_val m') 0) as [Hz'|Hnz'].
      * (* the run ends here and is flushed *)
        assert (mop_point mask (len mask_pre, p) s
                = Ok {| points_num := points_num s + len run;
                        mop_paths := mop_paths s ++ [run];
                        mop_path_points := [] |}) as Hstep.
        { unfold mop_point. rewrite Hm, bind_Ok, Hmb. simpl negb. cbv iota zeta.
          rewrite Hnext, Hm', !bind_Ok, Hz'. reflexivity. }
        rewrite (for_each_step _ _ _ _ _ Hstep). subst mask.
        edestruct (IH (mask_pre ++ [m]) (m' :: mask_rest')
                     {| points_num := points_num s + len run;
                        mop_paths := mop_paths s ++ [run];
                        mop_path_points := [] |} Hlen (or_introl eq_refl))
          as (s' & -> & Hpaths & Hnum & Hlast).
        exists s'. split; [done|]. simpl in Hpaths, Hnum, Hlast.
        rewrite Hz' in Hpaths, Hnum. simpl in Hpaths, Hnum.
        cbn [Spec.runs_from]. rewrite Hmb, Hz', Z.eqb_refl. fold run.
        rewrite Hany, ends_marked_cons_cons.
        split; [|split; [|exact Hlast]].
        -- by rewrite Hpaths, <- app_assoc.
        -- rewrite Hnum, total_points_app. unfold Spec.total_points at 2.
           simpl. lia.
      * (* the run goes on *)
        assert ((byte_val m' =? 0) = false) as Hmb' by lia.
        assert (mop_point mask (len mask_pre, p) s
                = Ok {| points_num := points_num s; mop_paths := mop_paths s;
                        mop_path_points := run |}) as Hstep.
        { unfold mop_point. rewrite Hm, bind_Ok, Hmb. simpl negb. cbv iota zeta.
          rewrite Hnext, Hm', !bind_Ok, Hmb'. reflexivity. }
        rewrite (for_each_step _ _ _ _ _ Hstep). subst mask.
        edestruct (IH (mask_pre ++ [m]) (m' :: mask_rest')
                     {| points_num := points_num s;
                        mop_paths := mop_paths s;
                        mop_path_points := run |} Hlen (or_intror Hnz'))
          as (s' & -> & Hpaths & Hnum & Hlast).
        exists s'. split; [done|]. simpl in Hpaths, Hnum, Hlast.
        cbn [Spec.runs_from] in *. rewrite Hmb. fold run.
        rewrite ends_marked_cons_cons.
        split; [|split; [|exact Hlast]]; done.
Qed.

Lemma runs_from_nonempty (run points : list Point) (mask : list byte) :
  Forall (λ l, (0 < length l)%nat) (Spec.runs_from run points mask).
Proof.
  assert (∀ r, Forall (λ l : list Point, (0 < length l)%nat) (Spec.run_if_any r))
    as Hany.
  { intros [|q r]; simpl; [constructor|].
    constructor; [simpl; lia | constructor]. }
  revert run mask. induction points as [|p points IH]; intros run mask.
  - apply Hany.
  - destruct mask as [|m mask]; [apply Hany|]. simpl.
    destruct (byte_val m =? 0); [|apply IH].
    apply Forall_app. split; [apply Hany | apply IH].
Qed.

Lemma filter_Forall {A : Type} (P : A → Prop) `{!∀ x, Decision (P x)}
    (l : list A) :
  Forall P l → filter P l = l.
Proof.
  induction 1 as [|x l Hx _ IH]; [done|].
  rewrite filter_cons_True by done. by rewrite IH.
Qed.

(** What [_parse_mop_path] returns on a path of one polyline: the maximal
    runs, and after them one empty polyline when the loop ends outside a
    run. *)
Lemma parse_mop_path_polylines (p : Path) (points : list Point) (mask : list byte) :
  path p = [points] → length mask = length points →
  ∃ tail,
    _parse_mop_path p mask
    = Ok {| point_length := Spec.total_points (Spec.maximal_runs points mask);
            point_size := point_size p; angle := angle p;
            path := Spec.maximal_runs points mask ++ tail |}
    ∧ (tail = [] ∨ tail = [[]])
    ∧ (Spec.ends_marked mask = true → tail = []).
Proof.
  intros Hpath Hlen. unfold _parse_mop_path. rewrite Hpath.
  destruct (mop_points_suffix points [] mask
              {| points_num := 0; mop_paths := []; mop_path_points := [] |})
    as (s' & Hloop & Hpaths & Hnum & Hlast); [done | by left |].
  simpl in Hpaths, Hnum, Hlast.
  change (len (@nil byte)) with 0 in Hloop. change ([] ++ mask) with mask in Hloop.
  cbn [for_each]. unfold mop_each_path at 1. unfold enumerate.
  cbn [points_num mop_paths]. rewrite Hloop. simpl.
  fold (Spec.maximal_runs points mask) in Hpaths, Hnum.
  destruct (mop_path_points s') as [|q run] eqn:Hrun.
  - exists [[]]. simpl in Hpaths. rewrite app_nil_r in Hpaths.
    repeat split.
    + rewrite Hpaths. do 2 f_equal. unfold len in *. simpl in *. lia.
    + by right.
    + intros Hend. destruct mask; [discriminate|].
      rewrite (proj1 Hlast eq_refl) in Hend. discriminate.
  - exists []. rewrite app_nil_r. repeat split.
    + simpl in Hpaths. rewrite Hpaths. do 2 f_equal. lia.
    + by left.
Qed.

(** C4 (as the code has it).  For a path whose single polyline has n points
    and a mask of n bytes, [_parse_mop_path] returns a path whose non-empty
    polylines are exactly the maximal runs of consecutive points with a
    non-zero mask byte, one per run and in source order, and whose total
    point count is the sum of the run lengths; when the last mask byte is
    non-zero it has no other polyline.  The points [p0..p4] with the mask
    [1,1,0,1,1] give exactly [p0,p1] and [p3,p4], with a point count of 4. *)
Theorem parse_mop_path_runs (p : Path) (points : list Point) (mask : list byte) :
  path p = [points] → length mask = length points →
  (∃ polylines,
     _parse_mop_path p mask
     = Ok {| point_length := Spec.total_points (Spec.maximal_runs points mask);
             point_size := point_size p; angle := angle p; path := polylines |}
     ∧ filter (λ l, (0 < length l)%nat) polylines = Spec.maximal_runs points mask
     ∧ (Spec.ends_marked mask = true → polylines = Spec.maximal_runs points mask))
  ∧ (∀ p0 p1 p2 p3 p4 : Point,
       path p = [[p0; p1; p2; p3; p4]] →
       _parse_mop_path p (bytes_of [1; 1; 0; 1; 1])
       = Ok {| point_length := 4; point_size := point_size p; angle := angle p;
               path := [[p0; p1]; [p3; p4]] |}).
Proof.
  intros Hpath Hlen. split.
  - destruct (parse_mop_path_polylines p points mask Hpath Hlen)
      as (tail & Hp & Htail & Hend).
    eexists. split; [exact Hp|]. split.
    + rewrite filter_app, filter_Forall by apply runs_from_nonempty.
      destruct Htail as [-> | ->]; [by rewrite app_nil_r|].
      rewrite filter_cons_False, filter_nil, app_nil_r; [done | simpl; lia].
    + intros He. by rewrite (Hend He), app_nil_r.
  - intros p0 p1 p2 p3 p4 Hp. unfold _parse_mop_path. rewrite Hp. reflexivity.
Qed.

Lemma parse_mop_path_runs_witness :
  ∃ polylines,
    _parse_mop_path (plain_path [point 0; point 1; point 2; point 3; point 4])
      (bytes_of [1; 1; 0; 1; 1])
    = Ok {| point_length := 4; point_size := 0; angle := 0; path := polylines |}
    ∧ polylines = [[point 0; point 1]; [point 3; point 4]].
Proof.
  destruct (parse_mop_path_runs
              (plain_path [point 0; point 1; point 2; point 3; point 4])
              [point 0; point 1; point 2; point 3; point 4]
              (bytes_of [1; 1; 0; 1; 1]))
    as [(polylines & Hp & _ & Hruns) _]; [reflexivity | reflexivity |].
  exists polylines. split; [exact Hp|]. apply Hruns. reflexivity.
Defined.

(** C4 (as stated) fails: with the mask [1,1,0] there is one maximal run,
    [p0,p1], and the returned path has two polylines, the run and an empty
    one. *)
Lemma parse_mop_path_trailing_empty_polyline :
  Spec.maximal_runs [point 0; point 1; point 2] (bytes_of [1; 1; 0])
  = [[point 0; point 1]]
  ∧ _parse_mop_path (plain_path [point 0; point 1; point 2]) (bytes_of [1; 1; 0])
    = Ok {| point_length := 2; point_size := 0; angle := 0;
            path := [[point 0; point 1]; []] |}
  ∧ [[point 0; point 1]; []]
    ≠ Spec.maximal_runs [point 0; point 1; point 2] (bytes_of [1; 1; 0]).
Proof. vm_compute. repeat split. discriminate. Qed.

(** * Further properties of the parser *)

(** ** The integer readers are little-endian *)

Lemma getitem_Ok_byte (data : list byte) (i v : Z) :
  getitem data i = Ok v → ∃ b : byte, v = byte_val b.
Proof.
  unfold getitem. destruct (_ || _); [discriminate|].
  destruct (data !! _) as [b|]; [|discriminate].
  intros [= <-]. by exists b.
Qed.

Lemma lor_shiftl_disjoint (lo hi k : Z) :
  0 ≤ k → 0 ≤ lo < 2 ^ k → Z.lor lo (hi * 2 ^ k) = lo + hi * 2 ^ k.
Proof.
  intros Hk Hlo. rewrite <- Z.shiftl_mul_pow2 by done.
  assert (Z.land lo (Z.shiftl hi k) = 0) as Hdisj.
  { apply Z.bits_inj'. intros n Hn. rewrite Z.land_spec, Z.bits_0.
    destruct (Z.lt_ge_cases n k).
    - rewrite Z.shiftl_spec_low by done. apply andb_false_r.
    - rewrite <- (Z.mod_small lo (2 ^ k)) by done.
      rewrite Z.mod_pow2_bits_high by lia. reflexivity. }
  rewrite <- Z.lxor_lor by done. symmetry. by apply Z.add_nocarry_lxor.
Qed.

Lemma land_shiftl_byte (b k : Z) :
  0 ≤ k → 0 ≤ b < 256 →
  Z.land (Z.shiftl b k) (Z.ones (k + 8)) = b * 2 ^ k.
Proof.
  intros Hk Hb. rewrite Z.land_ones, Z.shiftl_mul_pow2 by lia.
  apply Z.mod_small. rewrite Z.pow_add_r by lia. nia.
Qed.

(** X1.  [_get_int16] reads an unsigned little-endian 16-bit value: when the
    two bytes at [address] and [address + 1] can be read as [v0] and [v1],
    the result is [v0 + 256 * v1], a value below 65536. *)
Theorem get_int16_little_endian (data : list byte) (address v0 v1 : Z) :
  getitem data (address + 0) = Ok v0 →
  getitem data (address + 1) = Ok v1 →
  _get_int16 data address = Ok (v0 + 256 * v1)
  ∧ 0 ≤ v0 + 256 * v1 < 65536.
Proof.
  intros H0 H1. unfold _get_int16. rewrite H0, H1, !bind_Ok.
  apply getitem_Ok_byte in H0 as (b0 & ->), H1 as (b1 & ->).
  pose proof (byte_val_range b0). pose proof (byte_val_range b1).
  split; [|lia]. change (mret ?v) with (Ok v). f_equal.
  change 255 with (Z.ones (0 + 8)). change 65535 with (Z.ones (8 + 8)).
  rewrite !land_shiftl_byte by lia.
  rewrite Z.pow_0_r, Z.mul_1_r, lor_shiftl_disjoint by lia. lia.
Qed.

Lemma get_int16_little_endian_witness :
  _get_int16 (bytes_of [0x34; 0x12]) 0 = Ok 0x1234.
Proof.
  destruct (get_int16_little_endian (bytes_of [0x34; 0x12]) 0 0x34 0x12)
    as [H _]; [reflexivity | reflexivity |].
  exact H.
Defined.

(** X2.  [_get_int32] reads an unsigned little-endian 32-bit value: when the
    four bytes from [address] on can be read as [v0 .. v3], the result is
    [v0 + 2^8 v1 + 2^16 v2 + 2^24 v3], a value below 2^32 (no sign
    extension). *)
Theorem get_int32_little_endian (data : list byte) (address v0 v1 v2 v3 : Z) :
  getitem data (address + 0) = Ok v0 →
  getitem data (address + 1) = Ok v1 →
  getitem data (address + 2) = Ok v2 →
  getitem data (address + 3) = Ok v3 →
  _get_int32 data address = Ok (v0 + 256 * v1 + 65536 * v2 + 16777216 * v3)
  ∧ 0 ≤ v0 + 256 * v1 + 65536 * v2 + 16777216 * v3 < 4294967296.
Proof.
  intros H0 H1 H2 H3. unfold _get_int32. rewrite H0, H1, H2, H3, !bind_Ok.
  apply getitem_Ok_byte in H0 as (b0 & ->), H1 as (b1 & ->),
    H2 as (b2 & ->), H3 as (b3 & ->).
  pose proof (byte_val_range b0). pose proof (byte_val_range b1).
  pose proof (byte_val_range b2). pose proof (byte_val_range b3).
  split; [|lia]. change (mret ?v) with (Ok v). f_equal.
  change 255 with (Z.ones (0 + 8)). change 65535 with (Z.ones (8 + 8)).
  change 16777215 with (Z.ones (16 + 8)).
  change 4294967295 with (Z.ones (24 + 8)).
  rewrite !land_shiftl_byte by lia.
  rewrite Z.pow_0_r, Z.mul_1_r.
  rewrite (lor_shiftl_disjoint (byte_val b0) (byte_val b1) 8) by lia.
  rewrite (lor_shiftl_disjoint _ (byte_val b2) 16) by lia.
  rewrite (lor_shiftl_disjoint _ (byte_val b3) 24) by lia. lia.
Qed.

Lemma get_int32_little_endian_witness :
  _get_int32 (bytes_of [0x78; 0x56; 0x34; 0x12]) 0 = Ok 0x12345678.
Proof.
  destruct (get_int32_little_endian (bytes_of [0x78; 0x56; 0x34; 0x12]) 0
              0x78 0x56 0x34 0x12)
    as [H _]; [reflexivity | reflexivity | reflexivity | reflexivity |].
  exact H.
Defined.

(** ** Room numbers *)

Lemma land_7_mod (c : Z) : Z.land c 7 = c mod 8.
Proof. change 7 with (Z.ones 3). by rewrite Z.land_ones. Qed.

Lemma land_255_mod (c : Z) : Z.land c 255 = c mod 256.
Proof. change 255 with (Z.ones 8). by rewrite Z.land_ones. Qed.

Lemma get_room_number_div (c : Z) :
  0 ≤ c < 256 → _get_room_number c = c / 8.
Proof.
  intros Hc. unfold _get_room_number.
  rewrite land_255_mod, Z.mod_small, Z.shiftr_div_pow2 by lia. reflexivity.
Qed.

(** X3.  The room floor codes are the bytes [8 * r + 7] with [r] from 1 to
    30: a byte classifies as the floor of room [r] exactly when it has this
    form, so the decoder never reports a room 0 or a room above 30 (the
    codes 0x07 and 0xFF, which would be rooms 0 and 31, are Scan and
    Inside). *)
Theorem room_floor_codes (b : byte) (r : Z) :
  pixel_category (byte_val b) = RoomFloor r
  ↔ 1 ≤ r ≤ 30 ∧ byte_val b = 8 * r + 7.
Proof.
  pose proof (byte_val_range b) as Hb. set (c := byte_val b) in *.
  unfold pixel_category, MAP_OUTSIDE, MAP_WALL, MAP_INSIDE, MAP_SCAN.
  cbv zeta. rewrite land_7_mod, get_room_number_div by done.
  split.
  - destruct (Z.eqb_spec c 0); [discriminate|].
    destruct (Z.eqb_spec c 1); [discriminate|].
    destruct (Z.eqb_spec c 255); [discriminate|].
    destruct (Z.eqb_spec c 7); [discriminate|].
    destruct (Z.eqb_spec (c mod 8) 0); [discriminate|].
    destruct (Z.eqb_spec (c mod 8) 1); [discriminate|].
    destruct (Z.eqb_spec (c mod 8) 7); [|discriminate].
    intros [= <-]. Z.div_mod_to_equations. lia.
  - intros [Hr Hc].
    destruct (Z.eqb_spec c 0); [lia|].
    destruct (Z.eqb_spec c 1); [lia|].
    destruct (Z.eqb_spec c 255); [lia|].
    destruct (Z.eqb_spec c 7); [lia|].
    assert (c mod 8 = 7) as -> by (Z.div_mod_to_equations; lia).
    simpl. f_equal. Z.div_mod_to_equations. lia.
Qed.

(** ** Block type codes *)

(** X4.  The codes of the block types are pairwise distinct, so the [match]
    of the walker selects the case of a block type exactly for its code:
    a code selects the case [t] if and only if it is the value of [t], and
    every other code falls to the wildcard case. *)
Theorem matching_case_value (block_type : Z) (t : RoborockBlockType) :
  matching_case block_type = Some t ↔ value t = block_type.
Proof.
  split.
  - unfold matching_case. intros H. apply find_some in H as [_ H].
    by apply Z.eqb_eq in H.
  - intros <-. by destruct t.
Qed.

(** ** Position blocks *)

Lemma get_int32_cases (data : list byte) (address : Z) :
  0 ≤ address →
  (address + 3 < len data ∧ ∃ v, _get_int32 data address = Ok v)
  ∨ (len data ≤ address + 3 ∧ _get_int32 data address = Raise IndexError).
Proof.
  intros Ha. destruct (Z.lt_ge_cases (address + 3) (len data)).
  - left. split; [done|]. by apply get_int32_inside.
  - right. split; [done|]. by apply get_int32_outside.
Qed.

Lemma get_int16_cases (data : list byte) (address : Z) :
  0 ≤ address →
  (address + 1 < len data ∧ ∃ v, _get_int16 data address = Ok v)
  ∨ (len data ≤ address + 1 ∧ _get_int16 data address = Raise IndexError).
Proof.
  intros Ha. destruct (Z.lt_ge_cases (address + 1) (len data)).
  - left. split; [done|]. by apply get_int16_inside.
  - right. split; [done|]. by apply get_int16_outside.
Qed.

(** X5.  A position block decodes exactly when its body holds the bytes
    that are read: 8 bytes when the declared body length is at most 8 (then
    the point has no angle), 12 bytes when it is larger (then it has one);
    with fewer bytes the decoder raises [IndexError]. *)
Theorem parse_object_position_needs (block_data_length : Z) (data : list byte) :
  let needed := if 8 <? block_data_length then 12 else 8 in
  (needed ≤ len data →
     ∃ p, _parse_object_position block_data_length data = Ok p
          ∧ (is_Some (a p) ↔ 8 < block_data_length))
  ∧ (len data < needed →
       _parse_object_position block_data_length data = Raise IndexError).
Proof.
  cbv zeta. unfold _parse_object_position.
  destruct (get_int32_cases data 0) as [[H0 [vx ->]]|[H0 ->]]; [lia| |];
    [|split; [destruct (8 <? block_data_length); lia | done]].
  destruct (get_int32_cases data 4) as [[H4 [vy ->]]|[H4 ->]]; [lia| |];
    [|split; [destruct (8 <? block_data_length); lia | done]].
  rewrite !bind_Ok.
  destruct (Z.ltb_spec 8 block_data_length) as [Hl|Hl].
  - destruct (get_int32_cases data 8) as [[H8 [va ->]]|[H8 ->]]; [lia| |];
      [|split; [lia | done]].
    rewrite !bind_Ok. split; [|lia]. intros _. eexists. split; [reflexivity|].
    simpl. split; [done | by eexists].
  - rewrite !bind_Ok. split; [|lia]. intros _. eexists. split; [reflexivity|].
    simpl. split; [intros [? [=]] | lia].
Qed.

Lemma parse_object_position_needs_witness :
  (∃ p, _parse_object_position 8 (bytes_of [1; 0; 0; 0; 2; 0; 0; 0]) = Ok p)
  ∧ _parse_object_position 12 (bytes_of [1; 0; 0; 0; 2; 0; 0; 0])
    = Raise IndexError.
Proof.
  split.
  - destruct (parse_object_position_needs 8 (bytes_of [1; 0; 0; 0; 2; 0; 0; 0]))
      as [H _].
    destruct H as (p & Hp & _); [vm_compute; discriminate|]. by exists p.
  - apply (parse_object_position_needs 12 (bytes_of [1; 0; 0; 0; 2; 0; 0; 0])).
    reflexivity.
Defined.

Lemma normalize_angle_range (raw : Z) :
  0 ≤ raw → -256 ≤ normalize_angle raw ≤ 255.
Proof.
  intros Hr. unfold normalize_angle. destruct (Z.ltb_spec 255 raw); [|lia].
  rewrite land_255_mod. Z.div_mod_to_equations. lia.
Qed.

(** X6.  The angle of a decoded position always lies between -256 and 255,
    and the normalisation recovers a small negative angle stored as an
    unsigned 32-bit value: the raw value [2^32 + v] with [-256 <= v < 0]
    gives the angle [v]. *)
Theorem parse_object_position_angle_range (block_data_length : Z)
    (data : list byte) (p : Point) (angle : Z) :
  _parse_object_position block_data_length data = Ok p →
  a p = Some angle →
  -256 ≤ angle ≤ 255
  ∧ (∀ v, -256 ≤ v < 0 → normalize_angle (4294967296 + v) = v).
Proof.
  intros Hp Ha. split.
  - unfold _parse_object_position in Hp. bind_inv Hp. injection Hp as <-.
    simpl in Ha. subst v1. destruct (8 <? block_data_length); [|discriminate].
    bind_inv Hv1. injection Hv1 as <-.
    apply normalize_angle_range. by eapply get_int32_nonneg.
  - intros v Hv. unfold normalize_angle.
    assert ((255 <? 4294967296 + v) = true) as -> by lia.
    rewrite land_255_mod. Z.div_mod_to_equations. lia.
Qed.

Lemma parse_object_position_angle_range_witness :
  ∃ p, _parse_object_position 12
         (bytes_of [1; 0; 0; 0; 2; 0; 0; 0; 0xA6; 0xFF; 0xFF; 0xFF]) = Ok p
       ∧ a p = Some (-90).
Proof.
  eexists. split; [reflexivity|].
  pose proof (parse_object_position_angle_range 12
                (bytes_of [1; 0; 0; 0; 2; 0; 0; 0; 0xA6; 0xFF; 0xFF; 0xFF])
                _ (-90) eq_refl eq_refl) as [_ H].
  reflexivity.
Defined.

(** ** Loops that decode one record per element *)

Lemma for_each_ext {A S : Type} (body body' : A → S → result S) (l : list A) (s : S) :
  (∀ a s, body a s = body' a s) → for_each body l s = for_each body' l s.
Proof.
  intros Hext. revert s. induction l as [|a l IH]; intros s; [done|].
  simpl. rewrite Hext. destruct (body' a s); [apply IH | done].
Qed.

Lemma for_each_collect_eq {A B : Type} (g : A → result B)
    (body : A → list B → result (list B)) (l : list A) (acc : list B) :
  (∀ a acc, body a acc = (b ← g a; mret (acc ++ [b]))) →
  for_each body l acc = (bs ← Aux.collect g l; mret (acc ++ bs)).
Proof.
  intros Hbody. revert acc. induction l as [|a l IH]; intros acc.
  - simpl. by rewrite app_nil_r.
  - destruct (g a) as [b|e] eqn:Hg.
    + rewrite (for_each_step body a l acc (acc ++ [b]))
        by (by rewrite Hbody, Hg).
      rewrite IH. simpl. rewrite Hg.
      destruct (Aux.collect g l) as [bs|e]; [|done].
      rewrite !bind_Ok. by rewrite <- app_assoc.
    + simpl. by rewrite Hbody, Hg.
Qed.

Lemma collect_Ok {A B : Type} (g : A → result B) (l : list A) (bs : list B) :
  Aux.collect g l = Ok bs →
  length bs = length l
  ∧ ∀ k a b, l !! k = Some a → bs !! k = Some b → g a = Ok b.
Proof.
  revert bs. induction l as [|a l IH]; intros bs H.
  - injection H as <-. split; [done|]. intros k ? ? Hk. by destruct k.
  - simpl in H. destruct (g a) as [b|] eqn:Hg; [|discriminate].
    destruct (Aux.collect g l) as [bs'|]; [|discriminate].
    injection H as <-. destruct (IH bs' eq_refl) as [Hlen Hall].
    split; [simpl; by rewrite Hlen|].
    intros [|k] a' b'; simpl; [by intros [= <-] [= <-]|]. apply Hall.
Qed.

Lemma collect_all {A B : Type} (g : A → result B) (l : list A) :
  (∀ a, a ∈ l → ∃ b, g a = Ok b) → ∃ bs, Aux.collect g l = Ok bs.
Proof.
  induction l as [|a l IH]; intros Hall; [by eexists|].
  destruct (Hall a) as [b Hb]; [by left|].
  destruct IH as [bs Hbs]; [intros; apply Hall; by right|].
  exists (b :: bs). simpl. by rewrite Hb, Hbs.
Qed.

Lemma collect_IndexError {A B : Type} (g : A → result B) (l : list A) (a : A) :
  (∀ a e, g a = Raise e → e = IndexError) →
  a ∈ l → g a = Raise IndexError →
  Aux.collect g l = Raise IndexError.
Proof.
  intros Honly Hin Ha. induction l as [|a' l IH]; [by apply elem_of_nil in Hin|].
  simpl. destruct (g a') as [b|e] eqn:Hg.
  - apply elem_of_cons in Hin as [->|Hin]; [congruence|].
    by rewrite IH.
  - by rewrite (Honly _ _ Hg).
Qed.

Lemma range3_from (start n step : Z) :
  0 ≤ n → 0 < step →
  range3 start (start + n * step) step
  = Ok ((λ k, start + k * step) <$> seqZ 0 n).
Proof.
  intros Hn Hs. unfold range3.
  assert ((step =? 0) = false) as -> by lia.
  assert ((0 <? step) = true) as -> by lia.
  replace ((start + n * step - start + step - 1) / step) with n; [reflexivity|].
  replace (start + n * step - start + step - 1) with (n * step + (step - 1)) by lia.
  rewrite Z.div_add_l, Z.div_small; lia.
Qed.

Lemma get_int16_Raise (data : list byte) (address : Z) (e : exn) :
  _get_int16 data address = Raise e → e = IndexError.
Proof.
  unfold _get_int16.
  destruct (getitem data (address + 0)) eqn:H0;
    [|intros [= <-]; by eapply getitem_Raise].
  destruct (getitem data (address + 1)) eqn:H1;
    [discriminate | intros [= <-]; by eapply getitem_Raise].
Qed.

Lemma get_int16_range (data : list byte) (address v : Z) :
  _get_int16 data address = Ok v → 0 ≤ v < 65536.
Proof.
  unfold _get_int16. intros H.
  apply bind_Ok_inv in H as (v0 & H0 & H).
  apply bind_Ok_inv in H as (v1 & H1 & [= <-]).
  apply getitem_Ok_byte in H0 as (b0 & ->), H1 as (b1 & ->).
  pose proof (byte_val_range b0). pose proof (byte_val_range b1).
  change 255 with (Z.ones (0 + 8)). change 65535 with (Z.ones (8 + 8)).
  rewrite !land_shiftl_byte by lia.
  rewrite Z.pow_0_r, Z.mul_1_r, lor_shiftl_disjoint by lia. lia.
Qed.

(** A decoder of fixed-size records: [count] records of [width] bytes, each
    read by [g] with 16-bit reads inside the record. *)
Lemma records_decode {B : Type} (g : Z → result B) (data : list byte)
    (count width : Z) :
  0 ≤ count → 0 < width →
  (∀ start, 0 ≤ start → start + width ≤ len data → ∃ b, g start = Ok b) →
  (∀ start, 0 ≤ start → len data < start + width → g start = Raise IndexError) →
  (∀ start e, g start = Raise e → e = IndexError) →
  (count * width ≤ len data →
     ∃ bs, Aux.collect g ((λ k, k * width) <$> seqZ 0 count) = Ok bs
           ∧ len bs = count
           ∧ ∀ k b, bs !! k = Some b → g (Z.of_nat k * width) = Ok b)
  ∧ (len data < count * width →
       Aux.collect g ((λ k, k * width) <$> seqZ 0 count) = Raise IndexError).
Proof.
  intros Hc Hw Hin Hout Honly. split.
  - intros Hfit.
    destruct (collect_all g ((λ k, k * width) <$> seqZ 0 count)) as [bs Hbs].
    { intros start (k & -> & Hk)%list_elem_of_fmap. apply elem_of_seqZ in Hk.
      apply Hin; nia. }
    exists bs. split; [done|]. apply collect_Ok in Hbs as [Hlen Hall].
    split.
    + unfold len. rewrite Hlen, length_fmap, length_seqZ. lia.
    + intros k b Hb. eapply Hall; [|exact Hb].
      rewrite list_lookup_fmap, lookup_seqZ_lt; [done|].
      apply lookup_lt_Some in Hb.
      rewrite Hlen, length_fmap, length_seqZ in Hb. lia.
  - intros Hshort. pose proof (len_nonneg data).
    assert (1 ≤ count) by nia.
    apply (collect_IndexError g _ ((count - 1) * width)); [done| |].
    + apply list_elem_of_fmap. exists (count - 1). split; [done|].
      apply elem_of_seqZ. lia.
    + apply Hout; [nia|].
      replace ((count - 1) * width + width) with (count * width) by ring. done.
Qed.

Ltac reads_inside :=
  repeat match goal with
         | |- context [_get_int16 ?d ?a ≫= _] =>
             let v := fresh "v" in
             destruct (get_int16_inside d a) as [v ->]; [lia | lia |];
             rewrite bind_Ok
         end;
  eexists; reflexivity.

Ltac reads_outside :=
  repeat match goal with
         | |- context [_get_int16 ?d ?a ≫= _] =>
             let v := fresh "v" in
             let H := fresh "H" in
             destruct (get_int16_cases d a) as [[H [v ->]]|[H ->]];
             [lia | rewrite bind_Ok | reflexivity]
         end;
  exfalso; lia.

Ltac reads_only_IndexError :=
  repeat match goal with
         | |- context [_get_int16 ?d ?a ≫= _] =>
             let E := fresh "E" in
             destruct (_get_int16 d a) eqn:E;
             [rewrite bind_Ok
             |intros [= <-]; eapply get_int16_Raise; eassumption]
         end;
  discriminate.

(** ** Walls, zones and areas *)

Lemma wall_at_inside (data : list byte) (start : Z) :
  0 ≤ start → start + 8 ≤ len data → ∃ w, Aux.wall_at data start = Ok w.
Proof. intros. unfold Aux.wall_at. reads_inside. Qed.

Lemma wall_at_outside (data : list byte) (start : Z) :
  0 ≤ start → len data < start + 8 → Aux.wall_at data start = Raise IndexError.
Proof. intros. unfold Aux.wall_at. reads_outside. Qed.

Lemma wall_at_Raise (data : list byte) (start : Z) (e : exn) :
  Aux.wall_at data start = Raise e → e = IndexError.
Proof. unfold Aux.wall_at. reads_only_IndexError. Qed.

Lemma zone_at_inside (data : list byte) (start : Z) :
  0 ≤ start → start + 8 ≤ len data → ∃ w, Aux.zone_at data start = Ok w.
Proof. intros. unfold Aux.zone_at. reads_inside. Qed.

Lemma zone_at_outside (data : list byte) (start : Z) :
  0 ≤ start → len data < start + 8 → Aux.zone_at data start = Raise IndexError.
Proof. intros. unfold Aux.zone_at. reads_outside. Qed.

Lemma zone_at_Raise (data : list byte) (start : Z) (e : exn) :
  Aux.zone_at data start = Raise e → e = IndexError.
Proof. unfold Aux.zone_at. reads_only_IndexError. Qed.

Lemma area_at_inside (data : list byte) (start : Z) :
  0 ≤ start → start + 16 ≤ len data → ∃ w, Aux.area_at data start = Ok w.
Proof. intros. unfold Aux.area_at. reads_inside. Qed.

Lemma area_at_outside (data : list byte) (start : Z) :
  0 ≤ start → len data < start + 16 → Aux.area_at data start = Raise IndexError.
Proof. intros. unfold Aux.area_at. reads_outside. Qed.

Lemma area_at_Raise (data : list byte) (start : Z) (e : exn) :
  Aux.area_at data start = Raise e → e = IndexError.
Proof. unfold Aux.area_at. reads_only_IndexError. Qed.

Lemma parse_walls_collect (data header : list byte) (wall_pairs : Z) :
  _get_int16 header 0x08 = Ok wall_pairs →
  _parse_walls data header
  = Aux.collect (Aux.wall_at data) ((λ k, k * 8) <$> seqZ 0 wall_pairs).
Proof.
  intros Hp. unfold _parse_walls. rewrite Hp, bind_Ok.
  rewrite range3_records, bind_Ok by (apply get_int16_nonneg in Hp; lia).
  rewrite (for_each_collect_eq (Aux.wall_at data)).
  - by destruct (Aux.collect _ _).
  - intros start acc. unfold Aux.wall_at.
    repeat match goal with
           | |- context [_get_int16 ?d ?a ≫= _] =>
               destruct (_get_int16 d a); [rewrite !bind_Ok | reflexivity]
           end.
    reflexivity.
Qed.

Lemma parse_zones_collect (data header : list byte) (zone_pairs : Z) :
  _get_int16 header 0x08 = Ok zone_pairs →
  _parse_zones data header
  = Aux.collect (Aux.zone_at data) ((λ k, k * 8) <$> seqZ 0 zone_pairs).
Proof.
  intros Hp. unfold _parse_zones. rewrite Hp, bind_Ok.
  rewrite range3_records, bind_Ok by (apply get_int16_nonneg in Hp; lia).
  rewrite (for_each_collect_eq (Aux.zone_at data)).
  - by destruct (Aux.collect _ _).
  - intros start acc. unfold Aux.zone_at.
    repeat match goal with
           | |- context [_get_int16 ?d ?a ≫= _] =>
               destruct (_get_int16 d a); [rewrite !bind_Ok | reflexivity]
           end.
    reflexivity.
Qed.

Lemma parse_area_collect (header data : list byte) (area_pairs : Z) :
  _get_int16 header 0x08 = Ok area_pairs →
  _parse_area header data
  = Aux.collect (Aux.area_at data) ((λ k, k * 16) <$> seqZ 0 area_pairs).
Proof.
  intros Hp. unfold _parse_area. rewrite Hp, bind_Ok.
  rewrite range3_records, bind_Ok by (apply get_int16_nonneg in Hp; lia).
  rewrite (for_each_collect_eq (Aux.area_at data)).
  - by destruct (Aux.collect _ _).
  - intros start acc. unfold Aux.area_at.
    repeat match goal with
           | |- context [_get_int16 ?d ?a ≫= _] =>
               destruct (_get_int16 d a); [rewrite !bind_Ok | reflexivity]
           end.
    reflexivity.
Qed.

(** X7.  [_parse_walls] decodes exactly [wall_pairs] walls when the body
    holds [8 * wall_pairs] bytes: the k-th wall is made of the four 16-bit
    values at the offsets [8k], [8k + 2], [8k + 4], [8k + 6], each between 0
    and 65535.  With a shorter body it raises [IndexError]; bytes after the
    last record are ignored. *)
Theorem parse_walls_records (data header : list byte) (wall_pairs : Z) :
  _get_int16 header 0x08 = Ok wall_pairs →
  (wall_pairs * 8 ≤ len data →
     ∃ walls,
       _parse_walls data header = Ok walls
       ∧ len walls = wall_pairs
       ∧ ∀ k w, walls !! k = Some w →
           _get_int16 data (Z.of_nat k * 8 + 0) = Ok (wall_x0 w)
           ∧ _get_int16 data (Z.of_nat k * 8 + 2) = Ok (wall_y0 w)
           ∧ _get_int16 data (Z.of_nat k * 8 + 4) = Ok (wall_x1 w)
           ∧ _get_int16 data (Z.of_nat k * 8 + 6) = Ok (wall_y1 w)
           ∧ 0 ≤ wall_x0 w < 65536 ∧ 0 ≤ wall_y0 w < 65536
           ∧ 0 ≤ wall_x1 w < 65536 ∧ 0 ≤ wall_y1 w < 65536)
  ∧ (len data < wall_pairs * 8 → _parse_walls data header = Raise IndexError).
Proof.
  intros Hp. rewrite (parse_walls_collect _ _ _ Hp).
  destruct (records_decode (Aux.wall_at data) data wall_pairs 8)
    as [Hfit Hshort];
    [by eapply get_int16_nonneg | lia | apply wall_at_inside
    | apply wall_at_outside | apply wall_at_Raise |].
  split; [|exact Hshort].
  intros Hle. destruct (Hfit Hle) as (walls & Hw & Hlen & Hall).
  exists walls. split; [done|]. split; [done|].
  intros k w Hk. specialize (Hall k w Hk). unfold Aux.wall_at in Hall.
  bind_inv Hall. injection Hall as <-. simpl.
  repeat split; try done; eapply get_int16_range; eassumption.
Qed.

Lemma parse_walls_records_witness :
  ∃ walls,
    _parse_walls (bytes_of [1; 0; 2; 0; 3; 0; 4; 1; 9])
      (bytes_of [10; 0; 10; 0; 8; 0; 0; 0; 1; 0]) = Ok walls
    ∧ len walls = 1.
Proof.
  destruct (parse_walls_records (bytes_of [1; 0; 2; 0; 3; 0; 4; 1; 9])
              (bytes_of [10; 0; 10; 0; 8; 0; 0; 0; 1; 0]) 1)
    as [H _]; [reflexivity|].
  destruct H as (walls & Hw & Hlen & _); [vm_compute; discriminate|].
  by exists walls.
Defined.

(** X8.  [_parse_zones] decodes exactly [zone_pairs] zones when the body
    holds [8 * zone_pairs] bytes, the k-th from the four 16-bit values at
    [8k .. 8k + 6], and raises [IndexError] with a shorter body. *)
Theorem parse_zones_records (data header : list byte) (zone_pairs : Z) :
  _get_int16 header 0x08 = Ok zone_pairs →
  (zone_pairs * 8 ≤ len data →
     ∃ zones,
       _parse_zones data header = Ok zones
       ∧ len zones = zone_pairs
       ∧ ∀ k z, zones !! k = Some z →
           _get_int16 data (Z.of_nat k * 8 + 0) = Ok (zone_x0 z)
           ∧ _get_int16 data (Z.of_nat k * 8 + 2) = Ok (zone_y0 z)
           ∧ _get_int16 data (Z.of_nat k * 8 + 4) = Ok (zone_x1 z)
           ∧ _get_int16 data (Z.of_nat k * 8 + 6) = Ok (zone_y1 z))
  ∧ (len data < zone_pairs * 8 → _parse_zones data header = Raise IndexError).
Proof.
  intros Hp. rewrite (parse_zones_collect _ _ _ Hp).
  destruct (records_decode (Aux.zone_at data) data zone_pairs 8)
    as [Hfit Hshort];
    [by eapply get_int16_nonneg | lia | apply zone_at_inside
    | apply zone_at_outside | apply zone_at_Raise |].
  split; [|exact Hshort].
  intros Hle. destruct (Hfit Hle) as (zones & Hw & Hlen & Hall).
  exists zones. split; [done|]. split; [done|].
  intros k z Hk. specialize (Hall k z Hk). unfold Aux.zone_at in Hall.
  bind_inv Hall. injection Hall as <-. simpl. repeat split; done.
Qed.

Lemma parse_zones_records_witness :
  _parse_zones (bytes_of [1; 0; 2; 0; 3; 0; 4])
    (bytes_of [6; 0; 10; 0; 7; 0; 0; 0; 1; 0]) = Raise IndexError.
Proof.
  apply (parse_zones_records (bytes_of [1; 0; 2; 0; 3; 0; 4])
           (bytes_of [6; 0; 10; 0; 7; 0; 0; 0; 1; 0]) 1); reflexivity.
Defined.

(** X9.  [_parse_area] decodes exactly [area_pairs] areas when the body
    holds [16 * area_pairs] bytes, the k-th from the eight 16-bit values at
    [16k .. 16k + 14] (four corners, in the order stored), and raises
    [IndexError] with a shorter body. *)
Theorem parse_area_records (header data : list byte) (area_pairs : Z) :
  _get_int16 header 0x08 = Ok area_pairs →
  (area_pairs * 16 ≤ len data →
     ∃ areas,
       _parse_area header data = Ok areas
       ∧ len areas = area_pairs
       ∧ ∀ k r, areas !! k = Some r →
           _get_int16 data (Z.of_nat k * 16 + 0) = Ok (area_x0 r)
           ∧ _get_int16 data (Z.of_nat k * 16 + 2) = Ok (area_y0 r)
           ∧ _get_int16 data (Z.of_nat k * 16 + 4) = Ok (area_x1 r)
           ∧ _get_int16 data (Z.of_nat k * 16 + 6) = Ok (area_y1 r)
           ∧ _get_int16 data (Z.of_nat k * 16 + 8) = Ok (area_x2 r)
           ∧ _get_int16 data (Z.of_nat k * 16 + 10) = Ok (area_y2 r)
           ∧ _get_int16 data (Z.of_nat k * 16 + 12) = Ok (area_x3 r)
           ∧ _get_int16 data (Z.of_nat k * 16 + 14) = Ok (area_y3 r))
  ∧ (len data < area_pairs * 16 → _parse_area header data = Raise IndexError).
Proof.
  intros Hp. rewrite (parse_area_collect _ _ _ Hp).
  destruct (records_decode (Aux.area_at data) data area_pairs 16)
    as [Hfit Hshort];
    [by eapply get_int16_nonneg | lia | apply area_at_inside
    | apply area_at_outside | apply area_at_Raise |].
  split; [|exact Hshort].
  intros Hle. destruct (Hfit Hle) as (areas & Hw & Hlen & Hall).
  exists areas. split; [done|]. split; [done|].
  intros k r Hk. specialize (Hall k r Hk). unfold Aux.area_at in Hall.
  bind_inv Hall. injection Hall as <-. simpl. repeat split; done.
Qed.

Lemma parse_area_records_witness :
  ∃ areas,
    _parse_area (bytes_of [9; 0; 10; 0; 16; 0; 0; 0; 1; 0])
      (bytes_of [1; 0; 2; 0; 3; 0; 4; 0; 5; 0; 6; 0; 7; 0; 8; 0]) = Ok areas
    ∧ len areas = 1.
Proof.
  destruct (parse_area_records (bytes_of [9; 0; 10; 0; 16; 0; 0; 0; 1; 0])
              (bytes_of [1; 0; 2; 0; 3; 0; 4; 0; 5; 0; 6; 0; 7; 0; 8; 0]) 1)
    as [H _]; [reflexivity|].
  destruct H as (areas & Hw & Hlen & _); [vm_compute; discriminate|].
  by exists areas.
Defined.

(** ** Paths and the goto target *)

Lemma collect_fmap {A B C : Type} (g : B → result C) (f : A → B) (l : list A) :
  Aux.collect g (f <$> l) = Aux.collect (λ a, g (f a)) l.
Proof.
  induction l as [|a l IH]; [done|].
  rewrite fmap_cons. cbn [Aux.collect]. by rewrite IH.
Qed.

Lemma offsets_decode {B : Type} (g : Z → result B) (limit count width : Z) :
  0 ≤ count → 0 < width →
  (∀ off, 0 ≤ off → off + width ≤ limit → ∃ b, g off = Ok b) →
  (∀ off, 0 ≤ off → limit < off + width → g off = Raise IndexError) →
  (∀ off e, g off = Raise e → e = IndexError) →
  (count * width ≤ limit →
     ∃ bs, Aux.collect g ((λ k, k * width) <$> seqZ 0 count) = Ok bs
           ∧ len bs = count
           ∧ ∀ k b, bs !! k = Some b → g (Z.of_nat k * width) = Ok b)
  ∧ (1 ≤ count → limit < count * width →
       Aux.collect g ((λ k, k * width) <$> seqZ 0 count) = Raise IndexError).
Proof.
  intros Hc Hw Hin Hout Honly. split.
  - intros Hfit.
    destruct (collect_all g ((λ k, k * width) <$> seqZ 0 count)) as [bs Hbs].
    { intros start (k & -> & Hk)%list_elem_of_fmap. apply elem_of_seqZ in Hk.
      apply Hin; nia. }
    exists bs. split; [done|]. apply collect_Ok in Hbs as [Hlen Hall].
    split.
    + unfold len. rewrite Hlen, length_fmap, length_seqZ. lia.
    + intros k b Hb. eapply Hall; [|exact Hb].
      rewrite list_lookup_fmap, lookup_seqZ_lt; [done|].
      apply lookup_lt_Some in Hb.
      rewrite Hlen, length_fmap, length_seqZ in Hb. lia.
  - intros Hone Hshort.
    apply (collect_IndexError g _ ((count - 1) * width)); [done| |].
    + apply list_elem_of_fmap. exists (count - 1). split; [done|].
      apply elem_of_seqZ. lia.
    + apply Hout; [nia|].
      replace ((count - 1) * width + width) with (count * width) by ring. done.
Qed.

Lemma path_point_at_inside (raw : list byte) (pos : Z) :
  0 ≤ pos → pos + 4 ≤ len raw → ∃ p, Aux.path_point_at raw pos = Ok p.
Proof. intros. unfold Aux.path_point_at. reads_inside. Qed.

Lemma path_point_at_outside (raw : list byte) (pos : Z) :
  0 ≤ pos → len raw < pos + 4 → Aux.path_point_at raw pos = Raise IndexError.
Proof. intros. unfold Aux.path_point_at. reads_outside. Qed.

Lemma path_point_at_Raise (raw : list byte) (pos : Z) (e : exn) :
  Aux.path_point_at raw pos = Raise e → e = IndexError.
Proof. unfold Aux.path_point_at. reads_only_IndexError. Qed.

Lemma range3_step4 (start e : Z) :
  0 ≤ e →
  range3 start (start + e) 4 = Ok ((λ k, start + k * 4) <$> seqZ 0 ((e + 3) / 4)).
Proof.
  intros He. unfold range3. simpl (4 =? 0). simpl (0 <? 4). cbv iota.
  replace (start + e - start + 4 - 1) with (e + 3) by lia. reflexivity.
Qed.

Lemma parse_path_collect (block_start_position : Z) (header raw : list byte)
    (end_pos pl ps an : Z) :
  _get_int32 header 0x04 = Ok end_pos →
  _get_int32 header 0x08 = Ok pl →
  _get_int32 header 0x0C = Ok ps →
  _get_int32 header 0x10 = Ok an →
  _parse_path block_start_position header raw
  = (points ← Aux.collect
                (λ off, Aux.path_point_at raw (block_start_position + 0x14 + off))
                ((λ k, k * 4) <$> seqZ 0 ((end_pos + 3) / 4));
     mret {| point_length := pl; point_size := ps; angle := an;
             path := [points] |}).
Proof.
  intros He Hl Hs Ha. unfold _parse_path.
  rewrite He, Hl, Hs, Ha, !bind_Ok. cbv zeta.
  rewrite range3_step4, bind_Ok by by eapply get_int32_nonneg.
  rewrite (for_each_collect_eq (Aux.path_point_at raw)).
  - rewrite !collect_fmap.
    by destruct (Aux.collect _ _).
  - intros pos acc. unfold Aux.path_point_at.
    repeat match goal with
           | |- context [_get_int16 ?d ?a ≫= _] =>
               destruct (_get_int16 d a); [rewrite !bind_Ok | reflexivity]
           end.
    reflexivity.
Qed.

(** X10.  [_parse_path] returns the three header values as they are and a
    single polyline of [ceil(end_pos / 4)] points, the k-th read from the
    whole buffer at [block_start_position + 0x14 + 4k] (x) and two bytes
    further (y), without angle.  The last point is read in full even when
    [end_pos] is not a multiple of 4, and the decoder raises [IndexError]
    when the buffer ends before the last point. *)
Theorem parse_path_points (block_start_position : Z) (header raw : list byte)
    (end_pos pl ps an : Z) :
  0 ≤ block_start_position →
  _get_int32 header 0x04 = Ok end_pos →
  _get_int32 header 0x08 = Ok pl →
  _get_int32 header 0x0C = Ok ps →
  _get_int32 header 0x10 = Ok an →
  (block_start_position + 0x14 + (end_pos + 3) / 4 * 4 ≤ len raw →
     ∃ points,
       _parse_path block_start_position header raw
       = Ok {| point_length := pl; point_size := ps; angle := an;
               path := [points] |}
       ∧ len points = (end_pos + 3) / 4
       ∧ ∀ k p, points !! k = Some p →
           _get_int16 raw (block_start_position + 0x14 + Z.of_nat k * 4) = Ok (x p)
           ∧ _get_int16 raw (block_start_position + 0x14 + Z.of_nat k * 4 + 2)
             = Ok (y p)
           ∧ a p = None)
  ∧ (0 < end_pos →
     len raw < block_start_position + 0x14 + (end_pos + 3) / 4 * 4 →
     _parse_path block_start_position header raw = Raise IndexError).
Proof.
  intros Hb He Hl Hs Ha. rewrite (parse_path_collect _ _ _ _ _ _ _ He Hl Hs Ha).
  pose proof (get_int32_nonneg _ _ _ He) as Hnn.
  destruct (offsets_decode
              (λ off, Aux.path_point_at raw (block_start_position + 0x14 + off))
              (len raw - (block_start_position + 0x14)) ((end_pos + 3) / 4) 4)
    as [Hfit Hshort].
  - Z.div_mod_to_equations. lia.
  - lia.
  - intros off Ho Hle. apply path_point_at_inside; lia.
  - intros off Ho Hlt. apply path_point_at_outside; lia.
  - intros off e. apply path_point_at_Raise.
  - split.
    + intros Hle. destruct Hfit as (points & -> & Hlen & Hall); [lia|].
      exists points. rewrite bind_Ok. split; [done|]. split; [done|].
      intros k p Hk. specialize (Hall k p Hk). unfold Aux.path_point_at in Hall.
      bind_inv Hall. injection Hall as <-. simpl. repeat split; done.
    + intros Hpos Hlt. rewrite Hshort; [done| |lia].
      Z.div_mod_to_equations. lia.
Qed.

Lemma parse_path_points_witness :
  ∃ points,
    _parse_path 0
      (bytes_of [3; 0; 20; 0; 6; 0; 0; 0; 2; 0; 0; 0; 0; 0; 0; 0; 0; 0; 0; 0])
      (bytes_of [3; 0; 20; 0; 6; 0; 0; 0; 2; 0; 0; 0; 0; 0; 0; 0; 0; 0; 0; 0;
                 1; 0; 2; 0; 3; 0; 4; 0])
    = Ok {| point_length := 2; point_size := 0; angle := 0; path := [points] |}
    ∧ len points = 2.
Proof.
  destruct (parse_path_points 0
              (bytes_of [3; 0; 20; 0; 6; 0; 0; 0; 2; 0; 0; 0; 0; 0; 0; 0; 0; 0; 0; 0])
              (bytes_of [3; 0; 20; 0; 6; 0; 0; 0; 2; 0; 0; 0; 0; 0; 0; 0; 0; 0; 0; 0;
                         1; 0; 2; 0; 3; 0; 4; 0]) 6 2 0 0)
    as [H _]; [lia | reflexivity | reflexivity | reflexivity | reflexivity |].
  destruct H as (points & Hp & Hlen & _); [vm_compute; discriminate|].
  by exists points.
Defined.

(** X11.  [_parse_goto_target] needs 4 bytes: with them it returns the point
    of the two 16-bit values at offsets 0 and 2, both between 0 and 65535,
    without angle; with fewer it raises [IndexError]. *)
Theorem parse_goto_target_needs (data : list byte) :
  (4 ≤ len data →
     ∃ p, _parse_goto_target data = Ok p
          ∧ _get_int16 data 0 = Ok (x p) ∧ _get_int16 data 2 = Ok (y p)
          ∧ 0 ≤ x p < 65536 ∧ 0 ≤ y p < 65536 ∧ a p = None)
  ∧ (len data < 4 → _parse_goto_target data = Raise IndexError).
Proof.
  unfold _parse_goto_target. split.
  - intros Hlen.
    destruct (get_int16_inside data 0) as [vx Hx]; [lia | lia |].
    destruct (get_int16_inside data 2) as [vy Hy]; [lia | lia |].
    rewrite Hx, Hy, !bind_Ok. eexists. split; [reflexivity|]. simpl.
    repeat split; try done; eapply get_int16_range; eassumption.
  - intros Hlen.
    destruct (get_int16_cases data 0) as [[H0 [vx ->]]|[H0 ->]]; [lia| |done].
    rewrite bind_Ok. rewrite get_int16_outside by lia. reflexivity.
Qed.

Lemma parse_goto_target_needs_witness :
  _parse_goto_target (bytes_of [1; 2; 3]) = Raise IndexError.
Proof.
  apply (parse_goto_target_needs (bytes_of [1; 2; 3])). reflexivity.
Defined.

(** ** The carpet map *)

Lemma carpet_fold (l : list byte) :
  ∀ (k : Z) (acc : gset Z) (i : Z),
    i ∈ foldl (λ (carpet_map : gset Z) '(i, v),
                 if byte_val v =? 0 then carpet_map else carpet_map ∪ {[ i ]})
          acc (zip (seqZ k (len l)) l)
    ↔ i ∈ acc
      ∨ ∃ b, k ≤ i ∧ l !! Z.to_nat (i - k) = Some b ∧ byte_val b ≠ 0.
Proof.
  induction l as [|b l IH]; intros k acc i.
  - simpl. split; [by left|]. intros [?|(b & _ & Hb & _)]; [done|].
    by rewrite lookup_nil in Hb.
  - assert (len (b :: l) = Z.succ (len l)) as -> by (unfold len; simpl; lia).
    rewrite seqZ_cons, Z.pred_succ by (pose proof (len_nonneg l); lia).
    simpl. rewrite IH. clear IH.
    destruct (decide (i = k)) as [->|Hne].
    + rewrite Z.sub_diag. simpl.
      destruct (Z.eqb_spec (byte_val b) 0) as [Hz|Hnz].
      * split.
        -- intros [?|(b' & Hle & _)]; [by left | lia].
        -- intros [?|(b' & _ & [= <-] & ?)]; [by left | done].
      * split; [|intros _; left; set_solver].
        intros _. right. exists b. repeat split; [lia | done].
    + assert (i ∈ (if byte_val b =? 0 then acc else acc ∪ {[k]}) ↔ i ∈ acc)
        as Hacc.
      { destruct (byte_val b =? 0); [done|].
        rewrite elem_of_union, elem_of_singleton. tauto. }
      rewrite Hacc. apply or_iff_compat_l. split; intros (b' & Hle & Hb & Hnz).
      * exists b'. split; [lia|]. split; [|done].
        replace (Z.to_nat (i - k)) with (S (Z.to_nat (i - Z.succ k))) by lia.
        done.
      * exists b'. split; [lia|]. split; [|done].
        replace (Z.to_nat (i - k)) with (S (Z.to_nat (i - Z.succ k))) in Hb
          by lia.
        done.
Qed.

(** X12.  The carpet map is the set of the indices of the non-zero bytes of
    the block body: an index belongs to it exactly when the body has a byte
    at that index and the byte is not 0; the empty body gives the empty
    set. *)
Theorem parse_carpet_map_membership (data : list byte) (i : Z) :
  i ∈ _parse_carpet_map data
  ↔ ∃ b, 0 ≤ i ∧ data !! Z.to_nat i = Some b ∧ byte_val b ≠ 0.
Proof.
  unfold _parse_carpet_map, enumerate. rewrite carpet_fold, Z.sub_0_r.
  split; [intros [?|?]; [set_solver | done] | by right].
Qed.

(** ** Obstacles *)

Lemma parse_obstacles_collect (data header : list byte) (obstacle_pairs : Z) :
  _get_int16 header 0x08 = Ok obstacle_pairs →
  obstacle_pairs ≠ 0 → 0 < obstacle_size data obstacle_pairs →
  _parse_obstacles data header
  = Aux.collect (obstacle_at data (obstacle_size data obstacle_pairs))
      ((λ k, k * obstacle_size data obstacle_pairs) <$> seqZ 0 obstacle_pairs).
Proof.
  intros Hp Hne Hsize. unfold _parse_obstacles. rewrite Hp, bind_Ok.
  assert ((obstacle_pairs =? 0) = false) as -> by lia. cbv zeta.
  rewrite range3_records, bind_Ok by (apply get_int16_nonneg in Hp; lia).
  rewrite (for_each_collect_eq (obstacle_at data (obstacle_size data obstacle_pairs)));
    [|done].
  by destruct (Aux.collect _ _).
Qed.

Ltac fields_done :=
  simpl; repeat split; try done; try lia; try (by eexists);
  try (by intros [? [=]]).

Lemma obstacle_at_fields (data : list byte) (size start : Z) (o : Obstacle) :
  obstacle_at data size start = Ok o →
  _get_int16 data (start + 0) = Ok (obstacle_x o)
  ∧ _get_int16 data (start + 2) = Ok (obstacle_y o)
  ∧ (is_Some (type (details o)) ↔ 6 ≤ size)
  ∧ (is_Some (confidence_level (details o)) ↔ 10 ≤ size)
  ∧ (is_Some (photo_name (details o)) → size = 28)
  ∧ description (details o) = type (details o) ≫= (λ t, KNOWN_OBSTACLE_TYPES !! t).
Proof.
  unfold obstacle_at. intros H.
  apply bind_Ok_inv in H as (vx & Hx & H).
  apply bind_Ok_inv in H as (vy & Hy & H).
  apply bind_Ok_inv in H as (d & Hd & [= <-]). simpl.
  split; [done|]. split; [done|].
  assert (∀ d' : ObstacleDetails, Ok d = Ok d' → d = d') as Hinj
    by (by intros ? [= ->]).
  destruct (Z.leb_spec 6 size) as [H6|H6].
  - apply bind_Ok_inv in Hd as (t & Ht & Hd). cbv zeta in Hd.
    destruct (Z.leb_spec 10 size) as [H10|H10].
    + apply bind_Ok_inv in Hd as (u1 & Hu1 & Hd).
      apply bind_Ok_inv in Hd as (u2 & Hu2 & Hd). cbv zeta in Hd.
      destruct (Z.eqb_spec size 28) as [H28|H28].
      * apply bind_Ok_inv in Hd as (b & Hb & Hd).
        destruct (0 <? Z.land b 255).
        -- apply bind_Ok_inv in Hd as (txt & Htxt & [= <-]). fields_done.
        -- injection Hd as <-. fields_done.
      * injection Hd as <-. fields_done.
    + injection Hd as <-. fields_done.
  - injection Hd as <-. fields_done.
Qed.

(** X13.  In the result of [_parse_obstacles] the optional fields of every
    obstacle follow the record size [len(data) div count]: the type is set
    exactly when the size is at least 6, the confidence level exactly when
    it is at least 10, a photo name only for the size 28, and the
    description is the entry of the type in the table of known types when
    there is one (an unknown type keeps its code and has no description). *)
Theorem parse_obstacles_fields (data header : list byte) (obstacle_pairs : Z)
    (obstacles : list Obstacle) (o : Obstacle) :
  _get_int16 header 0x08 = Ok obstacle_pairs →
  _parse_obstacles data header = Ok obstacles →
  o ∈ obstacles →
  (is_Some (type (details o)) ↔ 6 ≤ obstacle_size data obstacle_pairs)
  ∧ (is_Some (confidence_level (details o))
     ↔ 10 ≤ obstacle_size data obstacle_pairs)
  ∧ (is_Some (photo_name (details o)) → obstacle_size data obstacle_pairs = 28)
  ∧ description (details o)
    = type (details o) ≫= (λ t, KNOWN_OBSTACLE_TYPES !! t).
Proof.
  intros Hp Hparse Ho.
  destruct (decide (obstacle_pairs = 0)) as [->|Hne].
  { unfold _parse_obstacles in Hparse. rewrite Hp, bind_Ok in Hparse.
    injection Hparse as <-. by apply elem_of_nil in Ho. }
  destruct (Z.lt_ge_cases 0 (obstacle_size data obstacle_pairs)) as [Hpos|Hz].
  - rewrite (parse_obstacles_collect _ _ _ Hp Hne Hpos) in Hparse.
    apply collect_Ok in Hparse as [Hlen Hall].
    apply list_elem_of_lookup in Ho as [k Hk].
    destruct (lookup_lt_is_Some_2
                ((λ k, k * obstacle_size data obstacle_pairs)
                   <$> seqZ 0 obstacle_pairs) k) as [start Hstart].
    { rewrite <- Hlen. by eapply lookup_lt_Some. }
    pose proof (Hall k start o Hstart Hk) as Hat.
    apply obstacle_at_fields in Hat. tauto.
  - pose proof (get_int16_nonneg _ _ _ Hp). pose proof (len_nonneg data).
    assert (obstacle_size data obstacle_pairs = 0) as Hzero.
    { unfold obstacle_size in *. pose proof (Z.quot_pos (len data) obstacle_pairs).
      lia. }
    unfold _parse_obstacles in Hparse. rewrite Hp, bind_Ok in Hparse.
    assert ((obstacle_pairs =? 0) = false) as Hb by lia.
    rewrite Hb in Hparse. cbv zeta in Hparse. rewrite Hzero in Hparse.
    discriminate.
Qed.

Lemma parse_obstacles_fields_witness :
  ∃ o, _parse_obstacles (bytes_of [1; 0; 2; 0; 3; 0; 7])
         (bytes_of [13; 0; 10; 0; 7; 0; 0; 0; 1; 0]) = Ok [o]
       ∧ type (details o) = Some 3
       ∧ description (details o) = Some "poop"%string
       ∧ confidence_level (details o) = None.
Proof.
  eexists. split; [reflexivity|].
  pose proof (parse_obstacles_fields (bytes_of [1; 0; 2; 0; 3; 0; 7])
                (bytes_of [13; 0; 10; 0; 7; 0; 0; 0; 1; 0]) 1 _ _
                eq_refl eq_refl (list_elem_of_here _ _)) as _.
  repeat split.
Defined.

Lemma decode_ascii_Ok (txt : list byte) :
  Forall (λ b, byte_val b < 128) txt →
  decode_ascii txt = Ok (String.string_of_list_byte txt).
Proof.
  intros Hall. unfold decode_ascii.
  assert (forallb (λ b, byte_val b <? 128) txt = true) as ->; [|done].
  apply forallb_forall. intros b Hb. apply Z.ltb_lt.
  rewrite Forall_forall in Hall. apply Hall. by apply list_elem_of_In.
Qed.

Lemma decode_ascii_Raise (txt : list byte) :
  Exists (λ b, 128 ≤ byte_val b) txt →
  decode_ascii txt = Raise UnicodeDecodeError.
Proof.
  intros Hex. unfold decode_ascii.
  destruct (forallb _ txt) eqn:Hall; [|done].
  apply Exists_exists in Hex as (b & Hb & Hge).
  rewrite forallb_forall in Hall.
  specialize (Hall b (proj1 (list_elem_of_In _ _) Hb)).
  apply Z.ltb_lt in Hall. lia.
Qed.

(** X14.  In a record of 28 bytes the photo name is governed by the byte at
    offset 12: when it is 0 the obstacle has no photo name; when it is not,
    the 16 bytes from offset 12 are decoded as ASCII, so the name is exactly
    those 16 bytes when all are below 128, and one byte of 128 or more makes
    the decoder raise [UnicodeDecodeError]. *)
Theorem obstacle_photo_name (data : list byte) (start first : Z) :
  0 ≤ start → start + 28 ≤ len data →
  getitem data (start + 12) = Ok first →
  (first = 0 →
     ∃ o, obstacle_at data 28 start = Ok o ∧ photo_name (details o) = None)
  ∧ (first ≠ 0 →
     Forall (λ b, byte_val b < 128) (_get_bytes data (start + 12) 16) →
     ∃ o name,
       obstacle_at data 28 start = Ok o
       ∧ photo_name (details o) = Some name
       ∧ String.list_byte_of_string name = _get_bytes data (start + 12) 16
       ∧ len (_get_bytes data (start + 12) 16) = 16)
  ∧ (first ≠ 0 →
     Exists (λ b, 128 ≤ byte_val b) (_get_bytes data (start + 12) 16) →
     obstacle_at data 28 start = Raise UnicodeDecodeError).
Proof.
  intros Hs Hlen Hfirst.
  assert (0 ≤ first < 256) as Hrange
    by (apply getitem_Ok_byte in Hfirst as (b & ->); apply byte_val_range).
  assert (Z.land first 255 = first) as Hland
    by (rewrite land_255_mod; by apply Z.mod_small).
  unfold obstacle_at.
  destruct (get_int16_inside data (start + 0)) as [vx ->]; [lia | lia |].
  destruct (get_int16_inside data (start + 2)) as [vy ->]; [lia | lia |].
  destruct (get_int16_inside data (start + 4)) as [vt ->]; [lia | lia |].
  destruct (get_int16_inside data (start + 6)) as [u1 ->]; [lia | lia |].
  destruct (get_int16_inside data (start + 8)) as [u2 ->]; [lia | lia |].
  rewrite !bind_Ok. change (6 <=? 28) with true. change (10 <=? 28) with true.
  change (28 =? 28) with true.
  cbv iota zeta. rewrite ?bind_Ok, Hfirst, !bind_Ok, Hland.
  repeat split.
  - intros ->. simpl. eexists. split; reflexivity.
  - intros Hnz Hascii. assert ((0 <? first) = true) as -> by lia.
    rewrite (decode_ascii_Ok _ Hascii), !bind_Ok.
    eexists _, _. split; [reflexivity|]. simpl. split; [reflexivity|].
    split; [apply String.list_byte_of_string_of_list_byte|].
    rewrite len_get_bytes by lia. lia.
  - intros Hnz Hbad. assert ((0 <? first) = true) as -> by lia.
    by rewrite (decode_ascii_Raise _ Hbad).
Qed.

Lemma obstacle_photo_name_witness :
  ∃ o, obstacle_at
         (bytes_of [1; 0; 2; 0; 3; 0; 4; 0; 5; 0; 0; 0;
                    97; 98; 99; 100; 101; 102; 103; 104;
                    105; 106; 107; 108; 109; 110; 111; 112]) 28 0 = Ok o
       ∧ photo_name (details o) = Some "abcdefghijklmnop"%string.
Proof.
  destruct (obstacle_photo_name
              (bytes_of [1; 0; 2; 0; 3; 0; 4; 0; 5; 0; 0; 0;
                         97; 98; 99; 100; 101; 102; 103; 104;
                         105; 106; 107; 108; 109; 110; 111; 112]) 0 97)
    as (_ & _ & _); [lia | vm_compute; discriminate | reflexivity |].
  eexists. split; reflexivity.
Defined.

(** ** More on the mop path *)

Lemma concat_run_if_any (run : list Point) : concat (Spec.run_if_any run) = run.
Proof. destruct run; simpl; [done|]. by rewrite app_nil_r. Qed.

Lemma concat_runs_from (run points : list Point) (mask : list byte) :
  length mask = length points →
  concat (Spec.runs_from run points mask) = run ++ Aux.marked_points points mask.
Proof.
  revert run mask. induction points as [|p points IH]; intros run mask Hlen.
  - destruct mask; [|discriminate]. simpl.
    by rewrite concat_run_if_any, app_nil_r.
  - destruct mask as [|m mask]; [discriminate|]. injection Hlen as Hlen.
    unfold Aux.marked_points. simpl.
    destruct (Z.eqb_spec (byte_val m) 0) as [Hz|Hnz].
    + rewrite concat_app, concat_run_if_any, IH by done.
      rewrite filter_cons_False by (simpl; lia). done.
    + rewrite IH by done.
      rewrite filter_cons_True by (simpl; lia). simpl.
      by rewrite <- app_assoc.
Qed.

Lemma total_points_concat (runs : list (list Point)) :
  Spec.total_points runs = len (concat runs).
Proof.
  unfold Spec.total_points, len. induction runs as [|r runs IH]; [done|].
  simpl. rewrite IH, length_app. lia.
Qed.

(** X15.  The mop path holds exactly the points of the path whose mask byte
    is non-zero, in their order: the polylines of the result, put end to
    end, are the marked points, and the point count is their number. *)
Theorem parse_mop_path_marked_points (p : Path) (points : list Point)
    (mask : list byte) :
  path p = [points] → length mask = length points →
  ∃ polylines,
    _parse_mop_path p mask
    = Ok {| point_length := len (Aux.marked_points points mask);
            point_size := point_size p; angle := angle p; path := polylines |}
    ∧ concat polylines = Aux.marked_points points mask.
Proof.
  intros Hpath Hlen.
  destruct (parse_mop_path_polylines p points mask Hpath Hlen)
    as (tail & Hp & Htail & _).
  eexists. split.
  - rewrite Hp. do 2 f_equal. unfold Spec.maximal_runs.
    by rewrite total_points_concat, concat_runs_from.
  - rewrite concat_app. unfold Spec.maximal_runs.
    rewrite concat_runs_from by done.
    destruct Htail as [-> | ->]; simpl; by rewrite app_nil_r.
Qed.

Lemma parse_mop_path_marked_points_witness :
  ∃ polylines,
    _parse_mop_path (plain_path [point 0; point 1; point 2]) (bytes_of [0; 5; 0])
    = Ok {| point_length := 1; point_size := 0; angle := 0; path := polylines |}
    ∧ concat polylines = [point 1].
Proof.
  destruct (parse_mop_path_marked_points
              (plain_path [point 0; point 1; point 2])
              [point 0; point 1; point 2] (bytes_of [0; 5; 0]))
    as (polylines & Hp & Hc); [reflexivity | reflexivity |].
  exists polylines. split; [exact Hp | exact Hc].
Defined.

Lemma for_each_app {A S : Type} (body : A → S → result S) (l1 l2 : list A) (s : S) :
  for_each body (l1 ++ l2) s
  = match for_each body l1 s with
    | Ok s' => for_each body l2 s'
    | Raise e => Raise e
    end.
Proof.
  revert s. induction l1 as [|a l1 IH]; intros s; [done|].
  simpl. destruct (body a s); [apply IH | done].
Qed.

Lemma enumerate_app {A : Type} (l1 l2 : list A) :
  enumerate (l1 ++ l2) = enumerate l1 ++ zip (seqZ (len l1) (len l2)) l2.
Proof.
  unfold enumerate.
  assert (len (l1 ++ l2) = len l1 + len l2) as ->
    by (unfold len; rewrite length_app; lia).
  rewrite seqZ_app by apply len_nonneg.
  rewrite zip_with_app; [done|].
  rewrite length_seqZ. unfold len. lia.
Qed.

(** X16.  A mask with fewer bytes than the polyline has points makes
    [_parse_mop_path] raise [IndexError]: the points that have a mask byte
    are processed, and the first point without one fails the lookup
    [mask[i]]. *)
Theorem parse_mop_path_short_mask (p : Path) (points : list Point)
    (mask : list byte) :
  path p = [points] → (length mask < length points)%nat →
  _parse_mop_path p mask = Raise IndexError.
Proof.
  intros Hpath Hlen. unfold _parse_mop_path. rewrite Hpath.
  cbn [for_each]. unfold mop_each_path at 1. cbn [points_num mop_paths].
  rewrite <- (take_drop (length mask) points), enumerate_app.
  rewrite for_each_app.
  destruct (mop_points_suffix (take (length mask) points) [] mask
              {| points_num := 0; mop_paths := []; mop_path_points := [] |})
    as (s' & Hloop & _); [rewrite length_take; lia | by left |].
  change (len (@nil byte)) with 0 in Hloop. change ([] ++ mask) with mask in Hloop.
  unfold enumerate. rewrite Hloop.
  destruct (drop (length mask) points) as [|q rest] eqn:Hdrop.
  { apply (f_equal length) in Hdrop. rewrite length_drop in Hdrop.
    simpl in Hdrop. lia. }
  assert (len (q :: rest) = Z.succ (len rest)) as ->
    by (unfold len; simpl; lia).
  rewrite seqZ_cons by (pose proof (len_nonneg rest); lia).
  simpl zip. cbn [for_each]. unfold mop_point at 1.
  rewrite (getitem_outside mask (len (take (length mask) points)));
    [reflexivity|].
  right. unfold len. rewrite length_take. lia.
Qed.

Lemma parse_mop_path_short_mask_witness :
  _parse_mop_path (plain_path [point 0; point 1; point 2]) (bytes_of [1; 1])
  = Raise IndexError.
Proof.
  apply (parse_mop_path_short_mask (plain_path [point 0; point 1; point 2])
           [point 0; point 1; point 2] (bytes_of [1; 1]));
    [reflexivity | simpl; lia].
Defined.

(** ** The room boxes returned by the image parser *)

Lemma encloses_trans (b3 b2 b1 : Z * Z * Z * Z) :
  Spec.encloses b3 b2 → Spec.encloses b2 b1 → Spec.encloses b3 b1.
Proof.
  destruct b3 as [[[? ?] ?] ?], b2 as [[[? ?] ?] ?], b1 as [[[? ?] ?] ?].
  simpl. lia.
Qed.

Lemma encloses_contains (new old : Z * Z * Z * Z) (px py : Z) :
  Spec.encloses new old → Aux.box_contains old px py → Aux.box_contains new px py.
Proof.
  destruct new as [[[? ?] ?] ?], old as [[[? ?] ?] ?]. simpl. lia.
Qed.

Lemma accumulate_encloses (rooms : gmap Z (Z * Z * Z * Z))
    (seen : list (Z * Z * Z)) (n : Z) (box : Z * Z * Z * Z) :
  rooms !! n = Some box →
  ∃ box', Spec.accumulate rooms seen !! n = Some box' ∧ Spec.encloses box' box.
Proof.
  revert rooms box. induction seen as [|[[m px] py] seen IH]; intros rooms box Hbox.
  - exists box. split; [done|]. destruct box as [[[? ?] ?] ?]. simpl. lia.
  - rewrite accumulate_cons.
    destruct (update_room_encloses rooms n m px py box Hbox) as (box1 & H1 & He1).
    destruct (IH _ _ H1) as (box' & H' & He').
    exists box'. split; [done|]. by eapply encloses_trans.
Qed.

Lemma accumulate_contains (rooms : gmap Z (Z * Z * Z * Z))
    (seen : list (Z * Z * Z)) (n px py : Z) :
  (n, px, py) ∈ seen →
  ∃ box, Spec.accumulate rooms seen !! n = Some box ∧ Aux.box_contains box px py.
Proof.
  revert rooms. induction seen as [|[[m qx] qy] seen IH]; intros rooms Hin.
  - by apply elem_of_nil in Hin.
  - rewrite accumulate_cons. apply elem_of_cons in Hin as [[= <- <- <-]|Hin];
      [|by apply IH].
    assert (∃ box1, update_room rooms n px py !! n = Some box1
                    ∧ Aux.box_contains box1 px py) as (box1 & H1 & Hc1).
    { rewrite lookup_update_room. destruct (decide (n = n)); [|done].
      eexists. split; [reflexivity|]. unfold Spec.extend.
      destruct (rooms !! n) as [[[[? ?] ?] ?]|]; simpl; lia. }
    destruct (accumulate_encloses _ seen n box1 H1) as (box' & H' & He').
    exists box'. split; [done|]. by eapply encloses_contains.
Qed.

Lemma accumulate_empty_is_Some (seen : list (Z * Z * Z)) (n : Z) :
  is_Some (Spec.accumulate ∅ seen !! n) ↔ ∃ px py, (n, px, py) ∈ seen.
Proof.
  rewrite accumulate_bounding_box. unfold Spec.pixels_of. split.
  - intros [box Hbox].
    destruct (omap _ seen) as [|[px py] pts] eqn:Hpts; [discriminate|].
    assert ((px, py) ∈ omap
              (λ '(n0, room_x, room_y),
                 if decide (n0 = n) then Some (room_x, room_y) else None) seen)
      as Hin by (rewrite Hpts; by left).
    apply list_elem_of_omap in Hin as ([[m qx] qy] & Hin & Hsome).
    destruct (decide (m = n)) as [->|]; [|discriminate].
    injection Hsome as -> ->. eauto.
  - intros (px & py & Hin).
    assert ((px, py) ∈ omap
              (λ '(n0, room_x, room_y),
                 if decide (n0 = n) then Some (room_x, room_y) else None) seen)
      as Hin'.
    { apply list_elem_of_omap. exists (n, px, py). split; [done|].
      by destruct (decide (n = n)). }
    destruct (omap _ seen) as [|[qx qy] pts]; [by apply elem_of_nil in Hin'|].
    by eexists.
Qed.

Lemma foldr_min_in (a : Z) (l : list Z) : foldr Z.min a l ∈ a :: l.
Proof.
  induction l as [|b l IH]; simpl; [by left|].
  destruct (Z.min_spec b (foldr Z.min a l)) as [[_ ->]|[_ ->]].
  - right. by left.
  - apply elem_of_cons in IH as [->|IH]; [by left|]. right. by right.
Qed.

Lemma foldr_max_in (a : Z) (l : list Z) : foldr Z.max a l ∈ a :: l.
Proof.
  induction l as [|b l IH]; simpl; [by left|].
  destruct (Z.max_spec b (foldr Z.max a l)) as [[_ ->]|[_ ->]].
  - apply elem_of_cons in IH as [->|IH]; [by left|]. right. by right.
  - right. by left.
Qed.

Lemma bounding_box_attained (pts : list (Z * Z)) (x0 y0 x1 y1 : Z) :
  Spec.bounding_box pts = Some (x0, y0, x1, y1) →
  (∃ y, (x0, y) ∈ pts) ∧ (∃ x, (x, y0) ∈ pts)
  ∧ (∃ y, (x1, y) ∈ pts) ∧ (∃ x, (x, y1) ∈ pts).
Proof.
  destruct pts as [|p rest]; [discriminate|]. simpl. intros [= <- <- <- <-].
  pose proof (foldr_min_in p.1 rest.*1) as H0.
  pose proof (foldr_min_in p.2 rest.*2) as H1.
  pose proof (foldr_max_in p.1 rest.*1) as H2.
  pose proof (foldr_max_in p.2 rest.*2) as H3.
  change (p.1 :: rest.*1) with ((p :: rest).*1) in H0, H2.
  change (p.2 :: rest.*2) with ((p :: rest).*2) in H1, H3.
  apply list_elem_of_fmap in H0 as ([qx qy] & E0 & H0).
  apply list_elem_of_fmap in H1 as ([rx ry] & E1 & H1).
  apply list_elem_of_fmap in H2 as ([sx sy] & E2 & H2).
  apply list_elem_of_fmap in H3 as ([tx ty] & E3 & H3).
  simpl in E0, E1, E2, E3. rewrite E0, E1, E2, E3. eauto 10.
Qed.

Lemma elem_of_pixels_of (n px py : Z) (seen : list (Z * Z * Z)) :
  (px, py) ∈ Spec.pixels_of n seen ↔ (n, px, py) ∈ seen.
Proof.
  unfold Spec.pixels_of. rewrite list_elem_of_omap. split.
  - intros ([[m qx] qy] & Hin & Hsome).
    destruct (decide (m = n)) as [->|]; [|discriminate].
    by injection Hsome as -> ->.
  - intros Hin. exists (n, px, py). split; [done|].
    by destruct (decide (n = n)).
Qed.

Lemma room_pixels_registered (raw_data : list byte) (carpet_map : option (gset Z))
    (width trim_left trim_bottom trimmed_width trimmed_height n px py : Z) :
  (n, px, py) ∈ Spec.room_pixels raw_data carpet_map width trim_left trim_bottom
                  trimmed_width trimmed_height
  ↔ Aux.registered raw_data carpet_map width trim_left trim_bottom trimmed_width
      trimmed_height n px py.
Proof.
  unfold Spec.room_pixels, Spec.room_pixels_of_row, range, Aux.registered.
  rewrite list_elem_of_bind. split.
  - intros (img_y & Hin & Hy). apply elem_of_seqZ in Hy.
    apply list_elem_of_bind in Hin as (img_x & Hin & Hx).
    apply elem_of_seqZ in Hx. unfold Spec.room_pixel_at in Hin.
    destruct (getitem raw_data _) as [pixel_type|e] eqn:Hget;
      [|by apply elem_of_nil in Hin].
    destruct (in_carpet_map _ _ && _) eqn:Hcarpet;
      [by apply elem_of_nil in Hin|].
    destruct (pixel_category pixel_type) as [| | | | | |m|] eqn:Hcat;
      try by apply elem_of_nil in Hin.
    apply list_elem_of_singleton in Hin as [= -> -> ->].
    exists img_x, img_y, pixel_type. repeat split; (lia || done).
  - intros (img_x & img_y & pixel_type & Hx & Hy & Hget & Hcarpet & Hcat & -> & ->).
    exists img_y. split; [|apply elem_of_seqZ; lia].
    apply list_elem_of_bind. exists img_x. split; [|apply elem_of_seqZ; lia].
    unfold Spec.room_pixel_at. rewrite Hget, Hcarpet, Hcat. by left.
Qed.

Section RoomsOfParse.

Context {Color : Type}.
Variable cached_colors : SupportedColor.t → Color.
Variable get_room_color : Z → Color.
Variable resize : Z * Z → Image Color → Image Color.

(** [parse] is its lines 37-91 run on the offsets of lines 33-36. *)
Lemma parse_with_trims_eq (image_config : ImageConfig) (cache : gmap Z Color)
    raw_data width height carpet_map :
  RoborockImageParser.parse cached_colors get_room_color resize image_config
    cache raw_data width height carpet_map
  = Aux.parse_with_trims cached_colors get_room_color resize (scale image_config)
      cache raw_data width height
      (percent_of (left (trim image_config)) width)
      (percent_of (right (trim image_config)) width)
      (percent_of (top (trim image_config)) height)
      (percent_of (bottom (trim image_config)) height)
      carpet_map.
Proof. reflexivity. Qed.

Lemma parse_with_trims_rooms (scale : Q) (cache : gmap Z Color) raw_data
    width height trim_left trim_right trim_top trim_bottom carpet_map
    image rooms' cache' :
  Aux.parse_with_trims cached_colors get_room_color resize scale cache raw_data
    width height trim_left trim_right trim_top trim_bottom carpet_map
  = Ok (Some image, rooms', cache') →
  rooms' = Spec.accumulate ∅
             (Spec.room_pixels raw_data carpet_map width trim_left trim_bottom
                (width - trim_left - trim_right) (height - trim_top - trim_bottom)).
Proof.
  unfold Aux.parse_with_trims. cbv zeta.
  destruct (Image_new _) as [img|e]; [|discriminate]. rewrite bind_Ok.
  destruct ((width =? 0) || (height =? 0)); [discriminate|].
  intros H. apply bind_Ok_inv in H as (s & Hloop & [= _ <- _]).
  eapply (loop_effect get_room_color) in Hloop as [Hrooms _]; [exact Hrooms|].
  intros img_y t t'. apply row_body_effect.
Qed.

(** X17.  When lines 37-91 of [parse] return an image, the room mapping has
    an entry for the room [n] exactly when the loops registered a pixel for
    it, that is met a floor pixel of room [n] that is not painted as carpet
    (a floor pixel painted as carpet is skipped by the test of line 51 and
    does not count), and the box of the room is the bounding box of the
    registered pixels: it contains each of them, in the stored coordinates
    [img_x + trim_left], [img_y + trim_bottom], and each of its four sides
    passes through one.  This holds for the trim offsets as computed at
    lines 33-36, whatever their values. *)
Theorem parse_rooms_contain_pixels (scale : Q) (cache : gmap Z Color) raw_data
    width height trim_left trim_right trim_top trim_bottom carpet_map (n : Z)
    image rooms' cache' :
  let trimmed_height := height - trim_top - trim_bottom in
  let trimmed_width := width - trim_left - trim_right in
  let registered :=
    Aux.registered raw_data carpet_map width trim_left trim_bottom
      trimmed_width trimmed_height n in
  Aux.parse_with_trims cached_colors get_room_color resize scale cache raw_data
    width height trim_left trim_right trim_top trim_bottom carpet_map
  = Ok (Some image, rooms', cache') →
  (is_Some (rooms' !! n) ↔ ∃ room_x room_y, registered room_x room_y)
  ∧ (∀ room_x room_y, registered room_x room_y →
       ∃ box, rooms' !! n = Some box ∧ Aux.box_contains box room_x room_y)
  ∧ (∀ x0 y0 x1 y1, rooms' !! n = Some (x0, y0, x1, y1) →
       (∃ room_y, registered x0 room_y) ∧ (∃ room_x, registered room_x y0)
       ∧ (∃ room_y, registered x1 room_y) ∧ (∃ room_x, registered room_x y1)).
Proof.
  intros trimmed_height trimmed_width registered H.
  apply parse_with_trims_rooms in H as ->.
  fold trimmed_height trimmed_width. unfold registered.
  split; [|split].
  - rewrite accumulate_empty_is_Some.
    by setoid_rewrite room_pixels_registered.
  - intros room_x room_y Hreg. apply accumulate_contains.
    by apply room_pixels_registered.
  - intros x0 y0 x1 y1 Hbox. rewrite accumulate_bounding_box in Hbox.
    apply bounding_box_attained in Hbox as ([y H0] & [x H1] & [y' H2] & [x' H3]).
    apply elem_of_pixels_of, room_pixels_registered in H0, H1, H2, H3.
    eauto 10.
Qed.

End RoomsOfParse.

Section Rooms.

Context {Color : Type}.
Variable cached_colors : SupportedColor.t → Color.
Variable get_room_color : Z → Color.
Variable resize : Z * Z → Image Color → Image Color.
Variable image_config : ImageConfig.

Abbreviation parse :=
  (RoborockImageParser.parse cached_colors get_room_color resize image_config).

Lemma get_room_at_pixel_Some (raw_data : list byte) (width x y n : Z) :
  get_room_at_pixel raw_data width x y = Ok (Some n) →
  ∃ pixel_type, getitem raw_data (x + width * y) = Ok pixel_type
                ∧ pixel_category pixel_type = RoomFloor n.
Proof.
  intros H. unfold get_room_at_pixel in H.
  apply bind_Ok_inv in H as (pixel_type & Hget & H).
  exists pixel_type. split; [done|].
  pose proof (room_test_is_category pixel_type) as Hcat.
  destruct (negb _); [destruct (_ =? 7)|]; injection H as H;
    rewrite H in Hcat || rewrite <- H in Hcat;
    destruct (pixel_category pixel_type); congruence.
Qed.

(** X18.  The two entry points of the image parser agree: without trimming
    and without carpet map, when [get_room_at_pixel] finds room [n] at a
    pixel [(x, y)] of the image, the mapping returned by [parse] for the
    same buffer has a box for room [n] and the box contains [(x, y)]. *)
Theorem room_at_pixel_in_parsed_box (cache : gmap Z Color) raw_data width height
    (x y n : Z) image rooms' cache' :
  trim image_config = {| left := 0; right := 0; top := 0; bottom := 0 |} →
  parse cache raw_data width height None = Ok (image, rooms', cache') →
  0 ≤ x < width → 0 ≤ y < height →
  get_room_at_pixel raw_data width x y = Ok (Some n) →
  ∃ box, rooms' !! n = Some box ∧ Aux.box_contains box x y.
Proof.
  intros Htrim Hparse Hx Hy Hroom.
  apply get_room_at_pixel_Some in Hroom as (pixel_type & Hget & Hcat).
  apply parse_effect in Hparse as [-> _].
  apply accumulate_contains. unfold Spec.seen_by_parse. rewrite Htrim. simpl.
  change (percent_of 0 width) with 0. change (percent_of 0 height) with 0.
  assert (((width =? 0) || (height =? 0)) = false) as ->
    by (apply orb_false_iff; lia).
  rewrite !Z.sub_0_r. unfold Spec.room_pixels.
  apply list_elem_of_bind. exists y. split; [|apply elem_of_seqZ; lia].
  unfold Spec.room_pixels_of_row.
  apply list_elem_of_bind. exists x. split; [|apply elem_of_seqZ; lia].
  unfold Spec.room_pixel_at. rewrite idx_unfold.
  replace (x + (0 + width) * (y + 0)) with (x + width * y) by lia.
  rewrite Hget. simpl. rewrite Hcat, !Z.add_0_r. by left.
Qed.

End Rooms.

Lemma parse_rooms_contain_pixels_witness :
  ∃ image rooms' cache',
    Aux.parse_with_trims plain_palette plain_room_color no_resize 1 ∅
      (bytes_of [15; 23]) 2 1 0 0 0 0 (Some {[ 1 ]})
    = Ok (Some image, rooms', cache')
    ∧ is_Some (rooms' !! 1)
    ∧ rooms' !! 2 = None.
Proof.
  eexists _, _, _. split; [vm_compute; reflexivity|]. split.
  - edestruct (parse_rooms_contain_pixels plain_palette plain_room_color
                 no_resize 1 ∅ (bytes_of [15; 23]) 2 1 0 0 0 0 (Some {[ 1 ]}) 1)
      as (Hdom & _ & _); [vm_compute; reflexivity|].
    apply Hdom. exists 0, 0, 0, 0, 15. vm_compute. repeat split; congruence.
  - vm_compute. reflexivity.
Defined.

Lemma room_at_pixel_in_parsed_box_witness :
  ∃ image rooms' cache' box,
    RoborockImageParser.parse plain_palette plain_room_color no_resize
      no_trim_config ∅ (bytes_of [255; 255; 255; 0x1F]) 2 2 None
    = Ok (image, rooms', cache')
    ∧ rooms' !! 3 = Some box ∧ Aux.box_contains box 1 1.
Proof.
  edestruct (room_at_pixel_in_parsed_box plain_palette plain_room_color
               no_resize no_trim_config ∅ (bytes_of [255; 255; 255; 0x1F]) 2 2
               1 1 3)
    as (box & Hbox & Hin);
    [reflexivity | vm_compute; reflexivity | lia | lia | reflexivity |].
  eexists _, _, _, box. split; [vm_compute; reflexivity|]. by split.
Defined.

(** ** The raster painted by the image parser *)

Section Raster.

Context {Color : Type}.
Variable cached_colors : SupportedColor.t → Color.
Variable get_room_color : Z → Color.
Variable resize : Z * Z → Image Color → Image Color.
Variable image_config : ImageConfig.
Variables (raw_data : list byte) (carpet_map : option (gset Z)).
Variables (width trim_left trim_bottom trimmed_height : Z).

Abbreviation color_with cache :=
  (Aux.pixel_color cached_colors cache raw_data carpet_map width trim_left
     trim_bottom trimmed_height).

Abbreviation painted_as_expected :=
  (Aux.painted_as_expected cached_colors raw_data carpet_map width trim_left
     trim_bottom trimmed_height).

Lemma pixel_color_mono (cache cache' : gmap Z Color) (x y : Z) (c : Color) :
  cache ⊆ cache' → color_with cache x y = Some c → color_with cache' x y = Some c.
Proof.
  intros Hsub. unfold Aux.pixel_color.
  destruct (getitem raw_data _); [|done].
  destruct (in_carpet_map _ _ && _); [done|].
  destruct (pixel_category _); try done.
  intros H. by eapply lookup_weaken.
Qed.

Lemma pixel_body_raster (img_y img_x : Z) (s s' : parse_state) :
  pixel_body cached_colors get_room_color raw_data carpet_map width trim_left
    trim_bottom trimmed_height img_y img_x s = Ok s' →
  cached_room_colors s ⊆ cached_room_colors s'
  ∧ ∃ c, image_pixels s'
         = <[(img_x, trimmed_height - img_y - 1) := c]> (image_pixels s)
         ∧ color_with (cached_room_colors s') img_x (trimmed_height - img_y - 1)
           = Some c.
Proof.
  unfold RoborockImageParser.pixel_body, Aux.pixel_color.
  replace (trimmed_height - 1 - (trimmed_height - img_y - 1)) with img_y by lia.
  destruct (getitem raw_data _) as [pixel_type|e]; [|discriminate].
  rewrite bind_Ok. cbv zeta.
  destruct (in_carpet_map _ _ && _).
  { intros [= <-]. split; [done|]. by eexists. }
  destruct (pixel_category pixel_type) as [| | | | | |room_number|];
    try (intros [= <-]; split; [done|]; by eexists).
  unfold room_pixel, set_pixel. simpl.
  destruct (cached_room_colors s !! room_number) as [c|] eqn:Hc;
    intros [= <-]; simpl.
  - split; [done|]. by exists c.
  - split; [by apply insert_subseteq|].
    exists (get_room_color room_number). split; [done|].
    apply lookup_insert_eq.
Qed.

Lemma loop_raster {A : Type} (body : A → parse_state → result parse_state)
    (pos : A → list (Z * Z)) (l : list A) (s s' : parse_state) :
  (∀ a s s', body a s = Ok s' →
     cached_room_colors s ⊆ cached_room_colors s'
     ∧ (painted_as_expected s → painted_as_expected s')
     ∧ dom (image_pixels s') = list_to_set (pos a) ∪ dom (image_pixels s)) →
  for_each body l s = Ok s' →
  cached_room_colors s ⊆ cached_room_colors s'
  ∧ (painted_as_expected s → painted_as_expected s')
  ∧ dom (image_pixels s') = list_to_set (l ≫= pos) ∪ dom (image_pixels s).
Proof.
  intros Hbody. revert s. induction l as [|a l IH]; intros s H.
  - injection H as <-. split; [done|]. split; [done|]. set_solver.
  - apply for_each_cons in H as (s1 & H1 & H).
    destruct (Hbody a s s1 H1) as (Hsub1 & Hp1 & Hd1).
    destruct (IH s1 H) as (Hsub & Hp & Hd).
    split; [by etransitivity|]. split; [tauto|].
    rewrite Hd, Hd1, bind_cons, list_to_set_app_L. set_solver.
Qed.

Lemma pixel_body_step (img_y img_x : Z) (s s' : parse_state) :
  pixel_body cached_colors get_room_color raw_data carpet_map width trim_left
    trim_bottom trimmed_height img_y img_x s = Ok s' →
  cached_room_colors s ⊆ cached_room_colors s'
  ∧ (painted_as_expected s → painted_as_expected s')
  ∧ dom (image_pixels s')
    = list_to_set [(img_x, trimmed_height - img_y - 1)] ∪ dom (image_pixels s).
Proof.
  intros H. apply pixel_body_raster in H as (Hsub & c & Hpix & Hcol).
  split; [done|]. split.
  - intros Hs x y c' Hlook. rewrite Hpix in Hlook.
    destruct (decide ((img_x, trimmed_height - img_y - 1) = (x, y))) as [[= <- <-]|Hne].
    + rewrite lookup_insert_eq in Hlook. by injection Hlook as <-.
    + rewrite lookup_insert_ne in Hlook by done.
      eapply pixel_color_mono; [exact Hsub|]. by apply Hs.
  - rewrite Hpix, dom_insert_L. set_solver.
Qed.

Lemma row_body_step (trimmed_width img_y : Z) (s s' : parse_state) :
  row_body cached_colors get_room_color raw_data carpet_map width trim_left
    trim_bottom trimmed_width trimmed_height img_y s = Ok s' →
  cached_room_colors s ⊆ cached_room_colors s'
  ∧ (painted_as_expected s → painted_as_expected s')
  ∧ dom (image_pixels s')
    = list_to_set (range trimmed_width
                     ≫= λ img_x, [(img_x, trimmed_height - img_y - 1)])
      ∪ dom (image_pixels s).
Proof.
  unfold RoborockImageParser.row_body. apply loop_raster.
  intros img_x t t'. apply pixel_body_step.
Qed.

Lemma rows_positions (trimmed_width x y : Z) :
  (x, y) ∈ (range trimmed_height
              ≫= λ img_y, range trimmed_width
                            ≫= λ img_x, [(img_x, trimmed_height - img_y - 1)])
  ↔ 0 ≤ x < trimmed_width ∧ 0 ≤ y < trimmed_height.
Proof.
  rewrite list_elem_of_bind. unfold range. split.
  - intros (img_y & Hin & Hy). apply elem_of_seqZ in Hy.
    apply list_elem_of_bind in Hin as (img_x & Hin & Hx).
    apply elem_of_seqZ in Hx. apply list_elem_of_singleton in Hin as [= -> ->].
    lia.
  - intros [Hx Hy]. exists (trimmed_height - 1 - y). split.
    + apply list_elem_of_bind. exists x. split; [|apply elem_of_seqZ; lia].
      apply list_elem_of_singleton. f_equal. lia.
    + apply elem_of_seqZ. lia.
Qed.

End Raster.

Section RasterOfParse.

Context {Color : Type}.
Variable cached_colors : SupportedColor.t → Color.
Variable get_room_color : Z → Color.
Variable resize : Z * Z → Image Color → Image Color.

(** X19.  Without scaling, the image that lines 37-91 of [parse] return has
    the trimmed size and every pixel of it is painted, each with the colour
    of the source pixel it comes from: the output pixel [(x, y)] shows the
    pixel read for [img_x = x], [img_y = trimmed_height - 1 - y] (the rows
    are flipped), in the carpet colour when its index is in the carpet map
    and [x + y] is odd, otherwise in the colour of its category, a room floor
    in the colour the cache holds for the room when [parse] returns.  Nothing
    is painted outside the image.  This holds for the trim offsets as
    computed at lines 33-36, whatever their values. *)
Theorem parse_paints_every_pixel (scale : Q) (cache : gmap Z Color) raw_data
    width height trim_left trim_right trim_top trim_bottom carpet_map
    image rooms' cache' :
  let trimmed_height := height - trim_top - trim_bottom in
  let trimmed_width := width - trim_left - trim_right in
  Qeq_bool scale 1 = true →
  Aux.parse_with_trims cached_colors get_room_color resize scale cache raw_data
    width height trim_left trim_right trim_top trim_bottom carpet_map
  = Ok (Some image, rooms', cache') →
  size image = (trimmed_width, trimmed_height)
  ∧ (∀ x y, 0 ≤ x < trimmed_width → 0 ≤ y < trimmed_height →
       ∃ c, pixels image !! (x, y) = Some c
            ∧ Aux.pixel_color cached_colors cache' raw_data carpet_map width
                trim_left trim_bottom trimmed_height x y = Some c)
  ∧ (∀ x y, ¬ (0 ≤ x < trimmed_width ∧ 0 ≤ y < trimmed_height) →
       pixels image !! (x, y) = None).
Proof.
  intros trimmed_height trimmed_width Hscale H.
  unfold Aux.parse_with_trims in H. cbv zeta in H.
  fold trimmed_height trimmed_width in H.
  unfold Image_new in H. simpl fst in H. simpl snd in H.
  destruct ((trimmed_width <? 0) || (trimmed_height <? 0)); [discriminate|].
  rewrite bind_Ok in H.
  destruct ((width =? 0) || (height =? 0)); [discriminate|].
  apply bind_Ok_inv in H as (s & Hloop & H).
  rewrite Hscale in H. simpl in H. injection H as <- <- <-.
  pose proof (loop_raster cached_colors get_room_color resize raw_data
                carpet_map width trim_left trim_bottom trimmed_height _
                (λ img_y, range trimmed_width
                            ≫= λ img_x, [(img_x, trimmed_height - img_y - 1)])
                _ _ _
                (λ img_y t t', row_body_step cached_colors get_room_color resize
                                 raw_data carpet_map width trim_left trim_bottom
                                 trimmed_height trimmed_width img_y t t')
                Hloop) as (_ & Hpaint & Hdom).
  simpl in Hdom. rewrite dom_empty_L, union_empty_r_L in Hdom.
  assert (∀ x y, is_Some (image_pixels s !! (x, y))
                 ↔ 0 ≤ x < trimmed_width ∧ 0 ≤ y < trimmed_height) as Hsome.
  { intros x y. rewrite <- elem_of_dom, Hdom, elem_of_list_to_set.
    apply rows_positions. }
  simpl. split; [done|]. split.
  - intros x y Hx Hy. destruct (proj2 (Hsome x y) (conj Hx Hy)) as [c Hc].
    exists c. split; [done|]. apply Hpaint; [|done].
    intros x' y' c' Hlook. simpl in Hlook. by rewrite lookup_empty in Hlook.
  - intros x y Hout. apply eq_None_not_Some. by rewrite Hsome.
Qed.

End RasterOfParse.

Lemma parse_paints_every_pixel_witness :
  ∃ image rooms' cache',
    Aux.parse_with_trims plain_palette plain_room_color no_resize 1 ∅
      (bytes_of [0; 1; 255; 0x1F; 0; 0]) 2 3 0 0 1 0 (Some {[ 1 ]})
    = Ok (Some image, rooms', cache')
    ∧ size image = (2, 2)
    ∧ pixels image !! (1, 1) = Some (plain_palette SupportedColor.MAP_WALL)
    ∧ pixels image !! (1, 0) = Some (plain_room_color 3).
Proof.
  edestruct (parse_paints_every_pixel plain_palette plain_room_color no_resize
               1 ∅ (bytes_of [0; 1; 255; 0x1F; 0; 0]) 2 3 0 0 1 0
               (Some {[ 1 ]}))
    as (Hsize & _ & _); [reflexivity | vm_compute; reflexivity |].
  eexists _, _, _. split; [vm_compute; reflexivity|].
  split; [exact Hsize|]. split; vm_compute; reflexivity.
Defined.

(** ** The image block *)

Lemma round_to_pixel (X offset n : Z) :
  50 * (n + offset) - 25 < X < 50 * (n + offset) + 25 →
  round (inject_Z X / inject_Z 50 - inject_Z offset)%Q = n.
Proof.
  intros HX. set (q := (inject_Z X / inject_Z 50 - inject_Z offset)%Q).
  assert (q == (X - 50 * offset) # 50)%Q as Hq.
  { unfold q, Qeq, Qdiv, Qminus, Qplus, Qmult, Qinv, Qopp, inject_Z. simpl. lia. }
  unfold round. rewrite (Qfloor_comp _ _ Hq).
  change (Qfloor ((X - 50 * offset) # 50)) with ((X - 50 * offset) / 50).
  set (f := (X - 50 * offset) / 50).
  destruct (Qcompare_spec (q - inject_Z f) (1 # 2)) as [H|H|H];
    rewrite Hq in H;
    unfold Qeq, Qlt, Qminus, Qplus, Qopp, inject_Z in H; simpl in H;
    unfold f in *; try destruct (Z.even _);
    Z.div_mod_to_equations; lia.
Qed.

Section ImageBlock.

Context {Color : Type}.
Variable cached_colors : SupportedColor.t → Color.
Variable get_room_color : Z → Color.
Variable resize : Z * Z → Image Color → Image Color.
Variable image_config : ImageConfig.
Variable create_empty_map_image : Image Color.

(** X20.  When [block_header_length] is at least 16 and the header holds
    that many bytes, the four geometry reads of [_parse_image] cannot fail:
    top, left, height and width are the 32-bit values in the 16 bytes that
    end at offset [block_header_length].  So [_parse_image] fails exactly
    when the image parser fails on the body with that width and height, and
    with the same exception.  When the image parser returns, the result
    carries the image (the empty map image when there is none), and a room
    for exactly the room numbers of the image parser, its box turned from
    pixels into map units: every coordinate is shifted by the left or top
    offset of the image and multiplied by 50.  The lookup made by
    [_get_current_vacuum_room] undoes the conversion: a corner of the room
    sent through [_map_to_image], shifted back and rounded, is the pixel
    coordinate the image parser stored (for coordinates below [2^52] in
    absolute value, where the division and the subtraction of the code, made
    on doubles, are exact). *)
Theorem parse_image_rooms_in_map_units (cache : gmap Z Color)
    (block_data_length block_header_length : Z) (data header : list byte)
    (carpet_map : option (gset Z)) :
  16 ≤ block_header_length ≤ len header →
  ∃ image_top image_left image_height image_width,
    _get_int32 header (block_header_length - 16) = Ok image_top
    ∧ _get_int32 header (block_header_length - 12) = Ok image_left
    ∧ _get_int32 header (block_header_length - 8) = Ok image_height
    ∧ _get_int32 header (block_header_length - 4) = Ok image_width
    ∧ (∀ e,
         RoborockImageParser.parse cached_colors get_room_color resize
           image_config cache data image_width image_height carpet_map
         = Raise e →
         _parse_image cached_colors get_room_color resize image_config
           create_empty_map_image cache block_data_length block_header_length
           data header carpet_map = Raise e)
    ∧ (∀ image rooms_raw cache',
         RoborockImageParser.parse cached_colors get_room_color resize
           image_config cache data image_width image_height carpet_map
         = Ok (image, rooms_raw, cache') →
         ∃ rooms,
           _parse_image cached_colors get_room_color resize image_config
             create_empty_map_image cache block_data_length block_header_length
             data header carpet_map
           = Ok ({| image_size := block_data_length; image_top := image_top;
                    image_left := image_left; image_height := image_height;
                    image_width := image_width;
                    image_data := default create_empty_map_image image |},
                 rooms, cache')
           ∧ (∀ n, rooms_raw !! n = None → rooms !! n = None)
           ∧ (∀ n r0 r1 r2 r3, rooms_raw !! n = Some (r0, r1, r2, r3) →
                ∃ room,
                  rooms !! n = Some room
                  ∧ number room = n
                  ∧ room_x0 room = (r0 + image_left) * 50
                  ∧ room_y0 room = (r1 + image_top) * 50
                  ∧ room_x1 room = (r2 + image_left) * 50
                  ∧ room_y1 room = (r3 + image_top) * 50
                  ∧ (Z.abs r0 < 2 ^ 52 → Z.abs r1 < 2 ^ 52 →
                     let p := _map_to_image {| x := room_x0 room;
                                               y := room_y0 room; a := None |} in
                     round (p.1 - inject_Z image_left)%Q = r0
                     ∧ round (p.2 - inject_Z image_top)%Q = r1)
                  ∧ (Z.abs r2 < 2 ^ 52 → Z.abs r3 < 2 ^ 52 →
                     let p := _map_to_image {| x := room_x1 room;
                                               y := room_y1 room; a := None |} in
                     round (p.1 - inject_Z image_left)%Q = r2
                     ∧ round (p.2 - inject_Z image_top)%Q = r3))).
Proof.
  intros Hlen.
  destruct (get_int32_inside header (block_header_length - 16))
    as [image_top Htop]; [lia | lia |].
  destruct (get_int32_inside header (block_header_length - 12))
    as [image_left Hleft]; [lia | lia |].
  destruct (get_int32_inside header (block_header_length - 8))
    as [image_height Hheight]; [lia | lia |].
  destruct (get_int32_inside header (block_header_length - 4))
    as [image_width Hwidth]; [lia | lia |].
  exists image_top, image_left, image_height, image_width.
  do 4 (split; [done|]).
  unfold _parse_image. cbv zeta.
  rewrite Htop, bind_Ok, Hleft, bind_Ok, Hheight, bind_Ok, Hwidth, bind_Ok.
  split.
  - intros e ->. reflexivity.
  - intros image rooms_raw cache' ->. rewrite bind_Ok.
    eexists. split; [by destruct image|]. split.
    + intros n Hn. by rewrite map_lookup_imap, Hn.
    + intros n r0 r1 r2 r3 Hn. rewrite map_lookup_imap, Hn. simpl.
      eexists. split; [reflexivity|]. simpl. unfold _image_to_map.
      do 5 (split; [reflexivity|]).
      split; intros _ _; split; apply round_to_pixel; lia.
Qed.

End ImageBlock.

Lemma parse_image_rooms_in_map_units_witness :
  ∃ img rooms cache',
    _parse_image plain_palette plain_room_color no_resize no_trim_config
      empty_map_image ∅ 1 24
      (bytes_of [0xA7])
      (bytes_of [2; 0; 24; 0; 1; 0; 0; 0;
                 4; 0; 0; 0; 3; 0; 0; 0; 1; 0; 0; 0; 1; 0; 0; 0])
      None = Ok (img, rooms, cache')
    ∧ image_top img = 4 ∧ image_left img = 3
    ∧ rooms !! 20
      = Some {| room_x0 := 150; room_y0 := 200; room_x1 := 150; room_y1 := 200;
                number := 20 |}.
Proof.
  destruct (parse_image_rooms_in_map_units plain_palette plain_room_color
              no_resize no_trim_config empty_map_image ∅ 1 24 (bytes_of [0xA7])
              (bytes_of [2; 0; 24; 0; 1; 0; 0; 0;
                         4; 0; 0; 0; 3; 0; 0; 0; 1; 0; 0; 0; 1; 0; 0; 0])
              None)
    as (image_top & image_left & image_height & image_width
        & Htop & Hleft & Hheight & Hwidth & _ & Hok);
    [unfold len; simpl; lia|].
  vm_compute in Htop, Hleft, Hheight, Hwidth.
  injection Htop as <-. injection Hleft as <-.
  injection Hheight as <-. injection Hwidth as <-.
  edestruct Hok as (rooms & Himg & _ & Hroom); [vm_compute; reflexivity|].
  eexists _, rooms, _. split; [exact Himg|]. split; [reflexivity|].
  split; [reflexivity|].
  edestruct (Hroom 20) as (room & Hr & Hn & Hx0 & Hy0 & Hx1 & Hy1 & _);
    [vm_compute; reflexivity|].
  rewrite Hr. destruct room. simpl in *. by subst.
Defined.

(** ** More on the walker *)

Lemma getitem_get_bytes (data : list byte) (start size i v : Z) :
  0 ≤ start → 0 ≤ size → 0 ≤ i →
  getitem (_get_bytes data start size) i = Ok v →
  getitem data (start + i) = Ok v.
Proof.
  intros Hs Hz Hi H. pose proof (getitem_Ok_inside _ _ _ H) as Hin.
  rewrite len_get_bytes in Hin by done.
  destruct (getitem_inside (_get_bytes data start size) i) as (b & Hb & Hg).
  { rewrite len_get_bytes by done. lia. }
  rewrite Hg in H. injection H as <-.
  rewrite get_bytes_nonneg in Hb by done.
  rewrite lookup_take_lt, lookup_drop in Hb by lia.
  destruct (getitem_inside data (start + i)) as (b' & Hb' & ->); [lia|].
  replace (Z.to_nat (start + i)) with (Z.to_nat start + Z.to_nat i)%nat in Hb'
    by lia.
  congruence.
Qed.

Lemma get_int16_value (data : list byte) (address v : Z) :
  _get_int16 data address = Ok v →
  ∃ v0 v1, getitem data (address + 0) = Ok v0
           ∧ getitem data (address + 1) = Ok v1
           ∧ 0 ≤ v0 < 256 ∧ 0 ≤ v1 < 256 ∧ v = v0 + 256 * v1.
Proof.
  unfold _get_int16. intros H.
  apply bind_Ok_inv in H as (v0 & H0 & H).
  apply bind_Ok_inv in H as (v1 & H1 & [= <-]).
  exists v0, v1. split; [done|]. split; [done|].
  apply getitem_Ok_byte in H0 as (b0 & ->), H1 as (b1 & ->).
  pose proof (byte_val_range b0). pose proof (byte_val_range b1).
  split; [done|]. split; [done|].
  change 255 with (Z.ones (0 + 8)). change 65535 with (Z.ones (8 + 8)).
  rewrite !land_shiftl_byte by lia.
  rewrite Z.pow_0_r, Z.mul_1_r, lor_shiftl_disjoint by lia. lia.
Qed.

Section WalkerMore.

Context {Color : Type}.
Variable cached_colors : SupportedColor.t → Color.
Variable get_room_color : Z → Color.
Variable resize : Z * Z → Image Color → Image Color.
Variable image_config : ImageConfig.
Variable create_empty_map_image : Image Color.
Variable draw_map : MapData Color → MapData Color.
Variable is_empty : ImageData Color → bool.

Abbreviation walker_parse :=
  (RoborockMapDataParser.parse cached_colors get_room_color resize image_config
     create_empty_map_image draw_map is_empty).

(** X21.  The map header is 20 bytes: on a buffer with fewer bytes, the
    empty one included, [parse] raises [IndexError] before it looks at any
    block; with 20 bytes or more the loop is entered at the position stored
    in the 16-bit field at offset 2, with no attribute set and the four
    header fields recorded as additional parameters. *)
Theorem parse_needs_map_header (fuel : nat) (cache : gmap Z Color)
    (raw : list byte) :
  (len raw < 20 → walker_parse fuel cache raw = Some (Raise IndexError))
  ∧ (20 ≤ len raw →
       ∃ s0 : walk_state (Color := Color),
         start raw = Ok s0
         ∧ _get_int16 raw 0x02 = Ok (block_start_position s0)
         ∧ img s0 = None
         ∧ attributes (map_data s0) = ∅
         ∧ (λ v, Ok v) <$> additional_parameters (map_data s0) !! "major_version"%string
           = Some (_get_int16 raw 0x08)
         ∧ (λ v, Ok v) <$> additional_parameters (map_data s0) !! "minor_version"%string
           = Some (_get_int16 raw 0x0A)
         ∧ (λ v, Ok v) <$> additional_parameters (map_data s0) !! "map_index"%string
           = Some (_get_int32 raw 0x0C)
         ∧ (λ v, Ok v) <$> additional_parameters (map_data s0) !! "map_sequence"%string
           = Some (_get_int32 raw 0x10)).
Proof.
  split.
  - intros Hlen. unfold RoborockMapDataParser.parse.
    assert (start (Color := Color) raw = Raise IndexError) as ->; [|done].
    unfold start.
    destruct (get_int16_cases raw 2) as [[H2 [v2 ->]]|[H2 ->]]; [lia| |done].
    destruct (get_int16_cases raw 8) as [[H8 [v8 ->]]|[H8 ->]]; [lia| |done].
    destruct (get_int16_cases raw 10) as [[H10 [v10 ->]]|[H10 ->]]; [lia| |done].
    destruct (get_int32_cases raw 12) as [[H12 [v12 ->]]|[H12 ->]]; [lia| |done].
    destruct (get_int32_cases raw 16) as [[H16 [v16 ->]]|[H16 ->]]; [lia| |done].
    lia.
  - intros Hlen. unfold start.
    destruct (get_int16_inside raw 2) as [v2 ->]; [lia | lia |].
    destruct (get_int16_inside raw 8) as [v8 ->]; [lia | lia |].
    destruct (get_int16_inside raw 10) as [v10 ->]; [lia | lia |].
    destruct (get_int32_inside raw 12) as [v12 ->]; [lia | lia |].
    destruct (get_int32_inside raw 16) as [v16 ->]; [lia | lia |].
    rewrite !bind_Ok. eexists. split; [reflexivity|]. simpl.
    repeat split; reflexivity.
Qed.

End WalkerMore.

Section WalkerSteps.

Context {Color : Type}.

Lemma dispatch_parameters (raw header data : list byte)
    (block_header_length block_data_length block_data_start block_type : Z)
    (s s' : walk_state (Color := Color)) (key : string) :
  dispatch raw header data block_header_length block_data_length
    block_data_start block_type s = Ok s' →
  key ≠ "is_valid"%string →
  additional_parameters (map_data s') !! key
  = additional_parameters (map_data s) !! key.
Proof.
  unfold dispatch. intros H Hkey.
  destruct (matching_case block_type) as [[]|];
    try (bind_inv H; injection H as <-; reflexivity).
  - destruct (attribute_path _ _);
      bind_inv H; injection H as <-; reflexivity.
  - injection H as <-. simpl. by rewrite lookup_insert_ne.
Qed.

Lemma block_step_parameters (raw : list byte) (s s' : walk_state (Color := Color))
    (key : string) :
  block_step raw s = Ok s' → key ≠ "is_valid"%string →
  additional_parameters (map_data s') !! key
  = additional_parameters (map_data s) !! key.
Proof.
  unfold block_step. intros H Hkey.
  apply bind_Ok_inv in H as (hl & _ & H).
  apply bind_Ok_inv in H as (bt & _ & H).
  apply bind_Ok_inv in H as (dl & _ & H).
  apply bind_Ok_inv in H as (s1 & Hd & H).
  apply bind_Ok_inv in H as (pad & _ & [= <-]). simpl.
  by eapply dispatch_parameters.
Qed.

(** X22.  When the scanning loop ends normally, the position has reached the
    end of the buffer without ever having moved backwards, and the blocks
    have left the additional parameters of the header as they were: the only
    key a block can write is "is_valid". *)
Theorem scan_normal_end (fuel : nat) (raw : list byte)
    (s s' : walk_state (Color := Color)) :
  scan fuel raw s = Some (Ok s') →
  len raw ≤ block_start_position s'
  ∧ block_start_position s ≤ block_start_position s'
  ∧ ∀ key, key ≠ "is_valid"%string →
      additional_parameters (map_data s') !! key
      = additional_parameters (map_data s) !! key.
Proof.
  revert s. induction fuel as [|fuel IH]; intros s; simpl;
    destruct (Z.ltb_spec (block_start_position s) (len raw)) as [Hlt|Hge];
    try discriminate; try (intros [= <-]; repeat split; (lia || done)).
  destruct (block_step raw s) as [s1|e] eqn:Hstep; [|discriminate].
  intros H. destruct (IH s1 H) as (Hend & Hmono & Hpar).
  destruct (block_step_advance raw s s1 Hstep) as (adv & _ & Hadv & Hpos).
  split; [done|]. split; [lia|].
  intros key Hkey. rewrite Hpar by done. by eapply block_step_parameters.
Qed.

(** X23.  An iteration of the loop moves the position forward by the body
    length plus the header length modulo 256: the byte added at line 174 is
    the low byte of the 16-bit header length.  So for a header shorter than
    256 bytes the next block starts right after the body of this one. *)
Theorem block_step_next_position (raw : list byte)
    (s s' : walk_state (Color := Color)) :
  0 ≤ block_start_position s →
  block_step raw s = Ok s' →
  ∃ block_header_length block_data_length,
    _get_int16 raw (block_start_position s + 0x02) = Ok block_header_length
    ∧ _get_int32 (_get_bytes raw (block_start_position s) block_header_length) 0x04
      = Ok block_data_length
    ∧ block_start_position s'
      = block_start_position s + block_data_length + block_header_length mod 256
    ∧ (block_header_length < 256 →
       block_start_position s'
       = block_start_position s + block_header_length + block_data_length).
Proof.
  intros Hpos H. unfold block_step in H.
  apply bind_Ok_inv in H as (hl & Hhl & H).
  apply bind_Ok_inv in H as (bt & _ & H).
  apply bind_Ok_inv in H as (dl & Hdl & H).
  apply bind_Ok_inv in H as (s1 & Hd & H).
  apply bind_Ok_inv in H as (pad & Hpad & [= <-]). simpl.
  exists hl, dl. split; [done|]. split; [done|].
  pose proof (get_int16_nonneg _ _ _ Hhl) as Hnn.
  apply get_int16_value in Hhl as (v0 & v1 & H0 & _ & Hv0 & Hv1 & ->).
  unfold _get_int8 in Hpad. apply bind_Ok_inv in Hpad as (b & Hb & [= <-]).
  apply getitem_get_bytes in Hb; [|lia..].
  rewrite Z.add_0_r in H0. rewrite H0 in Hb. injection Hb as <-.
  rewrite land_255_mod, (Z.mod_small v0) by lia.
  assert ((v0 + 256 * v1) mod 256 = v0) as Hmod.
  { Z.div_mod_to_equations. lia. }
  rewrite Hmod. split; [done|]. intros Hsmall. lia.
Qed.

End WalkerSteps.

Lemma parse_needs_map_header_witness :
  RoborockMapDataParser.parse plain_palette plain_room_color no_resize
    no_trim_config empty_map_image draw_nothing is_empty_image 5 ∅ (bytes_of [])
  = Some (Raise IndexError).
Proof.
  apply (parse_needs_map_header plain_palette plain_room_color no_resize
           no_trim_config empty_map_image draw_nothing is_empty_image 5 ∅
           (bytes_of [])).
  reflexivity.
Defined.

Lemma scan_normal_end_witness :
  ∃ s0 s' : walk_state (Color := Z),
    start charger_map = Ok s0
    ∧ scan 5 charger_map s0 = Some (Ok s')
    ∧ len charger_map ≤ block_start_position s'
    ∧ additional_parameters (map_data s') !! "minor_version"%string = Some 2.
Proof.
  assert (∃ s0 s' : walk_state (Color := Z),
            start charger_map = Ok s0 ∧ scan 5 charger_map s0 = Some (Ok s')
            ∧ additional_parameters (map_data s0) !! "minor_version"%string
              = Some 2)
    as (s0 & s' & Hs & Hscan & Hminor)
    by (eexists _, _; repeat split; vm_compute; reflexivity).
  destruct (scan_normal_end 5 charger_map s0 s' Hscan) as (Hend & _ & Hpar).
  exists s0, s'. repeat split; try done.
  by rewrite Hpar.
Defined.

Lemma block_step_next_position_witness :
  ∃ s0 s' : walk_state (Color := Z),
    start charger_map = Ok s0
    ∧ block_step charger_map s0 = Ok s'
    ∧ block_start_position s' = block_start_position s0 + 8 + 12.
Proof.
  assert (∃ s0 s' : walk_state (Color := Z),
            start charger_map = Ok s0 ∧ block_step charger_map s0 = Ok s'
            ∧ block_start_position s0 = 20)
    as (s0 & s' & Hs & Hstep & Hpos)
    by (eexists _, _; repeat split; vm_compute; reflexivity).
  destruct (block_step_next_position charger_map s0 s') as
    (hl & dl & Hhl & Hdl & _ & Hnext); [lia | done |].
  exists s0, s'. split; [done|]. split; [done|].
  rewrite Hpos in Hhl, Hdl. vm_compute in Hhl. injection Hhl as <-.
  vm_compute in Hdl. injection Hdl as <-. apply Hnext. lia.
Defined.

(** ** The room of the vacuum *)

(** X24.  [_get_current_vacuum_room] looks up the pixel nearest to the
    vacuum: it re-reads the image block at [block_start_position], and for a
    vacuum position less than 25 map units away, in x and in y, from the
    centre [50 * (px + left)], [50 * (py + top)] of the pixel [(px, py)], it
    returns what [get_room_at_pixel] returns for [(px, py)] on the body of
    the block. *)
Theorem get_current_vacuum_room_nearest_pixel (block_start_position : Z)
    (raw : list byte) (vacuum_position : Point)
    (block_header_length block_data_length image_top image_left image_width
       px py : Z) :
  _get_int16 raw (block_start_position + 0x02) = Ok block_header_length →
  _get_int32 (_get_bytes raw block_start_position block_header_length) 0x04
    = Ok block_data_length →
  _get_int32 (_get_bytes raw block_start_position block_header_length)
    (block_header_length - 16) = Ok image_top →
  _get_int32 (_get_bytes raw block_start_position block_header_length)
    (block_header_length - 12) = Ok image_left →
  _get_int32 (_get_bytes raw block_start_position block_header_length)
    (block_header_length - 4) = Ok image_width →
  50 * (px + image_left) - 25 < x vacuum_position < 50 * (px + image_left) + 25 →
  50 * (py + image_top) - 25 < y vacuum_position < 50 * (py + image_top) + 25 →
  _get_current_vacuum_room block_start_position raw vacuum_position
  = get_room_at_pixel
      (_get_bytes raw (block_start_position + block_header_length)
         block_data_length)
      image_width px py.
Proof.
  intros Hhl Hdl Htop Hleft Hwidth Hx Hy. unfold _get_current_vacuum_room.
  rewrite Hhl, bind_Ok. cbv zeta.
  rewrite Hdl, bind_Ok, Htop, bind_Ok, Hleft, bind_Ok, Hwidth, bind_Ok.
  unfold _map_to_image. simpl fst. simpl snd.
  by rewrite (round_to_pixel _ _ px), (round_to_pixel _ _ py).
Qed.

Lemma get_current_vacuum_room_nearest_pixel_witness :
  _get_current_vacuum_room 0
    (bytes_of [2; 0; 24; 0; 1; 0; 0; 0;
               4; 0; 0; 0; 3; 0; 0; 0; 1; 0; 0; 0; 1; 0; 0; 0; 0xA7])
    {| x := 160; y := 190; a := None |}
  = Ok (Some 20).
Proof.
  rewrite (get_current_vacuum_room_nearest_pixel 0 _ _ 24 1 4 3 1 0 0);
    [reflexivity | reflexivity | reflexivity | reflexivity | reflexivity
    | reflexivity | simpl; lia | simpl; lia].
Defined.

(** ** Blocks the walker does not know, and maps without image *)

Section WalkerBlocks.

Context {Color : Type}.

Lemma matching_case_None (block_type : Z) :
  (∀ t, value t ≠ block_type) → matching_case block_type = None.
Proof.
  intros Hno. destruct (matching_case block_type) as [t|] eqn:E; [|done].
  unfold matching_case in E. apply find_some in E as [_ E].
  apply Z.eqb_eq in E. by destruct (Hno t).
Qed.

(** X25.  A block whose type code is not one of [RoborockBlockType] is
    skipped: once the 8 header bytes that every iteration reads are there,
    the iteration succeeds whatever the body holds (and even if the body is
    missing), it leaves the map data and the recorded image block as they
    were, and only moves the position, never backwards. *)
Theorem block_step_unknown_type (raw : list byte)
    (s : walk_state (Color := Color))
    (block_header_length block_type block_data_length : Z) :
  _get_int16 raw (block_start_position s + 0x02) = Ok block_header_length →
  _get_int16 (_get_bytes raw (block_start_position s) block_header_length) 0x00
    = Ok block_type →
  _get_int32 (_get_bytes raw (block_start_position s) block_header_length) 0x04
    = Ok block_data_length →
  (∀ t, value t ≠ block_type) →
  ∃ s', block_step raw s = Ok s'
        ∧ map_data s' = map_data s
        ∧ img s' = img s
        ∧ block_start_position s + block_data_length ≤ block_start_position s'.
Proof.
  intros Hhl Hbt Hdl Hno. unfold block_step.
  rewrite Hhl, bind_Ok. cbv zeta. rewrite Hbt, bind_Ok, Hdl, bind_Ok.
  unfold dispatch. rewrite (matching_case_None _ Hno), bind_Ok.
  apply get_int32_Ok_len in Hdl as Hlen; [|lia].
  destruct (getitem_inside
              (_get_bytes raw (block_start_position s) block_header_length) 2)
    as (b & _ & Hb); [lia|].
  unfold _get_int8. rewrite Hb, !bind_Ok.
  eexists. split; [reflexivity|]. simpl. repeat split.
  pose proof (byte_val_range b) as Hr.
  assert (0 ≤ Z.land (byte_val b) 255) by (apply Z.land_nonneg; lia). lia.
Qed.

Lemma dispatch_image_attributes (raw header data : list byte)
    (block_header_length block_data_length block_data_start block_type : Z)
    (s s' : walk_state (Color := Color)) (key : string) :
  dispatch raw header data block_header_length block_data_length
    block_data_start block_type s = Ok s' →
  key = "image"%string ∨ key = "rooms"%string ∨ key = "vacuum_room"%string →
  attributes (map_data s') !! key = attributes (map_data s) !! key.
Proof.
  unfold dispatch. intros H Hkey.
  destruct (matching_case block_type) as [[]|];
    try destruct (attribute_path _ _);
    try (bind_inv H); injection H as <-; try reflexivity;
    simpl; apply lookup_insert_ne; by destruct Hkey as [->|[->| ->]].
Qed.

Lemma block_step_image_attributes (raw : list byte)
    (s s' : walk_state (Color := Color)) (key : string) :
  block_step raw s = Ok s' →
  key = "image"%string ∨ key = "rooms"%string ∨ key = "vacuum_room"%string →
  attributes (map_data s') !! key = attributes (map_data s) !! key.
Proof.
  unfold block_step. intros H Hkey.
  apply bind_Ok_inv in H as (hl & _ & H).
  apply bind_Ok_inv in H as (bt & _ & H).
  apply bind_Ok_inv in H as (dl & _ & H).
  apply bind_Ok_inv in H as (s1 & Hd & H).
  apply bind_Ok_inv in H as (pad & _ & [= <-]). simpl.
  by eapply dispatch_image_attributes.
Qed.

Lemma scan_image_attributes (fuel : nat) (raw : list byte)
    (s s' : walk_state (Color := Color)) (key : string) :
  scan fuel raw s = Some (Ok s') →
  key = "image"%string ∨ key = "rooms"%string ∨ key = "vacuum_room"%string →
  attributes (map_data s') !! key = attributes (map_data s) !! key.
Proof.
  intros H Hkey. revert s H. induction fuel as [|fuel IH]; intros s; simpl;
    destruct (block_start_position s <? len raw);
    try discriminate; try (by intros [= <-]).
  destruct (block_step raw s) as [s1|e] eqn:Hstep; [|discriminate].
  intros H. rewrite (IH s1 H). by eapply block_step_image_attributes.
Qed.

Lemma start_attributes (raw : list byte) (s0 : walk_state (Color := Color)) :
  start raw = Ok s0 → attributes (map_data s0) = ∅ ∧ img s0 = None.
Proof.
  unfold start. intros H.
  apply bind_Ok_inv in H as (v2 & _ & H).
  apply bind_Ok_inv in H as (v8 & _ & H).
  apply bind_Ok_inv in H as (v10 & _ & H).
  apply bind_Ok_inv in H as (v12 & _ & H).
  apply bind_Ok_inv in H as (v16 & _ & [= <-]). done.
Qed.

End WalkerBlocks.

Section WalkerImage.

Context {Color : Type}.
Variable cached_colors : SupportedColor.t → Color.
Variable get_room_color : Z → Color.
Variable resize : Z * Z → Image Color → Image Color.
Variable image_config : ImageConfig.
Variable create_empty_map_image : Image Color.
Variable draw_map : MapData Color → MapData Color.
Variable is_empty : ImageData Color → bool.

(** X26.  Only an IMAGE block gives the map an image: when the loop ends
    without having met one, [parse] returns the map data as the loop left
    them, with no image, no rooms and no vacuum room; the map is not drawn
    and the room colour cache of the palette is not touched. *)
Theorem parse_without_image_block (fuel : nat) (cache : gmap Z Color)
    (raw : list byte) (s0 s : walk_state (Color := Color)) :
  start raw = Ok s0 →
  scan fuel raw s0 = Some (Ok s) →
  img s = None →
  RoborockMapDataParser.parse cached_colors get_room_color resize image_config
    create_empty_map_image draw_map is_empty fuel cache raw
  = Some (Ok (map_data s, cache))
  ∧ attributes (map_data s) !! "image"%string = None
  ∧ attributes (map_data s) !! "rooms"%string = None
  ∧ attributes (map_data s) !! "vacuum_room"%string = None.
Proof.
  intros Hstart Hscan Himg.
  destruct (start_attributes raw s0 Hstart) as [Hempty _].
  assert (∀ key,
            key = "image"%string ∨ key = "rooms"%string
            ∨ key = "vacuum_room"%string →
            attributes (map_data s) !! key = None) as Hnone.
  { intros key Hkey. rewrite (scan_image_attributes _ _ _ _ _ Hscan Hkey).
    by rewrite Hempty. }
  split; [|repeat split; apply Hnone; auto].
  unfold RoborockMapDataParser.parse. rewrite Hstart, Hscan.
  unfold finish. rewrite Himg, bind_Ok. unfold attribute_image.
  rewrite (Hnone "image"%string) by auto. reflexivity.
Qed.

End WalkerImage.

Lemma block_step_unknown_type_witness :
  ∃ s' : walk_state (Color := Z),
    block_step (bytes_of [99; 0; 8; 0; 200; 0; 0; 0])
      {| map_data := MapData_new; block_start_position := 0; img := None |}
    = Ok s'
    ∧ map_data s' = MapData_new.
Proof.
  destruct (block_step_unknown_type (bytes_of [99; 0; 8; 0; 200; 0; 0; 0])
              {| map_data := MapData_new (Color := Z);
                 block_start_position := 0; img := None |} 8 99 200)
    as (s' & Hstep & Hmap & _);
    [reflexivity | reflexivity | reflexivity | by intros [] |].
  by exists s'.
Defined.

Lemma parse_without_image_block_witness :
  ∃ m : MapData Z,
    RoborockMapDataParser.parse plain_palette plain_room_color no_resize
      no_trim_config empty_map_image draw_nothing is_empty_image 5 ∅ charger_map
    = Some (Ok (m, ∅))
    ∧ attributes m !! "image"%string = None.
Proof.
  assert (∃ s0 s : walk_state (Color := Z),
            start charger_map = Ok s0 ∧ scan 5 charger_map s0 = Some (Ok s)
            ∧ img s = None)
    as (s0 & s & Hs & Hscan & Himg)
    by (eexists _, _; repeat split; vm_compute; reflexivity).
  destruct (parse_without_image_block plain_palette plain_room_color no_resize
              no_trim_config empty_map_image draw_nothing is_empty_image
              5 ∅ charger_map s0 s Hs Hscan Himg) as (Hparse & Himage & _).
  exists (map_data s). by split.
Defined.
